(** * Midgard bundle emitter (src/panfrost/midgard/midgard_emit.c)

    A shallow embedding of the packing routines of the Midgard binary
    emitter, and the properties of them that the specification states.

    C integers are integers of [Z]; a store into a bit-field keeps the low
    bits of the value ([ufield]), an assertion that fails and an
    [unreachable] abort the compilation ([None]). *)

From Stdlib Require Import ZArith List Bool Lia.
Import ListNotations.
Local Open Scope Z_scope.

(** ** C conventions *)

(** Store of [v] into an unsigned bit-field of [w] bits. *)
Definition ufield (w v : Z) : Z := Z.land v (Z.ones w).

(** Conversion of [v] to a signed integer of [w] bits (two's complement). *)
Definition sfield (w v : Z) : Z := (v + 2 ^ (w - 1)) mod 2 ^ w - 2 ^ (w - 1).

(** [(m & (1 << c)) != 0] *)
Definition bit_set (m c : Z) : bool := negb (Z.land m (Z.shiftl 1 c) =? 0).

(** [(m & k) != 0], the truth value of [m & k] in a condition. *)
Definition any_set (m k : Z) : bool := negb (Z.land m k =? 0).

(** Assertions and the error monad of the emitter. *)
Definition assert (b : bool) : option unit := if b then Some tt else None.

Definition unreachable {A : Type} : option A := None.

Definition bind {A B : Type} (c : option A) (k : A -> option B) : option B :=
  match c with
  | Some a => k a
  | None => None
  end.

Notation "x <- c ;; k" := (bind c (fun x => k))
  (at level 61, c at next level, right associativity).
Notation "c ;;; k" := (bind c (fun _ => k))
  (at level 61, right associativity).

(** ** Declarations of midgard.h and compiler.h

    The headers are not among the sources at hand.  What the emitter needs
    of them is written here as the Mesa 20.3 tree declares it: the
    numbering of two small enumerations, the component names, and the
    widths of the bit-fields the emitter stores into. *)

(** enum midgard_int_mod.  The emitter itself returns the literal 0 under
    the comment "Sign-extension, really". *)
Definition midgard_int_sign_extend : Z := 0.
Definition midgard_int_zero_extend : Z := 1.
Definition midgard_int_normal : Z := 2.
Definition midgard_int_shift : Z := 3.

(** enum midgard_condition: two-bit condition codes. *)
Definition midgard_condition_write0 : Z := 0.
Definition midgard_condition_false : Z := 1.
Definition midgard_condition_true : Z := 2.
Definition midgard_condition_always : Z := 3.

Definition COMPONENT_X : Z := 0.
Definition COMPONENT_Y : Z := 1.
Definition COMPONENT_Z : Z := 2.
Definition COMPONENT_W : Z := 3.

Inductive midgard_reg_mode : Type :=
| midgard_reg_mode_8
| midgard_reg_mode_16
| midgard_reg_mode_32
| midgard_reg_mode_64.

Definition reg_mode_code (m : midgard_reg_mode) : Z :=
  match m with
  | midgard_reg_mode_8 => 0
  | midgard_reg_mode_16 => 1
  | midgard_reg_mode_32 => 2
  | midgard_reg_mode_64 => 3
  end.

Definition reg_mode_eqb (a b : midgard_reg_mode) : bool :=
  reg_mode_code a =? reg_mode_code b.

(** Widths of the bit-fields of midgard_scalar_alu (32 bits in all):
    op 8, src1 6, src2 11, unknown 1, outmod 2, output_full 1,
    output_component 3.  The emitter splits a 16-bit inline constant
    accordingly: bits 11 and up go to the register word
    ([inline_constant >> 11] in emit_alu_bundle), the rest, which it names
    [lower_11], to src2. *)
Definition SCALAR_SRC1_BITS : Z := 6.
Definition SCALAR_SRC2_BITS : Z := 11.
Definition SCALAR_OUTPUT_COMPONENT_BITS : Z := 3.

(** Widths of the bit-fields of midgard_vector_alu (48 bits in all):
    op 8, reg_mode 2, src1 13, src2 13, dest_override 2, outmod 2, mask 8. *)
Definition ALU_OP_BITS : Z := 8.
Definition VECTOR_SRC_BITS : Z := 13.
Definition OUTMOD_BITS : Z := 2.
Definition VECTOR_MASK_BITS : Z := 8.

(** "Load store masks are 4-bits" (midgard_load_store_word.mask). *)
Definition LDST_MASK_BITS : Z := 4.

(** midgard_branch_cond: op 3, dest_tag 4, offset 7 (signed), cond 2.
    midgard_branch_uncond: op 3, dest_tag 4, unknown 2, offset 7 (signed).
    midgard_branch_extended: op 3, dest_tag 4, unknown 2, offset 23
    (signed), cond 16. *)
Definition BRANCH_OP_BITS : Z := 3.
Definition BRANCH_TAG_BITS : Z := 4.
Definition BRANCH_COMPACT_OFFSET_BITS : Z := 7.
Definition BRANCH_EXTENDED_OFFSET_BITS : Z := 23.
Definition BRANCH_COND_BITS : Z := 2.

(** ** Data model *)

Record midgard_branch : Type := {
  conditional : bool;
  invert_conditional : bool;
  target_type : Z;
  target_block : Z
}.

(** The fields of midgard_instruction that the emitter reads or writes.
    Arrays are lists: [src], [src_types] and the flag arrays have
    MIR_SRC_COUNT entries, [swizzle] one row of components per source. *)
Record midgard_instruction : Type := {
  ins_op : Z;
  ins_src : list Z;
  ins_src_types : list Z;
  ins_dest : Z;
  ins_dest_type : Z;
  ins_swizzle : list (list Z);
  ins_mask : Z;
  ins_src_abs : list bool;
  ins_src_neg : list bool;
  ins_src_invert : list bool;
  ins_src_shift : list bool;
  ins_has_inline_constant : bool;
  ins_inline_constant : Z;
  ins_outmod : Z;
  ins_unit : Z;
  ins_writeout : bool;
  ins_compact_branch : bool;
  ins_branch : midgard_branch;
  ins_load_store_mask : Z;       (* load_store.mask *)
  ins_texture_out_of_order : Z   (* texture.out_of_order *)
}.

Definition set_op (ins : midgard_instruction) (o : Z) : midgard_instruction :=
  {| ins_op := o; ins_src := ins_src ins; ins_src_types := ins_src_types ins;
     ins_dest := ins_dest ins; ins_dest_type := ins_dest_type ins;
     ins_swizzle := ins_swizzle ins; ins_mask := ins_mask ins;
     ins_src_abs := ins_src_abs ins; ins_src_neg := ins_src_neg ins;
     ins_src_invert := ins_src_invert ins; ins_src_shift := ins_src_shift ins;
     ins_has_inline_constant := ins_has_inline_constant ins;
     ins_inline_constant := ins_inline_constant ins;
     ins_outmod := ins_outmod ins; ins_unit := ins_unit ins;
     ins_writeout := ins_writeout ins;
     ins_compact_branch := ins_compact_branch ins;
     ins_branch := ins_branch ins;
     ins_load_store_mask := ins_load_store_mask ins;
     ins_texture_out_of_order := ins_texture_out_of_order ins |}.

Definition set_load_store_mask (ins : midgard_instruction) (m : Z)
  : midgard_instruction :=
  {| ins_op := ins_op ins; ins_src := ins_src ins;
     ins_src_types := ins_src_types ins;
     ins_dest := ins_dest ins; ins_dest_type := ins_dest_type ins;
     ins_swizzle := ins_swizzle ins; ins_mask := ins_mask ins;
     ins_src_abs := ins_src_abs ins; ins_src_neg := ins_src_neg ins;
     ins_src_invert := ins_src_invert ins; ins_src_shift := ins_src_shift ins;
     ins_has_inline_constant := ins_has_inline_constant ins;
     ins_inline_constant := ins_inline_constant ins;
     ins_outmod := ins_outmod ins; ins_unit := ins_unit ins;
     ins_writeout := ins_writeout ins;
     ins_compact_branch := ins_compact_branch ins;
     ins_branch := ins_branch ins;
     ins_load_store_mask := m;
     ins_texture_out_of_order := ins_texture_out_of_order ins |}.

Definition set_texture_out_of_order (ins : midgard_instruction) (n : Z)
  : midgard_instruction :=
  {| ins_op := ins_op ins; ins_src := ins_src ins;
     ins_src_types := ins_src_types ins;
     ins_dest := ins_dest ins; ins_dest_type := ins_dest_type ins;
     ins_swizzle := ins_swizzle ins; ins_mask := ins_mask ins;
     ins_src_abs := ins_src_abs ins; ins_src_neg := ins_src_neg ins;
     ins_src_invert := ins_src_invert ins; ins_src_shift := ins_src_shift ins;
     ins_has_inline_constant := ins_has_inline_constant ins;
     ins_inline_constant := ins_inline_constant ins;
     ins_outmod := ins_outmod ins; ins_unit := ins_unit ins;
     ins_writeout := ins_writeout ins;
     ins_compact_branch := ins_compact_branch ins;
     ins_branch := ins_branch ins;
     ins_load_store_mask := ins_load_store_mask ins;
     ins_texture_out_of_order := n |}.

(** Array reads: [ins->src[i]], [ins->src_types[i]], [ins->swizzle[i][c]]
    and the per-source flags. *)
Definition src_at (ins : midgard_instruction) (i : nat) : Z :=
  nth i (ins_src ins) 0.
Definition src_type_at (ins : midgard_instruction) (i : nat) : Z :=
  nth i (ins_src_types ins) 0.
Definition swizzle_row (ins : midgard_instruction) (i : nat) : list Z :=
  nth i (ins_swizzle ins) [].
Definition swz (row : list Z) (c : Z) : Z := nth (Z.to_nat c) row 0.
Definition flag_at (l : list bool) (i : nat) : bool := nth i l false.

Record midgard_bundle : Type := {
  tag : Z;
  instructions : list midgard_instruction  (* instruction_count entries *)
}.

Record midgard_block : Type := {
  name : Z;                      (* base.name *)
  bundles : list midgard_bundle;
  quadword_count : Z
}.

Record compiler_context : Type := {
  blocks : list midgard_block;
  quirks : Z
}.

Record midgard_scalar_alu_src : Type := {
  ss_mod : Z;
  ss_full : bool;
  ss_component : Z
}.

Record midgard_scalar_alu : Type := {
  s_op : Z;
  s_src1 : Z;
  s_src2 : Z;
  s_unknown : Z;
  s_outmod : Z;
  s_output_full : bool;
  s_output_component : Z
}.

Record midgard_vector_alu_src : Type := {
  vs_mod : Z;
  vs_rep_low : bool;
  vs_rep_high : bool;
  vs_half : bool;
  vs_swizzle : Z
}.

Record midgard_vector_alu : Type := {
  v_op : Z;
  v_reg_mode : midgard_reg_mode;
  v_src1 : Z;
  v_src2 : Z;
  v_dest_override : Z;
  v_outmod : Z;
  v_mask : Z
}.

Record midgard_branch_cond : Type := {
  bc_op : Z;
  bc_dest_tag : Z;
  bc_offset : Z;
  bc_cond : Z
}.

Record midgard_branch_uncond : Type := {
  bu_op : Z;
  bu_dest_tag : Z;
  bu_offset : Z;
  bu_unknown : Z
}.

Record midgard_branch_extended : Type := {
  be_op : Z;
  be_dest_tag : Z;
  be_offset : Z;
  be_cond : Z
}.

(** What emit_branch appends to the emission, by form. *)
Inductive branch_word : Type :=
| BranchCond (b : midgard_branch_cond)
| BranchUncond (b : midgard_branch_uncond)
| BranchExtended (b : midgard_branch_extended).

(** ** Helpers the emitter calls and constants it names

    They are defined in other files of the compiler (compiler.h, mir.c,
    midgard_ops.h, nir.h), none of them at hand: the emitter is modelled
    over any implementation of them. *)
Class Externals : Type := {
  nir_alu_type_get_type_size : Z -> Z;
  nir_alu_type_get_base_type : Z -> Z;
  nir_type_int : Z;
  midgard_is_integer_op : Z -> bool;
  max_bitsize_for_alu : midgard_instruction -> Z;
  mir_upper_override : midgard_instruction -> Z -> Z;
  expand_writemask : Z -> Z -> Z;
  reg_mode_for_bitsize : Z -> midgard_reg_mode;
  (* GET_CHANNEL_COUNT(alu_opcode_props[op].props) *)
  alu_channel_count : Z -> Z;
  vector_alu_srco_unsigned : midgard_vector_alu_src -> Z;
  midgard_dest_override_lower : Z;
  midgard_dest_override_upper : Z;
  midgard_dest_override_none : Z;
  IS_ALU : Z -> bool;
  TAG_LOAD_STORE_4 : Z;
  midgard_alu_op_iand : Z;
  midgard_alu_op_ior : Z;
  midgard_alu_op_ixor : Z;
  midgard_alu_op_inor : Z;
  midgard_alu_op_iandnot : Z;
  midgard_alu_op_inand : Z;
  midgard_alu_op_iornot : Z;
  midgard_alu_op_inxor : Z;
  ALU_ENAB_BR_COMPACT : Z;
  TARGET_DISCARD : Z;
  TARGET_TILEBUF_WAIT : Z;
  midgard_jmp_writeout_op_branch_uncond : Z;
  midgard_jmp_writeout_op_branch_cond : Z;
  midgard_jmp_writeout_op_discard : Z;
  midgard_jmp_writeout_op_tilebuffer_pending : Z;
  midgard_jmp_writeout_op_writeout : Z;
  (* NULL is [None] *)
  mir_get_block : compiler_context -> Z -> option midgard_block;
  midgard_get_first_tag_from_block : compiler_context -> Z -> Z
}.

Section Emitter.

Context {E : Externals}.

(** ** Modifier packing *)

Definition mir_get_imod (shift : bool) (T : Z) (half scalar : bool)
  : option Z :=
  if negb half then
    assert (negb shift) ;;;
    (* Sign-extension, really... *)
    Some (if scalar then 0 else midgard_int_normal)
  else if shift then
    Some midgard_int_shift
  else if nir_alu_type_get_base_type T =? nir_type_int then
    Some midgard_int_sign_extend
  else
    Some midgard_int_zero_extend.

Definition mir_pack_mod (ins : midgard_instruction) (i : nat) (scalar : bool)
  : option Z :=
  let integer := midgard_is_integer_op (ins_op ins) in
  let base_size := max_bitsize_for_alu ins in
  let sz := nir_alu_type_get_type_size (src_type_at ins i) in
  let half := sz =? Z.shiftr base_size 1 in
  if integer then
    mir_get_imod (flag_at (ins_src_shift ins) i) (src_type_at ins i) half scalar
  else
    Some (Z.lor (Z.shiftl (Z.b2z (flag_at (ins_src_abs ins) i)) 0)
                (Z.shiftl (Z.b2z (flag_at (ins_src_neg ins) i)) 1)).

(** ** Scalar demotion *)

Fixpoint component_from_mask_loop (n : nat) (c : Z) (mask : Z) : option Z :=
  match n with
  | O => None (* assert(0) *)
  | S n' =>
      if bit_set mask c then Some c
      else component_from_mask_loop n' (c + 1) mask
  end.

Definition component_from_mask (mask : Z) : option Z :=
  component_from_mask_loop 8 0 mask.

(** The value read back from a midgard_scalar_alu_src: mod in bits 0-1,
    full in bit 2, component in bits 3-5. *)
Definition scalar_alu_src_bits (s : midgard_scalar_alu_src) : Z :=
  Z.lor (ss_mod s)
        (Z.lor (Z.shiftl (Z.b2z (ss_full s)) 2) (Z.shiftl (ss_component s) 3)).

Definition mir_pack_scalar_source (mod_ : Z) (is_full : bool) (component : Z)
  : Z :=
  let s := {| ss_mod := ufield 2 mod_;
              ss_full := is_full;
              ss_component :=
                ufield 3 (Z.shiftl component (if is_full then 1 else 0)) |} in
  Z.land (scalar_alu_src_bits s) (Z.shiftl 1 6 - 1).

(** The 16-bit value the scalar form takes for an inline constant. *)
Definition scalar_inline_imm (inline_constant : Z) : Z :=
  let lower_11 := Z.land inline_constant (Z.shiftl 1 12 - 1) in
  let imm := 0 in
  let imm := ufield 16 (Z.lor imm (Z.land (Z.shiftr lower_11 9) 3)) in
  let imm := ufield 16 (Z.lor imm (Z.land (Z.shiftr lower_11 6) 4)) in
  let imm := ufield 16 (Z.lor imm (Z.land (Z.shiftr lower_11 2) 56)) in
  let imm := ufield 16 (Z.lor imm (Z.shiftl (Z.land lower_11 63) 6)) in
  imm.

Definition set_output_component (s : midgard_scalar_alu) (c : Z)
  : midgard_scalar_alu :=
  {| s_op := s_op s; s_src1 := s_src1 s; s_src2 := s_src2 s;
     s_unknown := s_unknown s; s_outmod := s_outmod s;
     s_output_full := s_output_full s; s_output_component := c |}.

Definition set_src2 (s : midgard_scalar_alu) (v : Z) : midgard_scalar_alu :=
  {| s_op := s_op s; s_src1 := s_src1 s; s_src2 := v;
     s_unknown := s_unknown s; s_outmod := s_outmod s;
     s_output_full := s_output_full s;
     s_output_component := s_output_component s |}.

Definition vector_to_scalar_alu (v : midgard_vector_alu)
  (ins : midgard_instruction) : option midgard_scalar_alu :=
  let is_full := nir_alu_type_get_type_size (ins_dest_type ins) =? 32 in
  let half_0 := nir_alu_type_get_type_size (src_type_at ins 0) =? 16 in
  let half_1 := nir_alu_type_get_type_size (src_type_at ins 1) =? 16 in
  comp <- component_from_mask (ins_mask ins) ;;
  mod_0 <- mir_pack_mod ins 0 true ;;
  mod_1 <- mir_pack_mod ins 1 true ;;
  let packed_src_0 :=
    mir_pack_scalar_source mod_0 (negb half_0) (swz (swizzle_row ins 0) comp) in
  let packed_src_1 :=
    mir_pack_scalar_source mod_1 (negb half_1) (swz (swizzle_row ins 1) comp) in
  (* The output component is from the mask *)
  let s := {| s_op := v_op v;
              s_src1 := ufield SCALAR_SRC1_BITS packed_src_0;
              s_src2 := ufield SCALAR_SRC2_BITS packed_src_1;
              s_unknown := 0;
              s_outmod := v_outmod v;
              s_output_full := is_full;
              s_output_component := ufield SCALAR_OUTPUT_COMPONENT_BITS comp |} in
  (* Full components are physically spaced out *)
  s <- (if is_full then
          assert (s_output_component s <? 4) ;;;
          Some (set_output_component s
                  (ufield SCALAR_OUTPUT_COMPONENT_BITS
                          (Z.shiftl (s_output_component s) 1)))
        else Some s) ;;
  (* Inline constant is passed along rather than trying to extract it
     from v *)
  if ins_has_inline_constant ins then
    Some (set_src2 s (ufield SCALAR_SRC2_BITS
                             (scalar_inline_imm (ins_inline_constant ins))))
  else
    Some s.

(** ** Swizzle packing *)

Definition mir_pack_swizzle_64_step (swizzle : list Z) (max_component : Z)
  (i : Z) (packed : Z) : option Z :=
  assert (swz swizzle i <=? max_component) ;;;
  let a := if any_set (swz swizzle i) 1
           then Z.lor (Z.shiftl COMPONENT_W 2) COMPONENT_Z
           else Z.lor (Z.shiftl COMPONENT_Y 2) COMPONENT_X in
  Some (Z.lor packed (Z.shiftl a (i * 4))).

Definition mir_pack_swizzle_64 (swizzle : list Z) (max_component : Z)
  : option Z :=
  packed <- mir_pack_swizzle_64_step swizzle max_component 0 0 ;;
  mir_pack_swizzle_64_step swizzle max_component 1 packed.

(** ffs(3): one plus the index of the least significant bit set, 0 if none. *)
Fixpoint ffs_loop (n : nat) (c : Z) (m : Z) : Z :=
  match n with
  | O => 0
  | S n' => if Z.testbit m c then c + 1 else ffs_loop n' (c + 1) m
  end.

Definition ffs (m : Z) : Z := ffs_loop 32 0 m.

(** The loop over the four components of the half the destination is in. *)
Fixpoint mir_pack_swizzle_loop (n : nat) (c : Z) (mask : Z) (swizzle : list Z)
  (upper : bool) (packed : Z) : option Z :=
  match n with
  | O => Some packed
  | S n' =>
      let v := swz swizzle c in
      let t_upper := v >? 3 in
      (* Ensure we're doing something sane *)
      (if bit_set mask c then
         assert (Bool.eqb t_upper upper) ;;; assert (v <=? 7)
       else Some tt) ;;;
      (* Use the non upper part *)
      let v := Z.land v 3 in
      mir_pack_swizzle_loop n' (c + 1) mask swizzle upper
        (Z.lor packed (Z.shiftl v (2 * (c mod 4))))
  end.

(** The result is the packed swizzle with the values left in [*rep_low] and
    [*rep_high]. *)
Definition mir_pack_swizzle (mask : Z) (swizzle : list Z) (T : Z)
  (reg_mode : midgard_reg_mode) (op_channeled : bool)
  (rep_low rep_high : bool) : option (Z * bool * bool) :=
  let sz := nir_alu_type_get_type_size T in
  if reg_mode_eqb reg_mode midgard_reg_mode_64 then
    assert ((sz =? 64) || (sz =? 32)) ;;;
    let components := if sz =? 32 then 4 else 2 in
    packed <- mir_pack_swizzle_64 swizzle components ;;
    if sz =? 32 then
      let lo := swz swizzle 0 >=? COMPONENT_Z in
      let hi := swz swizzle 1 >=? COMPONENT_Z in
      if any_set mask 1 then
        (* We can't mix halves... *)
        (if any_set mask 2 then assert (Bool.eqb lo hi) else Some tt) ;;;
        Some (packed, lo, rep_high)
      else
        Some (packed, hi, rep_high)
    else if sz <? 32 then
      unreachable
    else
      Some (packed, rep_low, rep_high)
  else
    let first := if mask =? 0 then 0 else ffs mask - 1 in
    let upper := swz swizzle first >? 3 in
    (if upper && negb (mask =? 0) then assert (sz <=? 16) else Some tt) ;;;
    let dest_up := negb op_channeled && (first >=? 4) in
    packed <- mir_pack_swizzle_loop 4 (if dest_up then 4 else 0)
                mask swizzle upper 0 ;;
    (* Replicate for now.. should really pick a side for dot products *)
    if reg_mode_eqb reg_mode midgard_reg_mode_16 && (sz =? 16) then
      Some (packed, negb upper, upper)
    else if reg_mode_eqb reg_mode midgard_reg_mode_16 && (sz =? 8) then
      Some (packed, upper, upper)
    else if reg_mode_eqb reg_mode midgard_reg_mode_32 then
      Some (packed, upper, rep_high)
    else
      unreachable.

(** ** Vector ALU words *)

Definition set_v_mask (alu : midgard_vector_alu) (override m : Z)
  : midgard_vector_alu :=
  {| v_op := v_op alu; v_reg_mode := v_reg_mode alu; v_src1 := v_src1 alu;
     v_src2 := v_src2 alu; v_dest_override := override;
     v_outmod := v_outmod alu; v_mask := m |}.

Definition set_v_src1 (alu : midgard_vector_alu) (p : Z) : midgard_vector_alu :=
  {| v_op := v_op alu; v_reg_mode := v_reg_mode alu; v_src1 := p;
     v_src2 := v_src2 alu; v_dest_override := v_dest_override alu;
     v_outmod := v_outmod alu; v_mask := v_mask alu |}.

Definition set_v_src2 (alu : midgard_vector_alu) (p : Z) : midgard_vector_alu :=
  {| v_op := v_op alu; v_reg_mode := v_reg_mode alu; v_src1 := v_src1 alu;
     v_src2 := p; v_dest_override := v_dest_override alu;
     v_outmod := v_outmod alu; v_mask := v_mask alu |}.

Definition mir_pack_mask_alu (ins : midgard_instruction)
  (alu : midgard_vector_alu) : midgard_vector_alu :=
  let effective := ins_mask ins in
  let inst_size := max_bitsize_for_alu ins in
  let upper_shift := mir_upper_override ins inst_size in
  let effective :=
    if upper_shift >=? 0 then Z.shiftr effective upper_shift else effective in
  let override :=
    if upper_shift >=? 0 then
      (if upper_shift =? 0 then midgard_dest_override_lower
       else midgard_dest_override_upper)
    else midgard_dest_override_none in
  let m := if inst_size =? 32 then expand_writemask effective 2
           else if inst_size =? 64 then expand_writemask effective 1
           else effective in
  set_v_mask alu (ufield 2 override) (ufield VECTOR_MASK_BITS m).

(** [~0] as an unsigned: the mark of an unused source or destination. *)
Definition NO_REG : Z := 4294967295.

Definition mir_pack_vector_srcs_step (ins : midgard_instruction) (i : nat)
  (alu : midgard_vector_alu) : option midgard_vector_alu :=
  let channeled := negb (alu_channel_count (ins_op ins) =? 0) in
  let base_size := max_bitsize_for_alu ins in
  if ins_has_inline_constant ins && Nat.eqb i 1 then Some alu
  else if src_at ins i =? NO_REG then Some alu
  else
    let sz := nir_alu_type_get_type_size (src_type_at ins i) in
    let half := sz =? Z.shiftr base_size 1 in
    assert ((sz =? base_size) || half) ;;;
    r <- mir_pack_swizzle (ins_mask ins) (swizzle_row ins i)
           (src_type_at ins i) (reg_mode_for_bitsize base_size)
           channeled false false ;;
    let '(swizzle, rep_lo, rep_hi) := r in
    mod_ <- mir_pack_mod ins i false ;;
    let pack := {| vs_mod := ufield 2 mod_;
                   vs_rep_low := rep_lo;
                   vs_rep_high := rep_hi;
                   vs_half := half;
                   vs_swizzle := ufield 8 swizzle |} in
    let p := vector_alu_srco_unsigned pack in
    if Nat.eqb i 0 then Some (set_v_src1 alu (ufield VECTOR_SRC_BITS p))
    else Some (set_v_src2 alu (ufield VECTOR_SRC_BITS p)).

Definition mir_pack_vector_srcs (ins : midgard_instruction)
  (alu : midgard_vector_alu) : option midgard_vector_alu :=
  alu <- mir_pack_vector_srcs_step ins 0 alu ;;
  mir_pack_vector_srcs_step ins 1 alu.

(** The 16-bit value the vector form takes for an inline constant. *)
Definition vector_inline_imm (inline_constant : Z) : Z :=
  let lower_11 := Z.land inline_constant (Z.shiftl 1 12 - 1) in
  ufield 16 (Z.lor (Z.land (Z.shiftr lower_11 8) 7)
                   (Z.shiftl (Z.land lower_11 255) 3)).

Definition vector_alu_from_instr (ins : midgard_instruction)
  : midgard_vector_alu :=
  let alu := {| v_op := ufield ALU_OP_BITS (ins_op ins);
                v_reg_mode := reg_mode_for_bitsize (max_bitsize_for_alu ins);
                v_src1 := 0;
                v_src2 := 0;
                v_dest_override := 0;
                v_outmod := ufield OUTMOD_BITS (ins_outmod ins);
                v_mask := 0 |} in
  if ins_has_inline_constant ins then
    (* Encode inline 16-bit constant. *)
    let imm := vector_inline_imm (ins_inline_constant ins) in
    set_v_src2 alu (ufield VECTOR_SRC_BITS (Z.shiftl imm 2))
  else alu.

(** The vector word emit_alu_bundle appends for an instruction of a vector
    unit: vector_alu_from_instr, mir_pack_mask_alu, mir_pack_vector_srcs. *)
Definition emit_vector_alu (ins : midgard_instruction)
  : option midgard_vector_alu :=
  let source := vector_alu_from_instr ins in
  let source := mir_pack_mask_alu ins source in
  mir_pack_vector_srcs ins source.

(** ** Out-of-order annotation of texture instructions

    A bundle pointer is an index into the bundles of its block. *)

Definition mir_can_run_ooo (block : midgard_block) (bundle : nat)
  (dependency : Z) : bool :=
  match nth_error (bundles block) bundle with
  | None => false (* Don't read out of bounds *)
  | Some b =>
      (* Texture ops can't execute with other texture ops *)
      if negb (IS_ALU (tag b)) && negb (tag b =? TAG_LOAD_STORE_4) then false
      (* Ensure there is no read-after-write dependency *)
      else if existsb (fun ins => existsb (fun s => s =? dependency)
                                          (ins_src ins))
                      (instructions b) then false
      else true
  end.

Fixpoint mir_pack_tex_ooo_loop (n : nat) (count : nat) (block : midgard_block)
  (bundle : nat) (dependency : Z) : nat :=
  match n with
  | O => count
  | S n' =>
      if negb (mir_can_run_ooo block (bundle + count + 1) dependency)
      then count
      else mir_pack_tex_ooo_loop n' (S count) block bundle dependency
  end.

Definition mir_pack_tex_ooo (block : midgard_block) (bundle : nat)
  (ins : midgard_instruction) : midgard_instruction :=
  let count := mir_pack_tex_ooo_loop 3 0 block bundle (ins_dest ins) in
  set_texture_out_of_order ins (Z.of_nat count).

(** ** Load/store masks *)

Fixpoint mir_pack_ldst_mask_loop (n : nat) (i : Z) (mask packed : Z)
  : option Z :=
  match n with
  | O => Some packed
  | S n' =>
      (* Make sure we're duplicated *)
      let u := bit_set mask (2 * i + 0) in
      let v := bit_set mask (2 * i + 1) in
      assert (Bool.eqb u v) ;;;
      mir_pack_ldst_mask_loop n' (i + 1) mask
        (Z.lor packed (Z.shiftl (Z.b2z u) i))
  end.

Definition mir_pack_ldst_mask (ins : midgard_instruction)
  : option midgard_instruction :=
  let sz := nir_alu_type_get_type_size (ins_dest_type ins) in
  let packed := ins_mask ins in
  packed <-
    (if sz =? 64 then
       Some (Z.lor (if any_set (ins_mask ins) 2 then Z.lor 8 4 else 0)
                   (if any_set (ins_mask ins) 1 then Z.lor 2 1 else 0))
     else if sz =? 16 then
       mir_pack_ldst_mask_loop 4 0 (ins_mask ins) 0
     else
       assert (sz =? 32) ;;; Some packed) ;;
  Some (set_load_store_mask ins (ufield LDST_MASK_BITS packed)).

(** ** Lowering of inverted sources *)

Definition mir_lower_inverts (ins : midgard_instruction)
  : midgard_instruction :=
  let inv0 := flag_at (ins_src_invert ins) 0 in
  let inv1 := flag_at (ins_src_invert ins) 1 in
  if ins_op ins =? midgard_alu_op_iand then
    (* a & ~b = iandnot(a, b);  ~a & ~b = ~(a | b) = inor(a, b) *)
    if inv0 && inv1 then set_op ins midgard_alu_op_inor
    else if inv1 then set_op ins midgard_alu_op_iandnot
    else ins
  else if ins_op ins =? midgard_alu_op_ior then
    (* a | ~b = iornot(a, b);  ~a | ~b = ~(a & b) = inand(a, b) *)
    if inv0 && inv1 then set_op ins midgard_alu_op_inand
    else if inv1 then set_op ins midgard_alu_op_iornot
    else ins
  else if ins_op ins =? midgard_alu_op_ixor then
    (* ~a ^ b = a ^ ~b = ~(a ^ b) = inxor(a, b);  ~a ^ ~b = a ^ b *)
    if xorb inv0 inv1 then set_op ins midgard_alu_op_inxor
    else ins
  else ins.

(** ** Branches *)

Definition midgard_create_branch_extended (cond op dest_tag : Z)
  (quadword_offset : Z) : midgard_branch_extended :=
  let duplicated_cond :=
    ufield 16
      (Z.lor (Z.shiftl cond 14)
      (Z.lor (Z.shiftl cond 12)
      (Z.lor (Z.shiftl cond 10)
      (Z.lor (Z.shiftl cond 8)
      (Z.lor (Z.shiftl cond 6)
      (Z.lor (Z.shiftl cond 4)
      (Z.lor (Z.shiftl cond 2)
             (Z.shiftl cond 0)))))))) in
  {| be_op := ufield BRANCH_OP_BITS op;
     be_dest_tag := ufield BRANCH_TAG_BITS dest_tag;
     be_offset := sfield BRANCH_EXTENDED_OFFSET_BITS quadword_offset;
     be_cond := ufield 16 duplicated_cond |}.

(** Jump forward: the blocks from [idx] up to the target, excluded. *)
Fixpoint jump_forward (ctx : compiler_context) (n : nat) (idx : Z)
  (quadword_offset : Z) : option Z :=
  match n with
  | O => Some quadword_offset
  | S n' =>
      blk <- mir_get_block ctx idx ;;
      jump_forward ctx n' (idx + 1)
        (sfield 32 (quadword_offset + quadword_count blk))
  end.

(** Jump backwards: the blocks from [idx] down to the target, included. *)
Fixpoint jump_backwards (ctx : compiler_context) (n : nat) (idx : Z)
  (quadword_offset : Z) : option Z :=
  match n with
  | O => Some quadword_offset
  | S n' =>
      blk <- mir_get_block ctx idx ;;
      jump_backwards ctx n' (idx - 1)
        (sfield 32 (quadword_offset - quadword_count blk))
  end.

(** The [quadword_offset] emit_branch computes: the number of quadwords
    jumped over.  [target_number] is an int and [block->base.name] an
    unsigned: the comparison is made on unsigned values, so that a negative
    target counts as a jump forward (over nothing); the indices of the two
    loops are ints. *)
Definition branch_quadword_offset (ctx : compiler_context)
  (ins : midgard_instruction) (block : midgard_block) : option Z :=
  let is_discard := target_type (ins_branch ins) =? TARGET_DISCARD in
  let is_tilebuf_wait :=
    target_type (ins_branch ins) =? TARGET_TILEBUF_WAIT in
  let target_number := target_block (ins_branch ins) in
  if is_discard then
    (* Fixed encoding, not actually an offset *)
    Some 2
  else if is_tilebuf_wait then
    Some (-1)
  else if ufield 32 target_number >? name block then
    let idx := sfield 32 (name block + 1) in
    jump_forward ctx (Z.to_nat (target_number - idx)) idx 0
  else
    let idx := sfield 32 (name block) in
    jump_backwards ctx (Z.to_nat (idx - target_number + 1)) idx 0.

(** The condition emit_branch selects. *)
Definition branch_condition (ins : midgard_instruction) : Z :=
  if negb (conditional (ins_branch ins)) then midgard_condition_always
  else if invert_conditional (ins_branch ins) then midgard_condition_false
  else midgard_condition_true.

Definition emit_branch (ins : midgard_instruction) (ctx : compiler_context)
  (block : midgard_block) (bundle : midgard_bundle) : option branch_word :=
  (* Parse some basic branch info *)
  let is_compact := ins_unit ins =? ALU_ENAB_BR_COMPACT in
  let is_conditional := conditional (ins_branch ins) in
  let is_discard := target_type (ins_branch ins) =? TARGET_DISCARD in
  let is_tilebuf_wait :=
    target_type (ins_branch ins) =? TARGET_TILEBUF_WAIT in
  let is_special := is_discard || is_tilebuf_wait in
  let is_writeout := ins_writeout ins in
  (* Determine the block we're jumping to *)
  let target_number := target_block (ins_branch ins) in
  (* Report the destination tag *)
  let dest_tag :=
    if is_discard then 0
    else if is_tilebuf_wait then tag bundle
    else midgard_get_first_tag_from_block ctx target_number in
  quadword_offset <- branch_quadword_offset ctx ins block ;;
  let cond := branch_condition ins in
  let op :=
    if is_discard then midgard_jmp_writeout_op_discard
    else if is_tilebuf_wait then midgard_jmp_writeout_op_tilebuffer_pending
    else if is_writeout then midgard_jmp_writeout_op_writeout
    else if is_compact && negb is_conditional
         then midgard_jmp_writeout_op_branch_uncond
    else midgard_jmp_writeout_op_branch_cond in
  if is_compact then
    if is_conditional || is_special then
      Some (BranchCond
              {| bc_op := ufield BRANCH_OP_BITS op;
                 bc_dest_tag := ufield BRANCH_TAG_BITS dest_tag;
                 bc_offset := sfield BRANCH_COMPACT_OFFSET_BITS quadword_offset;
                 bc_cond := ufield BRANCH_COND_BITS cond |})
    else
      assert (op =? midgard_jmp_writeout_op_branch_uncond) ;;;
      let branch :=
        {| bu_op := ufield BRANCH_OP_BITS op;
           bu_dest_tag := ufield BRANCH_TAG_BITS dest_tag;
           bu_offset := sfield BRANCH_COMPACT_OFFSET_BITS quadword_offset;
           bu_unknown := 1 |} in
      assert (bu_offset branch =? quadword_offset) ;;;
      Some (BranchUncond branch)
  else
    Some (BranchExtended
            (midgard_create_branch_extended cond op dest_tag quadword_offset)).

End Emitter.

(** ** The rest of the emitter: load/store and texture swizzles, the
    offset of a load/store, rounding modes, ALU bundles

    The fields of the load/store word, of the register word and of the
    bundle that these functions use come on top of the records above. *)

(** More helpers and constants of compiler.h, midgard.h and midgard_ops.h. *)
Class BundleExternals : Type := {
  REGISTER_UNUSED : Z;
  SSA_REG_FROM_FIXED : Z -> Z;
  midgard_is_branch_unit : Z -> bool;
  UNITS_ANY_VECTOR : Z;
  (* alu_opcode_props[op].props & MIDGARD_ROUNDS *)
  alu_op_rounds : Z -> bool;
  OP_IS_UBO_READ : Z -> bool
}.

(** The fields of midgard_load_store_word the emitter folds the swizzle and
    the constant offset into: swizzle has 8 bits, varying_parameters 10 and
    address 9 (op 8, reg 5, mask 4, arg_1 8 and arg_2 8 make up the 60 bits
    of the word). *)
Record midgard_load_store_word : Type := {
  ls_swizzle : Z;
  ls_varying_parameters : Z;
  ls_address : Z
}.

(** midgard_reg_info, 16 bits: src1_reg 5, src2_reg 5, out_reg 5,
    src2_imm 1. *)
Record midgard_reg_info : Type := {
  src1_reg : Z;
  src2_reg : Z;
  src2_imm : bool;
  out_reg : Z
}.

Definition REG_BITS : Z := 5.

(** An instruction of an ALU bundle with its rounding mode, and the bundle
    with its control word, padding and embedded constants (kept as one
    opaque value). *)
Record alu_instruction : Type := {
  alu_ins : midgard_instruction;
  alu_roundmode : Z
}.

Record alu_bundle : Type := {
  ab_tag : Z;
  ab_control : Z;
  ab_instructions : list alu_instruction;
  ab_padding : Z;
  ab_has_embedded_constants : bool;
  ab_constants : Z
}.

Definition bundle_of (b : alu_bundle) : midgard_bundle :=
  {| tag := ab_tag b; instructions := map alu_ins (ab_instructions b) |}.

(** What is appended to the emission, item by item. *)
Inductive emitted : Type :=
| EControl (w : Z)                     (* uint32_t *)
| ERegisters (r : midgard_reg_info)    (* uint16_t *)
| EBranch (b : branch_word)
| EVector (v : midgard_vector_alu)
| EScalar (s : midgard_scalar_alu)
| EPadding (bytes : Z)                 (* zero bytes *)
| EConstants (c : Z).

Section EmitterBundles.

Context {E : Externals} {B : BundleExternals}.

(** The loop of mir_pack_swizzle_ldst and the inner loop of
    mir_pack_swizzle_tex: four components of two bits each, each checked
    to be one of a vec4.  (For the load/store word the result is cut to
    the 8 bits of the field once, after the loop: or-ing and cutting
    commute.) *)
Fixpoint pack_vec4_loop (n : nat) (c : Z) (row : list Z) (packed : Z)
  : option Z :=
  match n with
  | O => Some packed
  | S n' =>
      let v := swz row c in
      (* Check vec4 *)
      assert (v <=? 3) ;;;
      pack_vec4_loop n' (c + 1) row (Z.lor packed (Z.shiftl v (2 * c)))
  end.

Definition mir_pack_swizzle_ldst (ins : midgard_instruction)
  (w : midgard_load_store_word) : option midgard_load_store_word :=
  packed <- pack_vec4_loop 4 0 (swizzle_row ins 0) (ls_swizzle w) ;;
  Some {| ls_swizzle := ufield 8 packed;
          ls_varying_parameters := ls_varying_parameters w;
          ls_address := ls_address w |}.

(** The pair of texture.swizzle and texture.in_reg_swizzle. *)
Definition mir_pack_swizzle_tex (ins : midgard_instruction) : option (Z * Z) :=
  packed_0 <- pack_vec4_loop 4 0 (swizzle_row ins 0) 0 ;;
  packed_1 <- pack_vec4_loop 4 0 (swizzle_row ins 1) 0 ;;
  Some (ufield 8 packed_0, ufield 8 packed_1).

Definition mir_ldst_imm_shift (op : Z) : Z :=
  if OP_IS_UBO_READ op then 3 else 1.

(** "Apply a constant offset", in the load/store case of
    emit_binary_bundle: [offset] is [constants.u32[0]] of the
    instruction. *)
Definition ldst_apply_offset (ins : midgard_instruction) (offset : Z)
  (w : midgard_load_store_word) : midgard_load_store_word :=
  if negb (offset =? 0) then
    let shift := mir_ldst_imm_shift (ins_op ins) in
    let upper_shift := 10 - shift in
    {| ls_swizzle := ls_swizzle w;
       ls_varying_parameters :=
         ufield 10
           (Z.lor (ls_varying_parameters w)
              (Z.shiftl (Z.land offset (Z.shiftl 1 upper_shift - 1)) shift));
       ls_address :=
         ufield 9 (Z.lor (ls_address w) (Z.shiftr offset upper_shift)) |}
  else w.

(** Opcodes with ROUNDS are the base (rte/0) type so we can just add *)
Definition mir_lower_roundmode (i : alu_instruction) : option alu_instruction :=
  let ins := alu_ins i in
  if alu_op_rounds (ins_op ins) then
    assert (alu_roundmode i <=? 3) ;;;
    Some {| alu_ins := set_op ins (ins_op ins + alu_roundmode i);
            alu_roundmode := alu_roundmode i |}
  else Some i.

(** The register word emit_alu_bundle emits for an instruction. *)
Definition alu_reg_info (ins : midgard_instruction) : midgard_reg_info :=
  let src2_reg :=
    if ins_has_inline_constant ins then Z.shiftr (ins_inline_constant ins) 11
    else if negb (src_at ins 1 =? NO_REG) then SSA_REG_FROM_FIXED (src_at ins 1)
    else REGISTER_UNUSED in
  {| src1_reg := ufield REG_BITS
                   (if src_at ins 0 =? NO_REG then REGISTER_UNUSED
                    else SSA_REG_FROM_FIXED (src_at ins 0));
     src2_reg := ufield REG_BITS src2_reg;
     src2_imm := ins_has_inline_constant ins;
     out_reg := ufield REG_BITS
                  (if ins_dest ins =? NO_REG then REGISTER_UNUSED
                   else SSA_REG_FROM_FIXED (ins_dest ins)) |}.

(** Next up, emit register words: one for each instruction that is not a
    compact branch. *)
Fixpoint emit_alu_registers (l : list alu_instruction) (emission : list emitted)
  : list emitted :=
  match l with
  | [] => emission
  | i :: l' =>
      if ins_compact_branch (alu_ins i) then emit_alu_registers l' emission
      else emit_alu_registers l'
             (emission ++ [ERegisters (alu_reg_info (alu_ins i))])
  end.

(** The body of one instruction: its opcode is lowered in place, then the
    instruction goes out as a branch, a vector word or a scalar word. *)
Definition emit_alu_body (ctx : compiler_context) (block : midgard_block)
  (bundle : midgard_bundle) (i : alu_instruction)
  : option (alu_instruction * emitted) :=
  i <- (if negb (ins_compact_branch (alu_ins i)) then
          mir_lower_roundmode
            {| alu_ins := mir_lower_inverts (alu_ins i);
               alu_roundmode := alu_roundmode i |}
        else Some i) ;;
  let ins := alu_ins i in
  if midgard_is_branch_unit (ins_unit ins) then
    w <- emit_branch ins ctx block bundle ;;
    Some (i, EBranch w)
  else if any_set (ins_unit ins) UNITS_ANY_VECTOR then
    source <- emit_vector_alu ins ;;
    Some (i, EVector source)
  else
    source <- vector_to_scalar_alu (vector_alu_from_instr ins) ins ;;
    Some (i, EScalar source).

(** Now, we emit the body itself.  The result is the instructions as the
    loop leaves them and the emission. *)
Fixpoint emit_alu_bodies (ctx : compiler_context) (block : midgard_block)
  (bundle : midgard_bundle) (l : list alu_instruction)
  (emission : list emitted) : option (list alu_instruction * list emitted) :=
  match l with
  | [] => Some ([], emission)
  | i :: l' =>
      r <- emit_alu_body ctx block bundle i ;;
      rest <- emit_alu_bodies ctx block bundle l' (emission ++ [snd r]) ;;
      Some (fst r :: fst rest, snd rest)
  end.

Definition emit_alu_bundle (ctx : compiler_context) (block : midgard_block)
  (bundle : alu_bundle) (emission : list emitted) (lookahead : Z)
  : option (alu_bundle * list emitted) :=
  (* Emit the control word *)
  let emission :=
    emission ++ [EControl (ufield 32 (Z.lor (ab_control bundle) lookahead))] in
  let emission := emit_alu_registers (ab_instructions bundle) emission in
  r <- emit_alu_bodies ctx block (bundle_of bundle) (ab_instructions bundle)
         emission ;;
  (* Emit padding (all zero) *)
  let emission := snd r ++ [EPadding (ab_padding bundle)] in
  (* Tack on constants *)
  let emission :=
    if ab_has_embedded_constants bundle
    then emission ++ [EConstants (ab_constants bundle)] else emission in
  Some ({| ab_tag := ab_tag bundle; ab_control := ab_control bundle;
           ab_instructions := fst r; ab_padding := ab_padding bundle;
           ab_has_embedded_constants := ab_has_embedded_constants bundle;
           ab_constants := ab_constants bundle |},
        emission).

End EmitterBundles.


(** ** An implementation of the helpers

    The emitter is run on examples over the following implementation of
    [Externals].  The constants are numbered as in the Mesa 20.3 headers;
    the helpers are in a simple form that suffices for the examples:
    midgard_is_integer_op by the range of the opcode, max_bitsize_for_alu
    as the widest of the destination and the sources in use,
    mir_upper_override without upper halves, mir_get_block by position. *)

Definition sample_expand_writemask (mask log2_channels : Z) : Z :=
  let factor := Z.shiftr 8 log2_channels in
  let expanded := Z.shiftl 1 factor - 1 in
  fold_left
    (fun o i => if bit_set mask i
                then Z.lor o (Z.shiftl expanded (factor * i)) else o)
    (map Z.of_nat (seq 0 (Z.to_nat (Z.shiftl 1 log2_channels)))) 0.

Definition sample_type_size (T : Z) : Z := Z.land T 121.

Definition sample_max_bitsize (ins : midgard_instruction) : Z :=
  fold_left Z.max
    (map (fun st => if fst st =? NO_REG then 0 else sample_type_size (snd st))
         (combine (ins_src ins) (ins_src_types ins)))
    (sample_type_size (ins_dest_type ins)).

Definition sample_get_block (ctx : compiler_context) (idx : Z)
  : option midgard_block :=
  if idx <? 0 then None else nth_error (blocks ctx) (Z.to_nat idx).

Definition sample_first_tag (ctx : compiler_context) (idx : Z) : Z :=
  match sample_get_block ctx idx with
  | Some b => match bundles b with
              | bu :: _ => tag bu
              | [] => 1
              end
  | None => 1
  end.

Definition mesa_externals : Externals :=
  {| nir_alu_type_get_type_size := sample_type_size;
     nir_alu_type_get_base_type := fun T => Z.land T 134;
     nir_type_int := 2;
     midgard_is_integer_op :=
       fun o => let h := Z.land (Z.shiftr o 4) 15 in (4 <=? h) && (h <=? 7);
     max_bitsize_for_alu := sample_max_bitsize;
     mir_upper_override :=
       fun ins inst_size =>
         if sample_type_size (ins_dest_type ins) =? inst_size then -1 else 0;
     expand_writemask := sample_expand_writemask;
     reg_mode_for_bitsize :=
       fun b => if b =? 64 then midgard_reg_mode_64
                else if b =? 32 then midgard_reg_mode_32
                else midgard_reg_mode_16;
     alu_channel_count := fun _ => 0;
     vector_alu_srco_unsigned :=
       fun s => Z.lor (vs_mod s)
               (Z.lor (Z.shiftl (Z.b2z (vs_rep_low s)) 2)
               (Z.lor (Z.shiftl (Z.b2z (vs_rep_high s)) 3)
               (Z.lor (Z.shiftl (Z.b2z (vs_half s)) 4)
                      (Z.shiftl (vs_swizzle s) 5))));
     midgard_dest_override_lower := 0;
     midgard_dest_override_upper := 1;
     midgard_dest_override_none := 2;
     IS_ALU := fun t => t >=? 8;
     TAG_LOAD_STORE_4 := 5;
     midgard_alu_op_iand := 112;
     midgard_alu_op_ior := 113;
     midgard_alu_op_inand := 114;
     midgard_alu_op_inor := 115;
     midgard_alu_op_iandnot := 116;
     midgard_alu_op_iornot := 117;
     midgard_alu_op_ixor := 118;
     midgard_alu_op_inxor := 119;
     ALU_ENAB_BR_COMPACT := Z.shiftl 1 26;
     TARGET_DISCARD := 3;
     TARGET_TILEBUF_WAIT := 4;
     midgard_jmp_writeout_op_branch_uncond := 1;
     midgard_jmp_writeout_op_branch_cond := 2;
     midgard_jmp_writeout_op_discard := 4;
     midgard_jmp_writeout_op_tilebuffer_pending := 6;
     midgard_jmp_writeout_op_writeout := 7;
     mir_get_block := sample_get_block;
     midgard_get_first_tag_from_block := sample_first_tag |}.

(** nir_type_int32, nir_type_uint32, nir_type_uint16, nir_type_uint64 *)
Definition nir_type_int32 : Z := 34.
Definition nir_type_uint32 : Z := 36.
Definition nir_type_uint16 : Z := 20.
Definition nir_type_uint64 : Z := 68.

Definition no_branch : midgard_branch :=
  {| conditional := false; invert_conditional := false;
     target_type := 0; target_block := 0 |}.

(** [iand r2.x, r0.x, r1.x] on 32-bit integers, nothing inverted. *)
Definition sample_iand : midgard_instruction :=
  {| ins_op := 112;
     ins_src := [0; 1; NO_REG; NO_REG];
     ins_src_types := [nir_type_uint32; nir_type_uint32; 0; 0];
     ins_dest := 2;
     ins_dest_type := nir_type_uint32;
     ins_swizzle := [[0; 1; 2; 3]; [0; 1; 2; 3]; [0; 1; 2; 3]; [0; 1; 2; 3]];
     ins_mask := 1;
     ins_src_abs := [false; false; false; false];
     ins_src_neg := [false; false; false; false];
     ins_src_invert := [false; false; false; false];
     ins_src_shift := [false; false; false; false];
     ins_has_inline_constant := false;
     ins_inline_constant := 0;
     ins_outmod := 0;
     ins_unit := Z.shiftl 1 19;
     ins_writeout := false;
     ins_compact_branch := false;
     ins_branch := no_branch;
     ins_load_store_mask := 0;
     ins_texture_out_of_order := 0 |}.

Definition with_inline_constant (ins : midgard_instruction) (c : Z)
  : midgard_instruction :=
  {| ins_op := ins_op ins;
     ins_src := [nth 0 (ins_src ins) 0; NO_REG; NO_REG; NO_REG];
     ins_src_types := ins_src_types ins;
     ins_dest := ins_dest ins; ins_dest_type := ins_dest_type ins;
     ins_swizzle := ins_swizzle ins; ins_mask := ins_mask ins;
     ins_src_abs := ins_src_abs ins; ins_src_neg := ins_src_neg ins;
     ins_src_invert := ins_src_invert ins; ins_src_shift := ins_src_shift ins;
     ins_has_inline_constant := true;
     ins_inline_constant := c;
     ins_outmod := ins_outmod ins; ins_unit := ins_unit ins;
     ins_writeout := ins_writeout ins;
     ins_compact_branch := ins_compact_branch ins;
     ins_branch := ins_branch ins;
     ins_load_store_mask := ins_load_store_mask ins;
     ins_texture_out_of_order := ins_texture_out_of_order ins |}.

Definition with_mask_types (ins : midgard_instruction) (m T : Z)
  : midgard_instruction :=
  {| ins_op := ins_op ins; ins_src := ins_src ins;
     ins_src_types := [T; T; 0; 0];
     ins_dest := ins_dest ins; ins_dest_type := T;
     ins_swizzle := ins_swizzle ins; ins_mask := m;
     ins_src_abs := ins_src_abs ins; ins_src_neg := ins_src_neg ins;
     ins_src_invert := ins_src_invert ins; ins_src_shift := ins_src_shift ins;
     ins_has_inline_constant := ins_has_inline_constant ins;
     ins_inline_constant := ins_inline_constant ins;
     ins_outmod := ins_outmod ins; ins_unit := ins_unit ins;
     ins_writeout := ins_writeout ins;
     ins_compact_branch := ins_compact_branch ins;
     ins_branch := ins_branch ins;
     ins_load_store_mask := ins_load_store_mask ins;
     ins_texture_out_of_order := ins_texture_out_of_order ins |}.

Definition with_inverts (ins : midgard_instruction) (o : Z) (inv0 inv1 : bool)
  : midgard_instruction :=
  {| ins_op := o; ins_src := ins_src ins;
     ins_src_types := ins_src_types ins;
     ins_dest := ins_dest ins; ins_dest_type := ins_dest_type ins;
     ins_swizzle := ins_swizzle ins; ins_mask := ins_mask ins;
     ins_src_abs := ins_src_abs ins; ins_src_neg := ins_src_neg ins;
     ins_src_invert := [inv0; inv1; false; false];
     ins_src_shift := ins_src_shift ins;
     ins_has_inline_constant := ins_has_inline_constant ins;
     ins_inline_constant := ins_inline_constant ins;
     ins_outmod := ins_outmod ins; ins_unit := ins_unit ins;
     ins_writeout := ins_writeout ins;
     ins_compact_branch := ins_compact_branch ins;
     ins_branch := ins_branch ins;
     ins_load_store_mask := ins_load_store_mask ins;
     ins_texture_out_of_order := ins_texture_out_of_order ins |}.

Definition with_branch (ins : midgard_instruction) (u : Z) (b : midgard_branch)
  : midgard_instruction :=
  {| ins_op := ins_op ins; ins_src := ins_src ins;
     ins_src_types := ins_src_types ins;
     ins_dest := ins_dest ins; ins_dest_type := ins_dest_type ins;
     ins_swizzle := ins_swizzle ins; ins_mask := ins_mask ins;
     ins_src_abs := ins_src_abs ins; ins_src_neg := ins_src_neg ins;
     ins_src_invert := ins_src_invert ins;
     ins_src_shift := ins_src_shift ins;
     ins_has_inline_constant := ins_has_inline_constant ins;
     ins_inline_constant := ins_inline_constant ins;
     ins_outmod := ins_outmod ins; ins_unit := u;
     ins_writeout := ins_writeout ins;
     ins_compact_branch := true;
     ins_branch := b;
     ins_load_store_mask := ins_load_store_mask ins;
     ins_texture_out_of_order := ins_texture_out_of_order ins |}.

Definition with_regs (ins : midgard_instruction) (srcs : list Z) (d : Z)
  : midgard_instruction :=
  {| ins_op := ins_op ins; ins_src := srcs;
     ins_src_types := ins_src_types ins;
     ins_dest := d; ins_dest_type := ins_dest_type ins;
     ins_swizzle := ins_swizzle ins; ins_mask := ins_mask ins;
     ins_src_abs := ins_src_abs ins; ins_src_neg := ins_src_neg ins;
     ins_src_invert := ins_src_invert ins;
     ins_src_shift := ins_src_shift ins;
     ins_has_inline_constant := ins_has_inline_constant ins;
     ins_inline_constant := ins_inline_constant ins;
     ins_outmod := ins_outmod ins; ins_unit := ins_unit ins;
     ins_writeout := ins_writeout ins;
     ins_compact_branch := ins_compact_branch ins;
     ins_branch := ins_branch ins;
     ins_load_store_mask := ins_load_store_mask ins;
     ins_texture_out_of_order := ins_texture_out_of_order ins |}.

Definition with_swizzle (ins : midgard_instruction) (sw : list (list Z))
  : midgard_instruction :=
  {| ins_op := ins_op ins; ins_src := ins_src ins;
     ins_src_types := ins_src_types ins;
     ins_dest := ins_dest ins; ins_dest_type := ins_dest_type ins;
     ins_swizzle := sw; ins_mask := ins_mask ins;
     ins_src_abs := ins_src_abs ins; ins_src_neg := ins_src_neg ins;
     ins_src_invert := ins_src_invert ins;
     ins_src_shift := ins_src_shift ins;
     ins_has_inline_constant := ins_has_inline_constant ins;
     ins_inline_constant := ins_inline_constant ins;
     ins_outmod := ins_outmod ins; ins_unit := ins_unit ins;
     ins_writeout := ins_writeout ins;
     ins_compact_branch := ins_compact_branch ins;
     ins_branch := ins_branch ins;
     ins_load_store_mask := ins_load_store_mask ins;
     ins_texture_out_of_order := ins_texture_out_of_order ins |}.

(** A goto to block [t], conditional or not. *)
Definition goto (cond inv : bool) (t : Z) : midgard_branch :=
  {| conditional := cond; invert_conditional := inv;
     target_type := 0; target_block := t |}.

(** Three blocks of 1, 2 and 3 quadwords.  The first holds a texture
    bundle (tag 3) writing r2, then an ALU bundle (tag 8) that reads r0 and
    r1, then an ALU bundle that reads r2, then a load/store bundle. *)
Definition sample_tex : midgard_instruction :=
  with_regs sample_iand [NO_REG; 0; NO_REG; NO_REG] 2.

Definition sample_reader : midgard_instruction :=
  with_regs sample_iand [2; 1; NO_REG; NO_REG] 3.

Definition sample_block_0 : midgard_block :=
  {| name := 0;
     bundles := [ {| tag := 3; instructions := [sample_tex] |};
                  {| tag := 8; instructions := [sample_iand] |};
                  {| tag := 8; instructions := [sample_reader] |};
                  {| tag := 5; instructions := [sample_iand] |} ];
     quadword_count := 1 |}.

Definition sample_block_1 : midgard_block :=
  {| name := 1;
     bundles := [ {| tag := 8; instructions := [sample_iand] |} ];
     quadword_count := 2 |}.

Definition sample_block_2 : midgard_block :=
  {| name := 2;
     bundles := [ {| tag := 8; instructions := [sample_iand] |} ];
     quadword_count := 3 |}.

Definition sample_ctx : compiler_context :=
  {| blocks := [sample_block_0; sample_block_1; sample_block_2];
     quirks := 0 |}.

Definition sample_blk (i : Z) : midgard_block :=
  nth (Z.to_nat i) (blocks sample_ctx) sample_block_0.

(** ALU_ENAB_BRANCH, the unit of a branch in the extended form. *)
Definition sample_branch_unit : Z := Z.shiftl 1 27.


(** An implementation of [BundleExternals] for the examples: the register
    numbering of compiler.h, the branch units, the vector units, and
    stand-ins for the two opcode tables (rounding variants for the opcodes
    0x10 to 0x13 only, one opcode reading a UBO). *)
Definition mesa_bundle_externals : BundleExternals :=
  {| REGISTER_UNUSED := 24;
     SSA_REG_FROM_FIXED := fun r => Z.shiftr (Z.land r 4294967294) 24 - 1;
     midgard_is_branch_unit :=
       fun u => (u =? Z.shiftl 1 27) || (u =? Z.shiftl 1 26);
     UNITS_ANY_VECTOR :=
       Z.lor (Z.shiftl 1 17) (Z.lor (Z.shiftl 1 21) (Z.shiftl 1 25));
     alu_op_rounds := fun o => (16 <=? o) && (o <=? 19);
     OP_IS_UBO_READ := fun o => o =? 176 |}.

(** r1 and r2 as fixed registers: SSA_FIXED_REGISTER(1) and (2). *)
Definition fixed_r1 : Z := 33554433.
Definition fixed_r2 : Z := 50331649.

(** A scalar [iand] of r1 with the inline constant 0xABCD. *)
Definition sample_scalar_imm : midgard_instruction :=
  with_regs (with_inline_constant sample_iand 43981)
    [fixed_r1; NO_REG; NO_REG; NO_REG] fixed_r2.

(** A discard, and a compact unit for branches. *)
Definition discard_branch : midgard_branch :=
  {| conditional := false; invert_conditional := false;
     target_type := 3; target_block := 0 |}.

Definition sample_compact_unit : Z := Z.shiftl 1 26.

(** An ALU bundle of the scalar instruction and an extended branch to
    block 2, with 2 bytes of padding and no constants. *)
Definition sample_alu_bundle : alu_bundle :=
  {| ab_tag := 8;
     ab_control := 0;
     ab_instructions :=
       [ {| alu_ins := sample_scalar_imm; alu_roundmode := 0 |};
         {| alu_ins := with_branch sample_iand sample_branch_unit
                         (goto true false 2);
            alu_roundmode := 0 |} ];
     ab_padding := 2;
     ab_has_embedded_constants := false;
     ab_constants := 0 |}.

(** An ALU bundle whose only instruction, scalar, writes no lane. *)
Definition sample_bad_bundle : alu_bundle :=
  {| ab_tag := 8;
     ab_control := 0;
     ab_instructions :=
       [ {| alu_ins := with_mask_types sample_iand 0 nir_type_uint32;
            alu_roundmode := 0 |} ];
     ab_padding := 0;
     ab_has_embedded_constants := false;
     ab_constants := 0 |}.

(** A context without blocks. *)
Definition empty_ctx : compiler_context := {| blocks := []; quirks := 0 |}.

Definition empty_ldst : midgard_load_store_word :=
  {| ls_swizzle := 0; ls_varying_parameters := 0; ls_address := 0 |}.


(** ** Vocabulary of the properties *)

(** The component field of a packed scalar source (bits 3 to 5). *)
Definition scalar_src_component (p : Z) : Z := Z.land (Z.shiftr p 3) 7.

(** The longest prefix of [l] whose elements all pass [f]. *)
Fixpoint take_while {A : Type} (f : A -> bool) (l : list A) : list A :=
  match l with
  | [] => []
  | a :: l' => if f a then a :: take_while f l' else []
  end.

(** The sum of [q lo], ..., [q (lo + n - 1)]. *)
Fixpoint sum_from (q : Z -> Z) (lo : Z) (n : nat) : Z :=
  match n with
  | O => 0
  | S n' => q lo + sum_from q (lo + 1) n'
  end.

(** The two-bit slot [k] of a condition LUT. *)
Definition cond_slot (lut k : Z) : Z := Z.land (Z.shiftr lut (2 * k)) 3.

(** The second operand of the scalar word for an inline constant of low 12
    bits [c], in the words of the specification. *)
Definition scalar_imm_as_specified (c : Z) : Z :=
  Z.lor (Z.land (Z.shiftr c 9) 3)
    (Z.lor (Z.land (Z.shiftr c 6) 4)
      (Z.lor (Z.land (Z.shiftr c 2) 56) (Z.shiftl (Z.land c 63) 6))).

(** The modifier of an integer operand, in the words of the specification:
    shift requested, shift; not a half-width read, plain; otherwise sign or
    zero extension by the signedness of the source. *)
Definition int_mod_as_specified (shift half signed_int : bool) : Z :=
  if shift then midgard_int_shift
  else if negb half then midgard_int_normal
  else if signed_int then midgard_int_sign_extend
  else midgard_int_zero_extend.


(** Reading an inline constant back.  From the src2 field of a scalar word:
    bits 0 to 1 are bits 9 to 10 of the constant, bit 2 is bit 8, bits 3 to
    5 are bits 5 to 7, bits 6 to 10 are bits 0 to 4. *)
Definition scalar_imm_low11 (f : Z) : Z :=
  Z.lor (Z.shiftl (Z.land f 3) 9)
    (Z.lor (Z.shiftl (Z.land f 4) 6)
      (Z.lor (Z.shiftl (Z.land f 56) 2) (Z.shiftr f 6))).

(** From the src2 field of a vector word: above its two low bits, bits 0 to
    2 are bits 8 to 10 of the constant and bits 3 to 10 are bits 0 to 7. *)
Definition vector_imm_low11 (f : Z) : Z :=
  let imm := Z.shiftr f 2 in
  Z.lor (Z.shiftl (Z.land imm 7) 8) (Z.shiftr imm 3).

(** The two-bit slot [k] of a packed swizzle. *)
Definition swizzle_slot (packed k : Z) : Z := Z.land (Z.shiftr packed (2 * k)) 3.

(** The items of an emission that are register words, and those that are
    instruction bodies. *)
Definition is_registers (e : emitted) : bool :=
  match e with ERegisters _ => true | _ => false end.



(** The nibble of a 64-bit swizzle for a component: zw for an odd one, xy
    for an even one. *)
Definition swizzle_64_nibble (s : Z) : Z := if Z.odd s then 14 else 4.

(** What mir_pack_swizzle asks of lane [c] below 64-bit mode: if it is
    active, its component is in the half [upper] and is 7 at most. *)
Definition lane_ok (mask : Z) (swizzle : list Z) (upper : bool) (c : Z) : bool :=
  negb (bit_set mask c)
  || (Bool.eqb (swz swizzle c >? 3) upper && (swz swizzle c <=? 7)).

(** The first lane mir_pack_swizzle looks at, and the lane its loop starts
    from: 4 when the operation is not channeled and the first lane is in
    the upper half of the destination, 0 otherwise. *)
Definition swizzle_first (mask : Z) : Z :=
  if mask =? 0 then 0 else ffs mask - 1.

Definition swizzle_base (mask : Z) (op_channeled : bool) : Z :=
  if negb op_channeled && (swizzle_first mask >=? 4) then 4 else 0.


Section Vocabulary.

Context {E : Externals}.

(** A bundle that may run out of order with a texture instruction writing
    [dest]: its tag is of the ALU class or the load/store one, and none of
    its instructions has [dest] among its sources. *)
Definition ooo_candidate (b : midgard_bundle) (dest : Z) : bool :=
  (IS_ALU (tag b) || (tag b =? TAG_LOAD_STORE_4))
  && forallb (fun ins => forallb (fun s => negb (s =? dest)) (ins_src ins))
             (instructions b).

(** A branch to a block, neither a discard nor a wait on the tile buffer. *)
Definition normal_branch (ins : midgard_instruction) : Prop :=
  target_type (ins_branch ins) <> TARGET_DISCARD
  /\ target_type (ins_branch ins) <> TARGET_TILEBUF_WAIT.

End Vocabulary.

(** * Properties *)

(** ** Bits and bit-fields *)

Lemma shiftl_1_testbit (c n : Z) :
  0 <= c -> 0 <= n -> Z.testbit (Z.shiftl 1 c) n = (n =? c).
Proof.
  intros Hc Hn. rewrite Z.shiftl_1_l, Z.pow2_bits_eqb by assumption.
  apply Z.eqb_sym.
Qed.

Lemma land_shiftl_1 (m c : Z) :
  0 <= c -> Z.land m (Z.shiftl 1 c) = if Z.testbit m c then 2 ^ c else 0.
Proof.
  intros Hc. apply Z.bits_inj'. intros n Hn.
  rewrite Z.land_spec, shiftl_1_testbit by assumption.
  destruct (Z.eqb_spec n c) as [->|Hne].
  - rewrite andb_true_r. destruct (Z.testbit m c) eqn:Eb.
    + symmetry. apply Z.pow2_bits_true. assumption.
    + symmetry. apply Z.bits_0.
  - rewrite andb_false_r. destruct (Z.testbit m c).
    + symmetry. apply Z.pow2_bits_false. congruence.
    + symmetry. apply Z.bits_0.
Qed.

Lemma bit_set_testbit (m c : Z) : 0 <= c -> bit_set m c = Z.testbit m c.
Proof.
  intros Hc. unfold bit_set. rewrite land_shiftl_1 by assumption.
  destruct (Z.testbit m c); simpl; [|reflexivity].
  assert (0 < 2 ^ c) by (apply Z.pow_pos_nonneg; lia).
  destruct (Z.eqb_spec (2 ^ c) 0); [lia | reflexivity].
Qed.

Lemma any_set_1 (m : Z) : any_set m 1 = Z.testbit m 0.
Proof. exact (bit_set_testbit m 0 (Z.le_refl 0)). Qed.

Lemma any_set_2 (m : Z) : any_set m 2 = Z.testbit m 1.
Proof. exact (bit_set_testbit m 1 Z.le_0_1). Qed.

Lemma ufield_small (w v : Z) : 0 <= w -> 0 <= v < 2 ^ w -> ufield w v = v.
Proof.
  intros Hw Hv. unfold ufield. rewrite Z.land_ones by assumption.
  now apply Z.mod_small.
Qed.

Lemma ufield_range (w v : Z) : 0 <= w -> 0 <= ufield w v < 2 ^ w.
Proof.
  intros Hw. unfold ufield. rewrite Z.land_ones by assumption.
  apply Z.mod_pos_bound. apply Z.pow_pos_nonneg; lia.
Qed.

Lemma sfield_small (w v : Z) :
  0 < w -> - 2 ^ (w - 1) <= v < 2 ^ (w - 1) -> sfield w v = v.
Proof.
  intros Hw Hv. unfold sfield.
  assert (2 ^ w = 2 * 2 ^ (w - 1)) as Hp.
  { replace w with (Z.succ (w - 1)) at 1 by lia. apply Z.pow_succ_r. lia. }
  rewrite Z.mod_small by lia. lia.
Qed.

(** Checking a property of the numbers below a bound by enumeration. *)
Lemma forall_below (P : Z -> bool) (n : nat) :
  forallb P (map Z.of_nat (seq 0 n)) = true ->
  forall z, 0 <= z < Z.of_nat n -> P z = true.
Proof.
  intros Hall z Hz. rewrite forallb_forall in Hall. apply Hall.
  apply in_map_iff. exists (Z.to_nat z). split; [lia|].
  apply in_seq. lia.
Qed.

Lemma low12_range (x : Z) : 0 <= Z.land x (Z.shiftl 1 12 - 1) < 4096.
Proof.
  change (Z.shiftl 1 12 - 1) with (Z.ones 12).
  rewrite Z.land_ones by lia. apply Z.mod_pos_bound. reflexivity.
Qed.

Section Facts.

Context {E : Externals}.

(** ** Modifier packing *)

Lemma mir_get_imod_cases (shift : bool) (T : Z) (half scalar : bool) :
  mir_get_imod shift T half scalar =
  if half then
    Some (if shift then midgard_int_shift
          else if nir_alu_type_get_base_type T =? nir_type_int
               then midgard_int_sign_extend
               else midgard_int_zero_extend)
  else if shift then None
  else Some (if scalar then midgard_int_sign_extend else midgard_int_normal).
Proof.
  unfold mir_get_imod.
  destruct half, shift, scalar; simpl; try reflexivity;
    destruct (nir_alu_type_get_base_type T =? nir_type_int); reflexivity.
Qed.

(** C6, as the emitter has it.  For an integer operand the modifier
    depends first on whether the operand is a half-width read.  If it is
    not, a request for a shift fails an assertion, and otherwise the code
    is the plain one in a vector word and 0, the sign-extend code, in a
    scalar word.  If it is, the code is the shift code when a shift is
    requested, and otherwise the sign-extend code for a signed integer
    source and the zero-extend code for any other. *)
Theorem mir_pack_mod_integer (ins : midgard_instruction) (i : nat)
  (scalar : bool) :
  midgard_is_integer_op (ins_op ins) = true ->
  let shift := flag_at (ins_src_shift ins) i in
  let T := src_type_at ins i in
  let half := nir_alu_type_get_type_size T
              =? Z.shiftr (max_bitsize_for_alu ins) 1 in
  mir_pack_mod ins i scalar = mir_get_imod shift T half scalar
  /\ (half = false -> shift = true -> mir_pack_mod ins i scalar = None)
  /\ (half = false -> shift = false ->
      mir_pack_mod ins i scalar
      = Some (if scalar then 0 else midgard_int_normal))
  /\ (half = true -> shift = true ->
      mir_pack_mod ins i scalar = Some midgard_int_shift)
  /\ (half = true -> shift = false ->
      nir_alu_type_get_base_type T = nir_type_int ->
      mir_pack_mod ins i scalar = Some midgard_int_sign_extend)
  /\ (half = true -> shift = false ->
      nir_alu_type_get_base_type T <> nir_type_int ->
      mir_pack_mod ins i scalar = Some midgard_int_zero_extend).
Proof.
  intros Hint shift T half.
  assert (mir_pack_mod ins i scalar = mir_get_imod shift T half scalar) as Heq.
  { unfold mir_pack_mod. rewrite Hint. reflexivity. }
  rewrite Heq, mir_get_imod_cases.
  repeat split; intros Hh Hs; rewrite ?Hh, ?Hs; try reflexivity.
  - intros Hb. apply Z.eqb_eq in Hb. now rewrite Hb.
  - intros Hb. apply Z.eqb_neq in Hb. now rewrite Hb.
Qed.

(** ** Scalar demotion *)

Lemma component_from_mask_pow2 (k : Z) :
  0 <= k < 8 -> component_from_mask (2 ^ k) = Some k.
Proof.
  intros Hk.
  assert (k = 0 \/ k = 1 \/ k = 2 \/ k = 3 \/ k = 4 \/ k = 5 \/ k = 6 \/ k = 7)
    as Hc by lia.
  repeat (destruct Hc as [-> | Hc]; [reflexivity|]). subst k. reflexivity.
Qed.

Lemma mir_pack_scalar_source_component (m : Z) (is_full : bool) (c : Z) :
  scalar_src_component (mir_pack_scalar_source m is_full c)
  = ufield 3 (Z.shiftl c (if is_full then 1 else 0)).
Proof.
  unfold scalar_src_component, mir_pack_scalar_source, scalar_alu_src_bits.
  cbn [ss_mod ss_full ss_component].
  set (x := Z.shiftl c (if is_full then 1 else 0)).
  pose proof (ufield_range 2 m ltac:(lia)) as Hm.
  pose proof (ufield_range 3 x ltac:(lia)) as Hx.
  change (2 ^ 2) with 4 in Hm. change (2 ^ 3) with 8 in Hx.
  assert (forall a b,
             0 <= a < 4 -> 0 <= b < 8 ->
             Z.land (Z.shiftr (Z.land (Z.lor a (Z.lor (Z.shiftl (Z.b2z is_full) 2)
                                                     (Z.shiftl b 3)))
                                      (Z.shiftl 1 6 - 1)) 3) 7 = b) as Hall.
  { intros a b Ha Hb.
    assert (a = 0 \/ a = 1 \/ a = 2 \/ a = 3) as Ca by lia.
    assert (b = 0 \/ b = 1 \/ b = 2 \/ b = 3 \/ b = 4 \/ b = 5 \/ b = 6 \/ b = 7)
      as Cb by lia.
    destruct is_full;
      repeat (destruct Ca as [-> | Ca]); try subst a;
      repeat (destruct Cb as [-> | Cb]); try subst b; reflexivity. }
  apply Hall; assumption.
Qed.

(** The value the scalar form takes for an inline constant, written out:
    of the constant's low 12 bits, bits 9 to 10 go to bits 0 to 1, bit 8 to
    bit 2, bits 5 to 7 to bits 3 to 5 and bits 0 to 5 to bits 6 to 11. *)
Lemma scalar_inline_imm_eq (x : Z) :
  let c := Z.land x 4095 in
  scalar_inline_imm x
  = Z.lor (Z.land (Z.shiftr c 9) 3)
     (Z.lor (Z.land (Z.shiftr c 6) 4)
       (Z.lor (Z.land (Z.shiftr c 2) 56) (Z.shiftl (Z.land c 63) 6))).
Proof.
  intros c. unfold scalar_inline_imm.
  change (Z.shiftl 1 12 - 1) with 4095. fold c.
  assert (0 <= c < Z.of_nat 4096) as Hc by (apply low12_range).
  revert Hc. generalize c. clear c x. intros c Hc.
  apply Z.eqb_eq.
  exact (forall_below
           (fun c =>
              ufield 16 (Z.lor (ufield 16 (Z.lor (ufield 16 (Z.lor
                (ufield 16 (Z.lor 0 (Z.land (Z.shiftr c 9) 3)))
                (Z.land (Z.shiftr c 6) 4))) (Z.land (Z.shiftr c 2) 56)))
                (Z.shiftl (Z.land c 63) 6))
              =? Z.lor (Z.land (Z.shiftr c 9) 3)
                  (Z.lor (Z.land (Z.shiftr c 6) 4)
                    (Z.lor (Z.land (Z.shiftr c 2) 56)
                           (Z.shiftl (Z.land c 63) 6))))
           4096 ltac:(vm_compute; reflexivity) c Hc).
Qed.

(** What an 11-bit field keeps of it: bit 11, a second copy of the
    constant's bit 5, is dropped. *)
Lemma scalar_inline_imm_low11 (x : Z) :
  let c := Z.land x 4095 in
  ufield SCALAR_SRC2_BITS (scalar_inline_imm x)
  = Z.lor (Z.land (Z.shiftr c 9) 3)
     (Z.lor (Z.land (Z.shiftr c 6) 4)
       (Z.lor (Z.land (Z.shiftr c 2) 56) (Z.shiftl (Z.land c 31) 6))).
Proof.
  intros c. rewrite scalar_inline_imm_eq. fold c.
  assert (0 <= c < Z.of_nat 4096) as Hc by (apply low12_range).
  revert Hc. generalize c. clear c x. intros c Hc.
  apply Z.eqb_eq.
  exact (forall_below
           (fun c =>
              ufield SCALAR_SRC2_BITS
                (Z.lor (Z.land (Z.shiftr c 9) 3)
                  (Z.lor (Z.land (Z.shiftr c 6) 4)
                    (Z.lor (Z.land (Z.shiftr c 2) 56)
                           (Z.shiftl (Z.land c 63) 6))))
              =? Z.lor (Z.land (Z.shiftr c 9) 3)
                  (Z.lor (Z.land (Z.shiftr c 6) 4)
                    (Z.lor (Z.land (Z.shiftr c 2) 56)
                           (Z.shiftl (Z.land c 31) 6))))
           4096 ltac:(vm_compute; reflexivity) c Hc).
Qed.

(** The fields vector_to_scalar_alu fills, when it returns. *)
Lemma vector_to_scalar_alu_fields (v : midgard_vector_alu)
  (ins : midgard_instruction) (s : midgard_scalar_alu) :
  vector_to_scalar_alu v ins = Some s ->
  exists comp mod_0 mod_1,
    component_from_mask (ins_mask ins) = Some comp
    /\ mir_pack_mod ins 0 true = Some mod_0
    /\ mir_pack_mod ins 1 true = Some mod_1
    /\ s_op s = v_op v
    /\ s_outmod s = v_outmod v
    /\ s_unknown s = 0
    /\ s_output_full s
       = (nir_alu_type_get_type_size (ins_dest_type ins) =? 32)
    /\ s_src1 s
       = ufield SCALAR_SRC1_BITS
           (mir_pack_scalar_source mod_0
              (negb (nir_alu_type_get_type_size (src_type_at ins 0) =? 16))
              (swz (swizzle_row ins 0) comp))
    /\ s_src2 s
       = (if ins_has_inline_constant ins
          then ufield SCALAR_SRC2_BITS
                 (scalar_inline_imm (ins_inline_constant ins))
          else ufield SCALAR_SRC2_BITS
                 (mir_pack_scalar_source mod_1
                    (negb (nir_alu_type_get_type_size (src_type_at ins 1)
                           =? 16))
                    (swz (swizzle_row ins 1) comp)))
    /\ s_output_component s
       = (if nir_alu_type_get_type_size (ins_dest_type ins) =? 32
          then ufield SCALAR_OUTPUT_COMPONENT_BITS
                 (Z.shiftl (ufield SCALAR_OUTPUT_COMPONENT_BITS comp) 1)
          else ufield SCALAR_OUTPUT_COMPONENT_BITS comp)
    /\ ((nir_alu_type_get_type_size (ins_dest_type ins) =? 32) = true ->
        ufield SCALAR_OUTPUT_COMPONENT_BITS comp < 4).
Proof.
  unfold vector_to_scalar_alu. intros H.
  destruct (component_from_mask (ins_mask ins)) as [comp|]; [|discriminate].
  destruct (mir_pack_mod ins 0 true) as [m0|]; [|discriminate].
  destruct (mir_pack_mod ins 1 true) as [m1|]; [|discriminate].
  exists comp, m0, m1. cbn [bind] in H.
  destruct (nir_alu_type_get_type_size (ins_dest_type ins) =? 32) eqn:Efull;
    cbn [s_output_component bind] in H.
  - destruct (ufield SCALAR_OUTPUT_COMPONENT_BITS comp <? 4) eqn:Elt;
      cbn [assert bind] in H; [|discriminate].
    apply Z.ltb_lt in Elt.
    destruct (ins_has_inline_constant ins); inversion H; subst s; cbn;
      repeat split; auto.
  - destruct (ins_has_inline_constant ins); inversion H; subst s; cbn;
      repeat split; auto; discriminate.
Qed.

(** C1, as the emitter has it.  With an inline constant, the scalar
    word's src2 is the low 11 bits, the width of the field, of the 16-bit
    value imm = ((c>>9)&3) | ((c>>6)&4) | ((c>>2)&0x38) | ((c&63)<<6),
    c being the constant's low 12 bits: that is
    ((c>>9)&3) | ((c>>6)&4) | ((c>>2)&0x38) | ((c&31)<<6).  For the
    constant 0x0FFF it is 0x7FF, whatever the other fields are. *)
Theorem vector_to_scalar_alu_inline_constant (v : midgard_vector_alu)
  (ins : midgard_instruction) (s : midgard_scalar_alu) :
  ins_has_inline_constant ins = true ->
  vector_to_scalar_alu v ins = Some s ->
  let c := Z.land (ins_inline_constant ins) 4095 in
  let imm := Z.lor (Z.land (Z.shiftr c 9) 3)
              (Z.lor (Z.land (Z.shiftr c 6) 4)
                (Z.lor (Z.land (Z.shiftr c 2) 56)
                       (Z.shiftl (Z.land c 63) 6))) in
  s_src2 s = Z.land imm (Z.ones 11)
  /\ s_src2 s = Z.lor (Z.land (Z.shiftr c 9) 3)
                 (Z.lor (Z.land (Z.shiftr c 6) 4)
                   (Z.lor (Z.land (Z.shiftr c 2) 56)
                          (Z.shiftl (Z.land c 31) 6)))
  /\ (c = 4095 -> s_src2 s = 2047).
Proof.
  intros Hic Hs c imm.
  destruct (vector_to_scalar_alu_fields v ins s Hs)
    as (comp & m0 & m1 & _ & _ & _ & _ & _ & _ & _ & _ & H2 & _).
  rewrite Hic in H2.
  assert (s_src2 s = Z.lor (Z.land (Z.shiftr c 9) 3)
                      (Z.lor (Z.land (Z.shiftr c 6) 4)
                        (Z.lor (Z.land (Z.shiftr c 2) 56)
                               (Z.shiftl (Z.land c 31) 6)))) as Hexp.
  { rewrite H2. apply scalar_inline_imm_low11. }
  split; [|split].
  - rewrite H2, scalar_inline_imm_eq. reflexivity.
  - exact Hexp.
  - intros Hc. rewrite Hexp, Hc. reflexivity.
Qed.

(** The three bits of a component field hold a shifted component whole
    exactly when the component is below 4 for a full-width source, below
    8 for a half-width one. *)
Lemma component_field_exact (c : Z) (full : bool) :
  0 <= c ->
  Z.land (Z.shiftl c (if full then 1 else 0)) 7
  = Z.shiftl c (if full then 1 else 0)
  <-> c < (if full then 4 else 8).
Proof.
  intros Hc. change 7 with (Z.ones 3). rewrite Z.land_ones by lia.
  change (2 ^ 3) with 8.
  destruct full; [rewrite Z.shiftl_mul_pow2 by lia; change (2 ^ 1) with 2
                 |rewrite Z.shiftl_0_r].
  - split; intros H.
    + pose proof (Z.mod_pos_bound (c * 2) 8 ltac:(lia)). lia.
    + apply Z.mod_small. lia.
  - split; intros H.
    + pose proof (Z.mod_pos_bound c 8 ltac:(lia)). lia.
    + apply Z.mod_small. lia.
Qed.

(** C7.  For a write mask with the single lane k, when the assertions of
    the demotion hold (the lane is below 4 for a 32-bit destination, the
    two modifiers pack), the scalar word has k as its output component,
    shifted left by 1 exactly when the destination is 32 bits wide; each
    packed source has, in its component field of three bits, the low
    three bits of the component its swizzle selects for lane k shifted
    left by 1 exactly when the source is not 16 bits wide: that is the
    shifted component itself exactly when the component is below 4 for a
    source that is not 16 bits wide, below 8 for one that is (nothing
    asserts that it is); and the opcode and the output modifier are those
    of the vector word.  (With an inline constant, src2 holds the constant
    in place of the second source.) *)
Theorem vector_to_scalar_alu_single_lane (v : midgard_vector_alu)
  (ins : midgard_instruction) (k mod_0 mod_1 : Z) :
  0 <= k < 8 ->
  ins_mask ins = 2 ^ k ->
  (nir_alu_type_get_type_size (ins_dest_type ins) = 32 -> k < 4) ->
  mir_pack_mod ins 0 true = Some mod_0 ->
  mir_pack_mod ins 1 true = Some mod_1 ->
  let is_full := nir_alu_type_get_type_size (ins_dest_type ins) =? 32 in
  let full_0 := negb (nir_alu_type_get_type_size (src_type_at ins 0) =? 16) in
  let full_1 := negb (nir_alu_type_get_type_size (src_type_at ins 1) =? 16) in
  let c0 := swz (swizzle_row ins 0) k in
  let c1 := swz (swizzle_row ins 1) k in
  exists s,
    vector_to_scalar_alu v ins = Some s
    /\ s_output_component s = Z.shiftl k (if is_full then 1 else 0)
    /\ s_output_full s = is_full
    /\ s_op s = v_op v
    /\ s_outmod s = v_outmod v
    /\ s_src1 s = mir_pack_scalar_source mod_0 full_0 c0
    /\ scalar_src_component (s_src1 s)
       = Z.land (Z.shiftl c0 (if full_0 then 1 else 0)) 7
    /\ (0 <= c0 ->
        scalar_src_component (s_src1 s)
        = Z.shiftl c0 (if full_0 then 1 else 0)
        <-> c0 < (if full_0 then 4 else 8))
    /\ (ins_has_inline_constant ins = false ->
        s_src2 s = mir_pack_scalar_source mod_1 full_1 c1
        /\ scalar_src_component (s_src2 s)
           = Z.land (Z.shiftl c1 (if full_1 then 1 else 0)) 7
        /\ (0 <= c1 ->
            scalar_src_component (s_src2 s)
            = Z.shiftl c1 (if full_1 then 1 else 0)
            <-> c1 < (if full_1 then 4 else 8))).
Proof.
  intros Hk Hmask Hfull Hm0 Hm1 is_full full_0 full_1 c0 c1.
  assert (forall m f c, 0 <= mir_pack_scalar_source m f c < 64) as Hrange.
  { intros m f c. unfold mir_pack_scalar_source.
    change (Z.shiftl 1 6 - 1) with (Z.ones 6).
    rewrite Z.land_ones by lia. apply Z.mod_pos_bound. reflexivity. }
  assert (forall m f c,
             0 <= mir_pack_scalar_source m f c < 2 ^ SCALAR_SRC2_BITS)
    as Hrange2.
  { intros m f c. specialize (Hrange m f c).
    change (2 ^ SCALAR_SRC2_BITS) with 2048. lia. }
  assert (ufield SCALAR_OUTPUT_COMPONENT_BITS k = k) as Hku.
  { apply ufield_small; [unfold SCALAR_OUTPUT_COMPONENT_BITS; lia|].
    change (2 ^ SCALAR_OUTPUT_COMPONENT_BITS) with 8. lia. }
  assert (exists s, vector_to_scalar_alu v ins = Some s) as [s Hs].
  { unfold vector_to_scalar_alu.
    rewrite Hmask, component_from_mask_pow2, Hm0, Hm1 by assumption.
    cbn [bind s_output_component]. rewrite Hku.
    destruct (nir_alu_type_get_type_size (ins_dest_type ins) =? 32) eqn:Ef.
    - apply Z.eqb_eq in Ef. specialize (Hfull Ef).
      apply Z.ltb_lt in Hfull. rewrite Hfull. cbn [assert bind].
      destruct (ins_has_inline_constant ins); eexists; reflexivity.
    - cbn [bind].
      destruct (ins_has_inline_constant ins); eexists; reflexivity. }
  exists s. split; [exact Hs|].
  destruct (vector_to_scalar_alu_fields v ins s Hs)
    as (comp & m0 & m1 & Hc & Hp0 & Hp1 & Hop & Hom & _ & Hof & H1 & H2
        & Hoc & _).
  rewrite Hmask, component_from_mask_pow2 in Hc by assumption.
  injection Hc as <-. rewrite Hm0 in Hp0. rewrite Hm1 in Hp1.
  injection Hp0 as <-. injection Hp1 as <-.
  assert (s_src1 s = mir_pack_scalar_source mod_0 full_0 c0) as H1'.
  { rewrite H1. apply ufield_small; [unfold SCALAR_SRC1_BITS; lia|].
    apply Hrange. }
  assert (scalar_src_component (s_src1 s)
          = Z.land (Z.shiftl c0 (if full_0 then 1 else 0)) 7) as Hc1.
  { rewrite H1'. apply mir_pack_scalar_source_component. }
  split; [|split; [exact Hof|split; [exact Hop|split; [exact Hom|
    split; [exact H1'|split; [exact Hc1|split]]]]]].
  - rewrite Hoc, Hku. fold is_full. destruct is_full eqn:Ef; cycle 1.
    + now rewrite Z.shiftl_0_r.
    + apply Z.eqb_eq in Ef. specialize (Hfull Ef).
      apply ufield_small; [unfold SCALAR_OUTPUT_COMPONENT_BITS; lia|].
      change (2 ^ SCALAR_OUTPUT_COMPONENT_BITS) with 8.
      rewrite Z.shiftl_mul_pow2 by lia. change (2 ^ 1) with 2. lia.
  - intros Hpos. rewrite Hc1. apply component_field_exact. exact Hpos.
  - intros Hni. rewrite Hni in H2.
    assert (s_src2 s = mir_pack_scalar_source mod_1 full_1 c1) as H2'.
    { rewrite H2. apply ufield_small; [unfold SCALAR_SRC2_BITS; lia|].
      apply Hrange2. }
    assert (scalar_src_component (s_src2 s)
            = Z.land (Z.shiftl c1 (if full_1 then 1 else 0)) 7) as Hc2.
    { rewrite H2'. apply mir_pack_scalar_source_component. }
    split; [exact H2'|split; [exact Hc2|]].
    intros Hpos. rewrite Hc2. apply component_field_exact. exact Hpos.
Qed.

(** ** Lowering of inverted sources *)

(** C3.  An AND with both sources inverted becomes NOR and with the second
    only AND-NOT; an OR with both inverted becomes NAND and with the
    second only OR-NOT; an XOR with exactly one source inverted becomes
    XNOR; in every other case the opcode is unchanged.  (The three case
    labels of the switch are distinct.) *)
Theorem mir_lower_inverts_op (ins : midgard_instruction) :
  midgard_alu_op_iand <> midgard_alu_op_ior ->
  midgard_alu_op_iand <> midgard_alu_op_ixor ->
  midgard_alu_op_ior <> midgard_alu_op_ixor ->
  let inv0 := flag_at (ins_src_invert ins) 0 in
  let inv1 := flag_at (ins_src_invert ins) 1 in
  let op' := ins_op (mir_lower_inverts ins) in
  (ins_op ins = midgard_alu_op_iand -> inv0 = true -> inv1 = true ->
   op' = midgard_alu_op_inor)
  /\ (ins_op ins = midgard_alu_op_iand -> inv0 = false -> inv1 = true ->
      op' = midgard_alu_op_iandnot)
  /\ (ins_op ins = midgard_alu_op_ior -> inv0 = true -> inv1 = true ->
      op' = midgard_alu_op_inand)
  /\ (ins_op ins = midgard_alu_op_ior -> inv0 = false -> inv1 = true ->
      op' = midgard_alu_op_iornot)
  /\ (ins_op ins = midgard_alu_op_ixor -> inv0 <> inv1 ->
      op' = midgard_alu_op_inxor)
  /\ ((ins_op ins = midgard_alu_op_iand \/ ins_op ins = midgard_alu_op_ior) ->
      inv1 = false -> op' = ins_op ins)
  /\ (ins_op ins = midgard_alu_op_ixor -> inv0 = inv1 -> op' = ins_op ins)
  /\ (ins_op ins <> midgard_alu_op_iand ->
      ins_op ins <> midgard_alu_op_ior ->
      ins_op ins <> midgard_alu_op_ixor -> op' = ins_op ins).
Proof.
  intros Hao Hax Hox inv0 inv1 op'. subst op'. unfold mir_lower_inverts.
  fold inv0 inv1.
  destruct (Z.eqb_spec (ins_op ins) midgard_alu_op_iand) as [Ea|Na];
    [|destruct (Z.eqb_spec (ins_op ins) midgard_alu_op_ior) as [Eo|No];
      [|destruct (Z.eqb_spec (ins_op ins) midgard_alu_op_ixor) as [Ex|Nx]]];
    destruct inv0, inv1; cbn;
    repeat split; intros; try reflexivity; try congruence;
    match goal with
    | H : _ \/ _ |- _ => destruct H; congruence
    | _ => idtac
    end.
Qed.

(** ** Load/store masks *)

Lemma mir_pack_ldst_mask_loop_eq (mask : Z) :
  mir_pack_ldst_mask_loop 4 0 mask 0
  = if Bool.eqb (Z.testbit mask 0) (Z.testbit mask 1)
       && Bool.eqb (Z.testbit mask 2) (Z.testbit mask 3)
       && Bool.eqb (Z.testbit mask 4) (Z.testbit mask 5)
       && Bool.eqb (Z.testbit mask 6) (Z.testbit mask 7)
    then Some (Z.b2z (Z.testbit mask 0) + 2 * Z.b2z (Z.testbit mask 2)
               + 4 * Z.b2z (Z.testbit mask 4) + 8 * Z.b2z (Z.testbit mask 6))
    else None.
Proof.
  cbn -[bit_set Z.lor Z.shiftl Z.testbit Z.b2z Z.mul Z.add].
  change (2 * 0 + 0) with 0. change (2 * 0 + 1) with 1.
  change (2 * (0 + 1) + 0) with 2. change (2 * (0 + 1) + 1) with 3.
  change (2 * (0 + 1 + 1) + 0) with 4. change (2 * (0 + 1 + 1) + 1) with 5.
  change (2 * (0 + 1 + 1 + 1) + 0) with 6.
  change (2 * (0 + 1 + 1 + 1) + 1) with 7.
  rewrite !bit_set_testbit by lia.
  destruct (Z.testbit mask 0), (Z.testbit mask 1), (Z.testbit mask 2),
    (Z.testbit mask 3), (Z.testbit mask 4), (Z.testbit mask 5),
    (Z.testbit mask 6), (Z.testbit mask 7); reflexivity.
Qed.

Lemma mir_pack_ldst_mask_loop_duplicated (mask : Z) :
  (forall i, 0 <= i < 4 ->
             Z.testbit mask (2 * i) = Z.testbit mask (2 * i + 1)) ->
  mir_pack_ldst_mask_loop 4 0 mask 0
  = Some (Z.b2z (Z.testbit mask 0) + 2 * Z.b2z (Z.testbit mask 2)
          + 4 * Z.b2z (Z.testbit mask 4) + 8 * Z.b2z (Z.testbit mask 6)).
Proof.
  intros Hdup. rewrite mir_pack_ldst_mask_loop_eq.
  pose proof (Hdup 0 ltac:(lia)) as H0. pose proof (Hdup 1 ltac:(lia)) as H1.
  pose proof (Hdup 2 ltac:(lia)) as H2. pose proof (Hdup 3 ltac:(lia)) as H3.
  change (2 * 0) with 0 in H0. change (0 + 1) with 1 in H0.
  change (2 * 1) with 2 in H1. change (2 + 1) with 3 in H1.
  change (2 * 2) with 4 in H2. change (4 + 1) with 5 in H2.
  change (2 * 3) with 6 in H3. change (6 + 1) with 7 in H3.
  rewrite <- H0, <- H1, <- H2, <- H3, !Bool.eqb_reflx. reflexivity.
Qed.

Lemma mir_pack_ldst_mask_loop_mixed (mask i : Z) :
  0 <= i < 4 ->
  Z.testbit mask (2 * i) <> Z.testbit mask (2 * i + 1) ->
  mir_pack_ldst_mask_loop 4 0 mask 0 = None.
Proof.
  intros Hi Hne. rewrite mir_pack_ldst_mask_loop_eq.
  assert (i = 0 \/ i = 1 \/ i = 2 \/ i = 3) as [-> | [-> | [-> | ->]]] by lia;
    [change (2 * 0) with 0 in Hne; change (0 + 1) with 1 in Hne
    |change (2 * 1) with 2 in Hne; change (2 + 1) with 3 in Hne
    |change (2 * 2) with 4 in Hne; change (4 + 1) with 5 in Hne
    |change (2 * 3) with 6 in Hne; change (6 + 1) with 7 in Hne];
    apply Bool.eqb_false_iff in Hne; rewrite Hne;
    rewrite ?andb_false_r; reflexivity.
Qed.

(** C5.  For 64-bit elements the packed mask has four bits, lane 0 of the
    mask in bits 0 and 1 and lane 1 in bits 2 and 3.  For 16-bit elements
    whose mask has each bit pair duplicated, it has bit i of value the
    mask's pair i, so that the mask 0b00000011 packs to 0b0001.  For
    32-bit elements it is the low four bits of the mask, whatever the
    mask: the mask itself exactly when it has no lane above lane 3.  A
    16-bit mask with a pair that is not duplicated fails the assertion. *)
Theorem mir_pack_ldst_mask_cases (ins : midgard_instruction) :
  let sz := nir_alu_type_get_type_size (ins_dest_type ins) in
  let mask := ins_mask ins in
  (sz = 64 ->
   exists p, mir_pack_ldst_mask ins = Some (set_load_store_mask ins p)
     /\ 0 <= p < 16
     /\ Z.testbit p 0 = Z.testbit mask 0 /\ Z.testbit p 1 = Z.testbit mask 0
     /\ Z.testbit p 2 = Z.testbit mask 1 /\ Z.testbit p 3 = Z.testbit mask 1)
  /\ (sz = 16 ->
      (forall i, 0 <= i < 4 ->
                 Z.testbit mask (2 * i) = Z.testbit mask (2 * i + 1)) ->
      exists p, mir_pack_ldst_mask ins = Some (set_load_store_mask ins p)
        /\ 0 <= p < 16
        /\ forall i, 0 <= i < 4 -> Z.testbit p i = Z.testbit mask (2 * i))
  /\ (sz = 16 -> mask = 3 ->
      mir_pack_ldst_mask ins = Some (set_load_store_mask ins 1))
  /\ (sz = 32 ->
      mir_pack_ldst_mask ins
      = Some (set_load_store_mask ins (Z.land mask 15))
      /\ (0 <= mask < 16 -> Z.land mask 15 = mask)
      /\ (0 <= mask -> Z.land mask 15 = mask -> mask < 16))
  /\ (sz = 16 ->
      (exists i, 0 <= i < 4
                 /\ Z.testbit mask (2 * i) <> Z.testbit mask (2 * i + 1)) ->
      mir_pack_ldst_mask ins = None).
Proof.
  intros sz mask. unfold mir_pack_ldst_mask. fold sz mask.
  split; [|split; [|split; [|split]]]; cycle 4.
  { intros -> (i & Hi & Hne). cbn [Z.eqb Pos.eqb bind].
    rewrite (mir_pack_ldst_mask_loop_mixed mask i Hi Hne). reflexivity. }
  - intros ->. cbn [Z.eqb Pos.eqb bind].
    rewrite any_set_1, any_set_2. eexists. split; [reflexivity|].
    destruct (Z.testbit mask 0), (Z.testbit mask 1); cbn; repeat split; lia.
  - intros -> Hdup. cbn [Z.eqb Pos.eqb bind].
    rewrite (mir_pack_ldst_mask_loop_duplicated mask Hdup). cbn [bind].
    eexists. split; [reflexivity|].
    assert (forall b0 b1 b2 b3 : bool,
               let p := ufield LDST_MASK_BITS
                          (Z.b2z b0 + 2 * Z.b2z b1 + 4 * Z.b2z b2
                           + 8 * Z.b2z b3) in
               0 <= p < 16 /\ Z.testbit p 0 = b0 /\ Z.testbit p 1 = b1
               /\ Z.testbit p 2 = b2 /\ Z.testbit p 3 = b3) as Hbits.
    { intros [] [] [] []; cbn; repeat split; lia. }
    destruct (Hbits (Z.testbit mask 0) (Z.testbit mask 2) (Z.testbit mask 4)
                (Z.testbit mask 6)) as (Hr & B0 & B1 & B2 & B3).
    split; [exact Hr|].
    intros i Hi.
    assert (i = 0 \/ i = 1 \/ i = 2 \/ i = 3) as [-> | [-> | [-> | ->]]] by lia;
      assumption.
  - intros -> Hm. rewrite Hm. reflexivity.
  - intros ->. cbn [Z.eqb Pos.eqb assert bind].
    split; [reflexivity|].
    change 15 with (Z.ones 4). rewrite Z.land_ones by lia.
    change (2 ^ 4) with 16.
    split; [intros Hm; apply Z.mod_small; exact Hm|].
    intros Hm Heq. pose proof (Z.mod_pos_bound mask 16 ltac:(lia)). lia.
Qed.

(** ** Swizzle packing in 64-bit mode *)

(** C8.  In 64-bit register mode over a 32-bit type, with both lanes of
    the mask active: if the two swizzle sources select different halves,
    packing fails; if they select the same half, packing (of components
    the first assertion accepts) records that half in the replicate-low
    flag; and whenever packing returns, the halves are the same and the
    flag is that half. *)
Theorem mir_pack_swizzle_64_halves (mask : Z) (swizzle : list Z) (T : Z)
  (op_channeled rep_low rep_high : bool) :
  nir_alu_type_get_type_size T = 32 ->
  Z.testbit mask 0 = true ->
  Z.testbit mask 1 = true ->
  let lo := swz swizzle 0 >=? COMPONENT_Z in
  let hi := swz swizzle 1 >=? COMPONENT_Z in
  let r := mir_pack_swizzle mask swizzle T midgard_reg_mode_64
             op_channeled rep_low rep_high in
  (lo <> hi -> r = None)
  /\ (lo = hi -> swz swizzle 0 <= 4 -> swz swizzle 1 <= 4 ->
      exists packed,
        mir_pack_swizzle_64 swizzle 4 = Some packed
        /\ r = Some (packed, lo, rep_high))
  /\ (forall packed rl rh, r = Some (packed, rl, rh) -> lo = hi /\ rl = lo).
Proof.
  intros Hsz H0 H1 lo hi r. subst r. unfold mir_pack_swizzle.
  rewrite Hsz. cbn [reg_mode_eqb reg_mode_code Z.eqb Pos.eqb orb assert bind].
  rewrite any_set_1, any_set_2, H0, H1. fold lo hi.
  split; [|split].
  - intros Hne. destruct (mir_pack_swizzle_64 swizzle 4); [|reflexivity].
    cbn [bind]. destruct lo, hi; try congruence; reflexivity.
  - intros Heq Hs0 Hs1. unfold mir_pack_swizzle_64, mir_pack_swizzle_64_step.
    apply Z.leb_le in Hs0, Hs1. rewrite Hs0, Hs1. cbn [assert bind].
    eexists. split; [reflexivity|].
    rewrite Heq. rewrite Bool.eqb_reflx. reflexivity.
  - intros packed rl rh Hr.
    destruct (mir_pack_swizzle_64 swizzle 4); [|discriminate].
    cbn [bind] in Hr. destruct (Bool.eqb lo hi) eqn:Eeq; [|discriminate].
    apply Bool.eqb_prop in Eeq. cbn in Hr. inversion Hr. auto.
Qed.

(** ** Out-of-order annotation *)

Lemma skipn_nth_error_some {A : Type} (l : list A) (i : nat) (a : A) :
  nth_error l i = Some a -> skipn i l = a :: skipn (S i) l.
Proof.
  revert l. induction i as [|i IH]; intros [|x l] H; try discriminate.
  - injection H as ->. reflexivity.
  - cbn in H. cbn [skipn]. rewrite (IH l H). reflexivity.
Qed.

Lemma skipn_nth_error_none {A : Type} (l : list A) (i : nat) :
  nth_error l i = None -> skipn i l = [].
Proof.
  intros H. apply skipn_all2. now apply nth_error_None.
Qed.

Lemma take_while_length {A : Type} (f : A -> bool) (l : list A) :
  (length (take_while f l) <= length l)%nat.
Proof.
  induction l as [|a l IH]; cbn; [lia|]. destruct (f a); cbn; lia.
Qed.

(** mir_can_run_ooo: the bundle is one of the block and is a candidate. *)
Lemma mir_can_run_ooo_spec (block : midgard_block) (i : nat) (dest : Z) :
  mir_can_run_ooo block i dest
  = match nth_error (bundles block) i with
    | Some b => ooo_candidate b dest
    | None => false
    end.
Proof.
  unfold mir_can_run_ooo, ooo_candidate.
  destruct (nth_error (bundles block) i) as [b|]; [|reflexivity].
  assert (existsb (fun ins => existsb (fun s => s =? dest) (ins_src ins))
                  (instructions b)
          = negb (forallb (fun ins => forallb (fun s => negb (s =? dest))
                                              (ins_src ins))
                          (instructions b))) as ->.
  { induction (instructions b) as [|x l IH]; [reflexivity|].
    cbn [existsb forallb]. rewrite IH, negb_andb. f_equal.
    induction (ins_src x) as [|y m IHm]; [reflexivity|].
    cbn [existsb forallb]. rewrite IHm, negb_andb, negb_involutive.
    reflexivity. }
  destruct (IS_ALU (tag b)), (tag b =? TAG_LOAD_STORE_4),
    (forallb _ (instructions b)); reflexivity.
Qed.

Lemma mir_can_run_ooo_out_of_bounds (block : midgard_block) (i : nat)
  (dest : Z) :
  (length (bundles block) <= i)%nat -> mir_can_run_ooo block i dest = false.
Proof.
  intros H. rewrite mir_can_run_ooo_spec.
  apply nth_error_None in H. now rewrite H.
Qed.

Lemma mir_pack_tex_ooo_loop_count (n count : nat) (block : midgard_block)
  (bundle : nat) (dest : Z) :
  mir_pack_tex_ooo_loop n count block bundle dest
  = (count
     + Nat.min n (length (take_while (fun b => ooo_candidate b dest)
                            (skipn (bundle + count + 1) (bundles block)))))%nat.
Proof.
  revert count. induction n as [|n IH]; intros count.
  - cbn. lia.
  - cbn [mir_pack_tex_ooo_loop]. rewrite mir_can_run_ooo_spec.
    destruct (nth_error (bundles block) (bundle + count + 1)) as [b|] eqn:En.
    + rewrite (skipn_nth_error_some _ _ _ En). cbn [take_while].
      destruct (ooo_candidate b dest); cbn [negb length].
      * rewrite IH.
        replace (bundle + S count + 1)%nat with (S (bundle + count + 1))
          by lia.
        lia.
      * lia.
    + rewrite (skipn_nth_error_none _ _ En). cbn. lia.
Qed.

(** C4.  The out-of-order depth recorded for a texture instruction is at
    most 3; it is the number of bundles, among the three that follow it in
    its block, that are candidates before the first that is not (the lesser
    of 3 and the length of the run of candidates that follows the bundle);
    it is 0 when the next bundle has a tag of neither the ALU nor the
    load/store class, or has an instruction reading the destination of the
    texture instruction; and every bundle counted is one of the block: the
    check of a bundle past the end of the list fails before it is read. *)
Theorem mir_pack_tex_ooo_depth (block : midgard_block) (bundle : nat)
  (ins : midgard_instruction) :
  let depth := ins_texture_out_of_order (mir_pack_tex_ooo block bundle ins) in
  let following := skipn (S bundle) (bundles block) in
  let run := take_while (fun b => ooo_candidate b (ins_dest ins)) following in
  0 <= depth <= 3
  /\ depth = Z.of_nat (Nat.min 3 (length run))
  /\ (forall b, nth_error (bundles block) (S bundle) = Some b ->
        (IS_ALU (tag b) = false /\ tag b <> TAG_LOAD_STORE_4)
        \/ (exists i s, In i (instructions b) /\ In s (ins_src i)
                        /\ s = ins_dest ins) ->
        depth = 0)
  /\ (depth = 0
      \/ Z.of_nat bundle + depth < Z.of_nat (length (bundles block)))
  /\ (forall i, (length (bundles block) <= i)%nat ->
        mir_can_run_ooo block i (ins_dest ins) = false).
Proof.
  intros depth following run.
  assert (depth = Z.of_nat (Nat.min 3 (length run))) as Hd.
  { subst depth. unfold mir_pack_tex_ooo. cbn [ins_texture_out_of_order].
    rewrite mir_pack_tex_ooo_loop_count. cbn [Nat.add].
    replace (bundle + 0 + 1)%nat with (S bundle) by lia. reflexivity. }
  split; [lia|]. split; [exact Hd|]. split; [|split].
  - intros b Hb Hbad. rewrite Hd. subst run following.
    rewrite (skipn_nth_error_some _ _ _ Hb). cbn [take_while].
    assert (ooo_candidate b (ins_dest ins) = false) as ->; [|reflexivity].
    unfold ooo_candidate. destruct Hbad as [[Ha Hl] | (i & s & Hi & Hs & ->)].
    + rewrite Ha. apply Z.eqb_neq in Hl. rewrite Hl. reflexivity.
    + apply andb_false_intro2.
      apply not_true_is_false. intros Hall.
      rewrite forallb_forall in Hall. specialize (Hall i Hi).
      rewrite forallb_forall in Hall. specialize (Hall _ Hs).
      rewrite Z.eqb_refl in Hall. discriminate.
  - pose proof (take_while_length
                  (fun b => ooo_candidate b (ins_dest ins)) following) as Hl.
    fold run in Hl. subst following. rewrite length_skipn in Hl. lia.
  - intros i Hi. now apply mir_can_run_ooo_out_of_bounds.
Qed.

(** ** Branches *)

(** C9.  In a branch word of the extended form, each of the 8 two-bit
    slots of the 16-bit condition field holds the one condition selected:
    "always" for an unconditional branch, and for a conditional one
    "false" when the condition is inverted and "true" when it is not. *)
Theorem emit_branch_extended_cond (ins : midgard_instruction)
  (ctx : compiler_context) (block : midgard_block) (bundle : midgard_bundle)
  (b : midgard_branch_extended) :
  emit_branch ins ctx block bundle = Some (BranchExtended b) ->
  let cond :=
    if conditional (ins_branch ins)
    then (if invert_conditional (ins_branch ins)
          then midgard_condition_false else midgard_condition_true)
    else midgard_condition_always in
  0 <= be_cond b < 2 ^ 16
  /\ (forall k, 0 <= k < 8 -> cond_slot (be_cond b) k = cond)
  /\ ins_unit ins <> ALU_ENAB_BR_COMPACT.
Proof.
  intros H cond. unfold emit_branch in H.
  destruct (branch_quadword_offset ctx ins block) as [off|]; [|discriminate].
  cbn [bind] in H.
  destruct (Z.eqb_spec (ins_unit ins) ALU_ENAB_BR_COMPACT) as [Ec|Nc].
  - destruct (conditional (ins_branch ins) || _); [discriminate|].
    destruct (assert _); [|discriminate]. cbn [bind] in H.
    destruct (assert _); discriminate.
  - injection H as <-. unfold midgard_create_branch_extended.
    cbn [be_cond]. unfold branch_condition. subst cond.
    assert (forall k, 0 <= k < 8 ->
              k = 0 \/ k = 1 \/ k = 2 \/ k = 3 \/ k = 4 \/ k = 5 \/ k = 6
              \/ k = 7) as Hk by (intros; lia).
    destruct (conditional (ins_branch ins)),
      (invert_conditional (ins_branch ins)); cbn [negb];
      (split; [cbn; lia|]); (split; [|exact Nc]);
      intros k Hr; specialize (Hk k Hr);
      repeat (destruct Hk as [-> | Hk]; [reflexivity|]); subst k;
      reflexivity.
Qed.

Lemma sum_from_nonneg (q : Z -> Z) (lo : Z) (n : nat) :
  (forall i, lo <= i < lo + Z.of_nat n -> 0 <= q i) -> 0 <= sum_from q lo n.
Proof.
  revert lo. induction n as [|n IH]; intros lo Hq; cbn [sum_from]; [lia|].
  assert (0 <= q lo) by (apply Hq; lia).
  assert (0 <= sum_from q (lo + 1) n) by (apply IH; intros; apply Hq; lia).
  lia.
Qed.

Lemma sum_from_snoc (q : Z -> Z) (lo : Z) (n : nat) :
  sum_from q lo (S n) = sum_from q lo n + q (lo + Z.of_nat n).
Proof.
  revert lo. induction n as [|n IH]; intros lo.
  - cbn [sum_from Z.of_nat]. rewrite !Z.add_0_r. reflexivity.
  - change (sum_from q lo (S (S n)))
      with (q lo + sum_from q (lo + 1) (S n)).
    rewrite IH. cbn [sum_from].
    replace (lo + 1 + Z.of_nat n) with (lo + Z.of_nat (S n)) by lia. lia.
Qed.

Lemma jump_forward_sum (ctx : compiler_context) (blk : Z -> midgard_block)
  (n : nat) (idx acc : Z) :
  (forall i, idx <= i < idx + Z.of_nat n -> mir_get_block ctx i = Some (blk i)) ->
  (forall i, idx <= i < idx + Z.of_nat n -> 0 <= quadword_count (blk i)) ->
  - 2 ^ 31 <= acc ->
  acc + sum_from (fun i => quadword_count (blk i)) idx n < 2 ^ 31 ->
  jump_forward ctx n idx acc
  = Some (acc + sum_from (fun i => quadword_count (blk i)) idx n).
Proof.
  revert idx acc. induction n as [|n IH]; intros idx acc Hget Hq Hlo Hhi.
  - cbn. f_equal. lia.
  - cbn [jump_forward sum_from] in *. rewrite Hget by lia. cbn [bind].
    assert (0 <= quadword_count (blk idx)) by (apply Hq; lia).
    assert (0 <= sum_from (fun i => quadword_count (blk i)) (idx + 1) n).
    { apply sum_from_nonneg. intros; apply Hq; lia. }
    rewrite sfield_small by (change (2 ^ (32 - 1)) with (2 ^ 31); lia).
    rewrite IH; [f_equal; lia | | | lia | lia].
    + intros; apply Hget; lia.
    + intros; apply Hq; lia.
Qed.

Lemma jump_backwards_sum (ctx : compiler_context) (blk : Z -> midgard_block)
  (n : nat) (idx acc : Z) :
  (forall i, idx - Z.of_nat n < i <= idx -> mir_get_block ctx i = Some (blk i)) ->
  (forall i, idx - Z.of_nat n < i <= idx -> 0 <= quadword_count (blk i)) ->
  acc < 2 ^ 31 ->
  - 2 ^ 31
  <= acc - sum_from (fun i => quadword_count (blk i)) (idx - Z.of_nat n + 1) n ->
  jump_backwards ctx n idx acc
  = Some (acc - sum_from (fun i => quadword_count (blk i))
                  (idx - Z.of_nat n + 1) n).
Proof.
  revert idx acc. induction n as [|n IH]; intros idx acc Hget Hq Hhi Hlo.
  - cbn. f_equal. lia.
  - rewrite sum_from_snoc in *.
    replace (idx - Z.of_nat (S n) + 1 + Z.of_nat n) with idx in * by lia.
    replace (idx - Z.of_nat (S n) + 1) with (idx - 1 - Z.of_nat n + 1) in *
      by lia.
    cbn [jump_backwards]. rewrite Hget by lia. cbn [bind].
    assert (0 <= quadword_count (blk idx)) by (apply Hq; lia).
    assert (0 <= sum_from (fun i => quadword_count (blk i))
                    (idx - 1 - Z.of_nat n + 1) n).
    { apply sum_from_nonneg. intros; apply Hq; lia. }
    rewrite sfield_small by (change (2 ^ (32 - 1)) with (2 ^ 31); lia).
    rewrite IH; [f_equal; lia | | | lia | lia].
    + intros; apply Hget; lia.
    + intros; apply Hq; lia.
Qed.

(** The offset of a normal branch, by the side the target is on.  The name
    of a block is an unsigned and the target an int. *)
Lemma branch_quadword_offset_forward (ctx : compiler_context)
  (ins : midgard_instruction) (block : midgard_block) :
  normal_branch ins ->
  0 <= name block < target_block (ins_branch ins) ->
  target_block (ins_branch ins) < 2 ^ 31 ->
  branch_quadword_offset ctx ins block
  = jump_forward ctx
      (Z.to_nat (target_block (ins_branch ins) - (name block + 1)))
      (name block + 1) 0.
Proof.
  intros [Nd Nt] Hn Ht. apply Z.eqb_neq in Nd, Nt.
  unfold branch_quadword_offset. rewrite Nd, Nt.
  rewrite (ufield_small 32) by (change (2 ^ 32) with (2 * 2 ^ 31); lia).
  assert ((target_block (ins_branch ins) >? name block) = true) as ->
      by (apply Z.gtb_lt; lia).
  rewrite sfield_small by (change (2 ^ (32 - 1)) with (2 ^ 31); lia).
  reflexivity.
Qed.

Lemma branch_quadword_offset_backwards (ctx : compiler_context)
  (ins : midgard_instruction) (block : midgard_block) :
  normal_branch ins ->
  0 <= target_block (ins_branch ins) <= name block ->
  name block < 2 ^ 31 ->
  branch_quadword_offset ctx ins block
  = jump_backwards ctx
      (Z.to_nat (name block - target_block (ins_branch ins) + 1))
      (name block) 0.
Proof.
  intros [Nd Nt] Ht Hn. apply Z.eqb_neq in Nd, Nt.
  unfold branch_quadword_offset. rewrite Nd, Nt.
  rewrite (ufield_small 32) by (change (2 ^ 32) with (2 * 2 ^ 31); lia).
  assert ((target_block (ins_branch ins) >? name block) = false) as ->.
  { destruct (Z.gtb_spec (target_block (ins_branch ins)) (name block));
      [lia | reflexivity]. }
  rewrite sfield_small by (change (2 ^ (32 - 1)) with (2 ^ 31); lia).
  reflexivity.
Qed.

Lemma branch_quadword_offset_negative (ctx : compiler_context)
  (ins : midgard_instruction) (block : midgard_block) :
  normal_branch ins ->
  - 2 ^ 31 <= target_block (ins_branch ins) < 0 ->
  0 <= name block < 2 ^ 31 - 1 ->
  branch_quadword_offset ctx ins block = Some 0.
Proof.
  intros [Nd Nt] Ht Hn. apply Z.eqb_neq in Nd, Nt.
  unfold branch_quadword_offset. rewrite Nd, Nt.
  assert (ufield 32 (target_block (ins_branch ins))
          = target_block (ins_branch ins) + 2 ^ 32) as ->.
  { unfold ufield. rewrite Z.land_ones by lia.
    symmetry. apply (Z.mod_unique_pos _ _ (-1)).
    - change (2 ^ 32) with (2 * 2 ^ 31). lia.
    - lia. }
  assert ((target_block (ins_branch ins) + 2 ^ 32 >? name block) = true) as ->.
  { apply Z.gtb_lt. change (2 ^ 32) with (2 * 2 ^ 31). lia. }
  rewrite sfield_small by (change (2 ^ (32 - 1)) with (2 ^ 31); lia).
  replace (Z.to_nat (target_block (ins_branch ins) - (name block + 1)))
    with 0%nat by lia.
  reflexivity.
Qed.

(** C2, as the emitter has it.  For blocks A before B (their names being
    those of an unsigned and of an int), with the blocks from A to B
    known and their lengths summing to less than 2^31, a
    normal branch from A to B has for offset the sum of the lengths of the
    blocks strictly between them, and one from B to A the negated sum of
    the lengths of the blocks from A to B, the two included.  So the
    forward offset is the negation of the backward one less the lengths of
    A and of B. *)
Theorem branch_offset_forward_backward (ctx : compiler_context)
  (ins_ab ins_ba : midgard_instruction) (block_a block_b : midgard_block)
  (blk : Z -> midgard_block) :
  let a := name block_a in
  let b := name block_b in
  let q := fun i => quadword_count (blk i) in
  0 <= a -> a < b -> b < 2 ^ 31 ->
  normal_branch ins_ab -> normal_branch ins_ba ->
  target_block (ins_branch ins_ab) = b ->
  target_block (ins_branch ins_ba) = a ->
  (forall i, a <= i <= b -> mir_get_block ctx i = Some (blk i)) ->
  (forall i, a <= i <= b -> 0 <= q i) ->
  sum_from q a (Z.to_nat (b - a + 1)) < 2 ^ 31 ->
  exists fwd bwd,
    branch_quadword_offset ctx ins_ab block_a = Some fwd
    /\ branch_quadword_offset ctx ins_ba block_b = Some bwd
    /\ fwd = sum_from q (a + 1) (Z.to_nat (b - a - 1))
    /\ bwd = - sum_from q a (Z.to_nat (b - a + 1))
    /\ fwd = - bwd - q a - q b.
Proof.
  intros a b q Ha0 Hab Hb31 Nab Nba Tab Tba Hget Hq Hsum.
  assert (sum_from q a (Z.to_nat (b - a + 1))
          = q a + sum_from q (a + 1) (Z.to_nat (b - a - 1)) + q b) as Hsplit.
  { replace (Z.to_nat (b - a + 1)) with (S (S (Z.to_nat (b - a - 1)))) by lia.
    rewrite sum_from_snoc. cbn [sum_from]. f_equal. f_equal. lia. }
  assert (0 <= q a) by (apply Hq; lia).
  assert (0 <= q b) by (apply Hq; lia).
  assert (0 <= sum_from q (a + 1) (Z.to_nat (b - a - 1))).
  { apply sum_from_nonneg. intros; apply Hq; lia. }
  exists (sum_from q (a + 1) (Z.to_nat (b - a - 1))),
         (- sum_from q a (Z.to_nat (b - a + 1))).
  split; [|split; [|split; [reflexivity|split; [reflexivity|lia]]]].
  - rewrite (branch_quadword_offset_forward ctx ins_ab block_a Nab);
      [| rewrite Tab; unfold a, b in *; lia
       | rewrite Tab; unfold a, b in *; lia].
    rewrite Tab. fold a.
    replace (b - (a + 1)) with (b - a - 1) by lia.
    rewrite (jump_forward_sum ctx blk); [reflexivity | | | lia | ].
    + intros; apply Hget; lia.
    + intros; apply (Hq i); lia.
    + fold q. lia.
  - rewrite (branch_quadword_offset_backwards ctx ins_ba block_b Nba);
      [| rewrite Tba; unfold a, b in *; lia | unfold a, b in *; lia].
    rewrite Tba. fold b.
    rewrite (jump_backwards_sum ctx blk).
    + f_equal. fold q.
      replace (b - Z.of_nat (Z.to_nat (b - a + 1)) + 1) with a by lia.
      lia.
    + intros; apply Hget; lia.
    + intros; apply (Hq i); lia.
    + lia.
    + fold q.
      replace (b - Z.of_nat (Z.to_nat (b - a + 1)) + 1) with a by lia. lia.
Qed.

(** ** Inline constants of vector words *)

Lemma vector_inline_src2 (x : Z) :
  let c := Z.land x 4095 in
  ufield VECTOR_SRC_BITS (Z.shiftl (vector_inline_imm x) 2)
  = Z.shiftl (Z.lor (Z.land (Z.shiftr c 8) 7) (Z.shiftl (Z.land c 255) 3)) 2.
Proof.
  intros c. unfold vector_inline_imm.
  change (Z.shiftl 1 12 - 1) with 4095. fold c.
  assert (0 <= c < Z.of_nat 4096) as Hc by (apply low12_range).
  revert Hc. generalize c. clear c x. intros c Hc.
  apply Z.eqb_eq.
  exact (forall_below
           (fun c =>
              ufield VECTOR_SRC_BITS
                (Z.shiftl (ufield 16 (Z.lor (Z.land (Z.shiftr c 8) 7)
                                            (Z.shiftl (Z.land c 255) 3))) 2)
              =? Z.shiftl (Z.lor (Z.land (Z.shiftr c 8) 7)
                                 (Z.shiftl (Z.land c 255) 3)) 2)
           4096 ltac:(vm_compute; reflexivity) c Hc).
Qed.

Lemma mir_pack_vector_srcs_step_src2 (ins : midgard_instruction) (i : nat)
  (alu alu' : midgard_vector_alu) :
  (ins_has_inline_constant ins = true /\ i = 1%nat) \/ i = O ->
  mir_pack_vector_srcs_step ins i alu = Some alu' ->
  v_src2 alu' = v_src2 alu.
Proof.
  intros Hi H. unfold mir_pack_vector_srcs_step in H.
  destruct Hi as [[Hc ->] | ->].
  - rewrite Hc in H. cbn in H. now injection H as <-.
  - rewrite andb_false_r in H.
    destruct (src_at ins 0 =? NO_REG); [now injection H as <-|].
    destruct (assert _); [|discriminate]. cbn [bind] in H.
    destruct (mir_pack_swizzle _ _ _ _ _ _ _) as [[[sw rl] rh]|];
      [|discriminate].
    cbn [bind] in H.
    destruct (mir_pack_mod ins 0 false); [|discriminate]. cbn [bind] in H.
    cbn in H. now injection H as <-.
Qed.

(** C10.  With an inline constant, the src2 field of the vector word is
    (((c>>8)&7) | ((c&0xFF)<<3)) << 2, c being the low 12 bits of the
    constant; packing the vector sources skips the source of index 1 and
    leaves the field as it is, so it is the src2 of the word emitted; and
    this encoding is not the one of the scalar form. *)
Theorem emit_vector_alu_inline_constant (ins : midgard_instruction) :
  ins_has_inline_constant ins = true ->
  let c := Z.land (ins_inline_constant ins) 4095 in
  let enc := Z.shiftl (Z.lor (Z.land (Z.shiftr c 8) 7)
                             (Z.shiftl (Z.land c 255) 3)) 2 in
  v_src2 (vector_alu_from_instr ins) = enc
  /\ (forall alu, mir_pack_vector_srcs_step ins 1 alu = Some alu)
  /\ (forall alu alu',
        mir_pack_vector_srcs ins alu = Some alu' -> v_src2 alu' = v_src2 alu)
  /\ (forall w, emit_vector_alu ins = Some w -> v_src2 w = enc)
  /\ (exists x, ufield VECTOR_SRC_BITS (Z.shiftl (vector_inline_imm x) 2)
                <> ufield SCALAR_SRC2_BITS (scalar_inline_imm x)).
Proof.
  intros Hic c enc.
  assert (v_src2 (vector_alu_from_instr ins) = enc) as Hfrom.
  { unfold vector_alu_from_instr. rewrite Hic. cbn [set_v_src2 v_src2].
    apply vector_inline_src2. }
  assert (forall alu alu',
             mir_pack_vector_srcs ins alu = Some alu' ->
             v_src2 alu' = v_src2 alu) as Hsrcs.
  { intros alu alu' H. unfold mir_pack_vector_srcs in H.
    destruct (mir_pack_vector_srcs_step ins 0 alu) as [alu0|] eqn:E0;
      [|discriminate].
    cbn [bind] in H.
    apply mir_pack_vector_srcs_step_src2 in E0; [|now right].
    apply mir_pack_vector_srcs_step_src2 in H; [|now left].
    congruence. }
  split; [exact Hfrom|]. split.
  { intros alu. unfold mir_pack_vector_srcs_step. rewrite Hic. reflexivity. }
  split; [exact Hsrcs|]. split.
  - intros w Hw. unfold emit_vector_alu in Hw.
    apply Hsrcs in Hw. rewrite Hw. unfold mir_pack_mask_alu.
    cbn [set_v_mask v_src2]. exact Hfrom.
  - exists 1. vm_compute. discriminate.
Qed.

End Facts.

(** * Further properties of the emitter *)

Section MoreFacts.

Context {E : Externals} {B : BundleExternals}.

(** ** Scalar demotion, continued *)

Lemma component_from_mask_loop_some (n : nat) (c0 mask c : Z) :
  0 <= c0 ->
  component_from_mask_loop n c0 mask = Some c <->
  c0 <= c < c0 + Z.of_nat n /\ Z.testbit mask c = true
  /\ forall j, c0 <= j < c -> Z.testbit mask j = false.
Proof.
  revert c0. induction n as [|n IH]; intros c0 H0.
  - cbn. split; [discriminate | lia].
  - cbn [component_from_mask_loop]. rewrite bit_set_testbit by assumption.
    destruct (Z.testbit mask c0) eqn:Eb.
    + split.
      * intros H. injection H as <-.
        split; [lia|]. split; [assumption|]. intros j Hj. lia.
      * intros (Hr & Hb & Hlow). f_equal.
        destruct (Z.eq_dec c0 c) as [|Hne]; [assumption|].
        rewrite Hlow in Eb by lia. discriminate.
    + rewrite IH by lia. split.
      * intros (Hr & Hb & Hlow).
        split; [lia|]. split; [assumption|].
        intros j Hj. destruct (Z.eq_dec j c0) as [->|]; [assumption|].
        apply Hlow. lia.
      * intros (Hr & Hb & Hlow).
        assert (c <> c0) by congruence.
        split; [lia|]. split; [assumption|].
        intros j Hj. apply Hlow. lia.
Qed.

Lemma component_from_mask_loop_none (n : nat) (c0 mask : Z) :
  0 <= c0 ->
  component_from_mask_loop n c0 mask = None <->
  forall j, c0 <= j < c0 + Z.of_nat n -> Z.testbit mask j = false.
Proof.
  revert c0. induction n as [|n IH]; intros c0 H0.
  - cbn. split; [intros _ j Hj; lia | reflexivity].
  - cbn [component_from_mask_loop]. rewrite bit_set_testbit by assumption.
    destruct (Z.testbit mask c0) eqn:Eb.
    + split; [discriminate|]. intros H. rewrite H in Eb by lia. discriminate.
    + rewrite IH by lia. split.
      * intros H j Hj. destruct (Z.eq_dec j c0) as [->|]; [assumption|].
        apply H. lia.
      * intros H j Hj. apply H. lia.
Qed.

(** X1.  component_from_mask returns the lowest lane set among lanes 0 to
    7 of the mask, and fails exactly when none of them is set. *)
Theorem component_from_mask_lowest (mask : Z) :
  (forall c,
      component_from_mask mask = Some c <->
      0 <= c < 8 /\ Z.testbit mask c = true
      /\ forall j, 0 <= j < c -> Z.testbit mask j = false)
  /\ (component_from_mask mask = None <->
      forall j, 0 <= j < 8 -> Z.testbit mask j = false).
Proof.
  split.
  - intros c. unfold component_from_mask.
    rewrite component_from_mask_loop_some by lia. reflexivity.
  - unfold component_from_mask.
    rewrite component_from_mask_loop_none by lia. reflexivity.
Qed.

(** X2.  A packed scalar source is a 6-bit value from which the three
    fields read back: the modifier in its low two bits, the full flag in
    bit 2, the component (shifted when full) in bits 3 to 5. *)
Theorem mir_pack_scalar_source_fields (m : Z) (is_full : bool) (c : Z) :
  let p := mir_pack_scalar_source m is_full c in
  0 <= p < 64
  /\ Z.land p 3 = Z.land m 3
  /\ Z.testbit p 2 = is_full
  /\ scalar_src_component p
     = Z.land (Z.shiftl c (if is_full then 1 else 0)) 7.
Proof.
  intros p. subst p.
  split; [|split; [|split]]; [| | |apply mir_pack_scalar_source_component].
  - unfold mir_pack_scalar_source. change (Z.shiftl 1 6 - 1) with (Z.ones 6).
    rewrite Z.land_ones by lia. apply Z.mod_pos_bound. reflexivity.
  - unfold mir_pack_scalar_source, scalar_alu_src_bits.
    cbn [ss_mod ss_full ss_component].
    set (x := Z.shiftl c (if is_full then 1 else 0)).
    change (Z.land m 3) with (ufield 2 m).
    pose proof (ufield_range 2 m ltac:(lia)) as Hm.
    pose proof (ufield_range 3 x ltac:(lia)) as Hx.
    change (2 ^ 2) with 4 in Hm. change (2 ^ 3) with 8 in Hx.
    revert Hm Hx. generalize (ufield 2 m) (ufield 3 x). intros a b Ha Hb.
    assert (a = 0 \/ a = 1 \/ a = 2 \/ a = 3) as Ca by lia.
    assert (b = 0 \/ b = 1 \/ b = 2 \/ b = 3 \/ b = 4 \/ b = 5 \/ b = 6 \/ b = 7)
      as Cb by lia.
    destruct is_full;
      repeat (destruct Ca as [-> | Ca]); try subst a;
      repeat (destruct Cb as [-> | Cb]); try subst b; reflexivity.
  - unfold mir_pack_scalar_source, scalar_alu_src_bits.
    cbn [ss_mod ss_full ss_component].
    set (x := Z.shiftl c (if is_full then 1 else 0)).
    pose proof (ufield_range 2 m ltac:(lia)) as Hm.
    pose proof (ufield_range 3 x ltac:(lia)) as Hx.
    change (2 ^ 2) with 4 in Hm. change (2 ^ 3) with 8 in Hx.
    revert Hm Hx. generalize (ufield 2 m) (ufield 3 x). intros a b Ha Hb.
    assert (a = 0 \/ a = 1 \/ a = 2 \/ a = 3) as Ca by lia.
    assert (b = 0 \/ b = 1 \/ b = 2 \/ b = 3 \/ b = 4 \/ b = 5 \/ b = 6 \/ b = 7)
      as Cb by lia.
    destruct is_full;
      repeat (destruct Ca as [-> | Ca]); try subst a;
      repeat (destruct Cb as [-> | Cb]); try subst b; reflexivity.
Qed.

(** X3.  mir_pack_mod never fails for a float operation and gives there
    the absolute-value flag in bit 0 and the negate flag in bit 1; whatever
    the operation, a modifier it returns is a two-bit value. *)
Theorem mir_pack_mod_two_bits (ins : midgard_instruction) (i : nat)
  (scalar : bool) :
  (midgard_is_integer_op (ins_op ins) = false ->
   mir_pack_mod ins i scalar
   = Some (Z.b2z (flag_at (ins_src_abs ins) i)
           + 2 * Z.b2z (flag_at (ins_src_neg ins) i)))
  /\ (forall m, mir_pack_mod ins i scalar = Some m -> 0 <= m < 4).
Proof.
  split.
  - intros Hf. unfold mir_pack_mod. rewrite Hf.
    destruct (flag_at (ins_src_abs ins) i), (flag_at (ins_src_neg ins) i);
      reflexivity.
  - intros m. unfold mir_pack_mod.
    destruct (midgard_is_integer_op (ins_op ins)).
    + rewrite mir_get_imod_cases.
      destruct (_ =? Z.shiftr _ 1), (flag_at (ins_src_shift ins) i), scalar;
        try discriminate;
        try destruct (_ =? nir_type_int);
        intros H; injection H as <-; cbv; split; congruence.
    + destruct (flag_at (ins_src_abs ins) i), (flag_at (ins_src_neg ins) i);
        intros H; injection H as <-; cbv; split; congruence.
Qed.

(** X4.  vector_to_scalar_alu fails in exactly three ways: the mask has no
    lane among lanes 0 to 7, the modifier of one of the two sources fails,
    or the destination is 32 bits wide and the lane is 4 or more.  A word
    it returns has fields within their widths. *)
Theorem vector_to_scalar_alu_failure (v : midgard_vector_alu)
  (ins : midgard_instruction) :
  (vector_to_scalar_alu v ins = None <->
   component_from_mask (ins_mask ins) = None
   \/ mir_pack_mod ins 0 true = None
   \/ mir_pack_mod ins 1 true = None
   \/ (nir_alu_type_get_type_size (ins_dest_type ins) = 32
       /\ exists c, component_from_mask (ins_mask ins) = Some c /\ 4 <= c))
  /\ (forall s, vector_to_scalar_alu v ins = Some s ->
        0 <= s_src1 s < 2 ^ 6 /\ 0 <= s_src2 s < 2 ^ 11
        /\ 0 <= s_output_component s < 2 ^ 3 /\ s_unknown s = 0).
Proof.
  split.
  - unfold vector_to_scalar_alu.
    destruct (component_from_mask (ins_mask ins)) as [c|] eqn:Ec; cbn [bind];
      [|split; auto].
    assert (0 <= c < 8) as Hc.
    { unfold component_from_mask in Ec.
      apply component_from_mask_loop_some in Ec; [|lia]. cbn in Ec. tauto. }
    assert (ufield SCALAR_OUTPUT_COMPONENT_BITS c = c) as Hu.
    { apply ufield_small; [unfold SCALAR_OUTPUT_COMPONENT_BITS; lia|].
      change (2 ^ SCALAR_OUTPUT_COMPONENT_BITS) with 8. lia. }
    destruct (mir_pack_mod ins 0 true) as [m0|]; cbn [bind]; [|split; auto].
    destruct (mir_pack_mod ins 1 true) as [m1|]; cbn [bind]; [|split; auto].
    cbn [s_output_component]. rewrite Hu.
    destruct (Z.eqb_spec (nir_alu_type_get_type_size (ins_dest_type ins)) 32)
      as [E32|N32].
    + destruct (Z.ltb_spec c 4) as [Hlt|Hge]; cbn [assert bind].
      * split.
        -- destruct (ins_has_inline_constant ins); discriminate.
        -- intros [H | [H | [H | (_ & c' & Hc' & Hge)]]]; try discriminate.
           injection Hc' as <-. lia.
      * split; [|reflexivity]. intros _. right. right. right.
        split; [assumption|]. exists c. split; [reflexivity | assumption].
    + cbn [bind]. split.
      * destruct (ins_has_inline_constant ins); discriminate.
      * intros [H | [H | [H | (H32 & _)]]]; try discriminate. contradiction.
  - intros s Hs.
    destruct (vector_to_scalar_alu_fields v ins s Hs)
      as (comp & m0 & m1 & _ & _ & _ & _ & _ & Hunk & _ & H1 & H2 & Hoc & _).
    rewrite H1, H2, Hoc. repeat split; try assumption;
      try (destruct (ins_has_inline_constant ins));
      try (destruct (_ =? 32));
      first [ apply (ufield_range SCALAR_SRC1_BITS); discriminate
            | apply (ufield_range SCALAR_SRC2_BITS); discriminate
            | apply (ufield_range SCALAR_OUTPUT_COMPONENT_BITS); discriminate ].
Qed.

(** ** Inline constants, read back *)

Lemma low11_of_low12 (x : Z) : Z.land (Z.land x 4095) 2047 = Z.land x 2047.
Proof. rewrite <- Z.land_assoc. reflexivity. Qed.

Lemma scalar_imm_low11_inverse (x : Z) :
  scalar_imm_low11 (ufield SCALAR_SRC2_BITS (scalar_inline_imm x))
  = Z.land x 2047.
Proof.
  rewrite scalar_inline_imm_eq. cbv zeta. rewrite <- low11_of_low12.
  assert (0 <= Z.land x 4095 < Z.of_nat 4096) as Hc by (apply low12_range).
  revert Hc. generalize (Z.land x 4095). intros c Hc.
  apply Z.eqb_eq.
  exact (forall_below
           (fun c =>
              scalar_imm_low11
                (ufield SCALAR_SRC2_BITS
                   (Z.lor (Z.land (Z.shiftr c 9) 3)
                     (Z.lor (Z.land (Z.shiftr c 6) 4)
                       (Z.lor (Z.land (Z.shiftr c 2) 56)
                              (Z.shiftl (Z.land c 63) 6)))))
              =? Z.land c 2047)
           4096 ltac:(vm_compute; reflexivity) c Hc).
Qed.

Lemma vector_imm_low11_inverse (x : Z) :
  let f := ufield VECTOR_SRC_BITS (Z.shiftl (vector_inline_imm x) 2) in
  vector_imm_low11 f = Z.land x 2047 /\ Z.land f 3 = 0.
Proof.
  cbv zeta. rewrite vector_inline_src2. cbv zeta.
  rewrite <- low11_of_low12.
  assert (0 <= Z.land x 4095 < Z.of_nat 4096) as Hc by (apply low12_range).
  revert Hc. generalize (Z.land x 4095). intros c Hc.
  pose proof (forall_below
           (fun c =>
              let f := Z.shiftl (Z.lor (Z.land (Z.shiftr c 8) 7)
                                       (Z.shiftl (Z.land c 255) 3)) 2 in
              (vector_imm_low11 f =? Z.land c 2047) && (Z.land f 3 =? 0))
           4096 ltac:(vm_compute; reflexivity) c Hc) as H.
  cbv zeta in H. apply andb_prop in H. destruct H as [H1 H2].
  apply Z.eqb_eq in H1, H2. split; assumption.
Qed.

(** X5.  The src2 field of a scalar word carries bits 0 to 10 of the
    inline constant without loss: they read back from it, so two constants
    with the same field agree on these bits. *)
Theorem vector_to_scalar_alu_inline_low11 (v : midgard_vector_alu)
  (ins : midgard_instruction) (s : midgard_scalar_alu) :
  ins_has_inline_constant ins = true ->
  vector_to_scalar_alu v ins = Some s ->
  scalar_imm_low11 (s_src2 s) = Z.land (ins_inline_constant ins) 2047
  /\ forall v' ins' s',
       ins_has_inline_constant ins' = true ->
       vector_to_scalar_alu v' ins' = Some s' ->
       s_src2 s' = s_src2 s ->
       Z.land (ins_inline_constant ins') 2047
       = Z.land (ins_inline_constant ins) 2047.
Proof.
  assert (forall v ins s,
             ins_has_inline_constant ins = true ->
             vector_to_scalar_alu v ins = Some s ->
             scalar_imm_low11 (s_src2 s)
             = Z.land (ins_inline_constant ins) 2047) as Hback.
  { intros v0 ins0 s0 Hic Hs.
    destruct (vector_to_scalar_alu_fields v0 ins0 s0 Hs)
      as (comp & m0 & m1 & _ & _ & _ & _ & _ & _ & _ & _ & H2 & _).
    rewrite Hic in H2. rewrite H2. apply scalar_imm_low11_inverse. }
  intros Hic Hs. split; [now apply (Hback v)|].
  intros v' ins' s' Hic' Hs' Heq.
  rewrite <- (Hback v' ins' s' Hic' Hs'), <- (Hback v ins s Hic Hs).
  now rewrite Heq.
Qed.

(** X6.  The src2 field vector_alu_from_instr sets for an inline constant
    has its two low bits clear and carries bits 0 to 10 of the constant
    without loss; bit 11 of the constant does not enter it. *)
Theorem vector_alu_from_instr_inline_low11 (ins : midgard_instruction) :
  ins_has_inline_constant ins = true ->
  let f := v_src2 (vector_alu_from_instr ins) in
  vector_imm_low11 f = Z.land (ins_inline_constant ins) 2047
  /\ Z.land f 3 = 0
  /\ 0 <= f < 2 ^ 13.
Proof.
  intros Hic f. subst f. unfold vector_alu_from_instr. rewrite Hic.
  cbn [set_v_src2 v_src2].
  destruct (vector_imm_low11_inverse (ins_inline_constant ins)) as [H1 H2].
  split; [exact H1|]. split; [exact H2|].
  apply (ufield_range VECTOR_SRC_BITS). discriminate.
Qed.

(** ** Swizzle packing, continued *)

(** X7.  mir_pack_swizzle_64 fails exactly when one of the two components
    exceeds the bound it is given (a component equal to the bound passes);
    the byte it returns has the nibble of the first component below the
    nibble of the second, each nibble telling only whether its component
    is odd. *)
Theorem mir_pack_swizzle_64_value (swizzle : list Z) (max_component : Z) :
  (mir_pack_swizzle_64 swizzle max_component = None <->
   max_component < swz swizzle 0 \/ max_component < swz swizzle 1)
  /\ (forall packed,
        mir_pack_swizzle_64 swizzle max_component = Some packed ->
        packed = swizzle_64_nibble (swz swizzle 0)
                 + 16 * swizzle_64_nibble (swz swizzle 1)).
Proof.
  unfold mir_pack_swizzle_64, mir_pack_swizzle_64_step.
  rewrite !any_set_1, !Z.bit0_odd.
  destruct (Z.leb_spec (swz swizzle 0) max_component) as [H0|H0];
    cbn [assert bind].
  - destruct (Z.leb_spec (swz swizzle 1) max_component) as [H1|H1];
      cbn [assert bind].
    + split; [split; [discriminate | lia]|].
      intros packed H. injection H as <-. unfold swizzle_64_nibble.
      destruct (Z.odd (swz swizzle 0)), (Z.odd (swz swizzle 1)); reflexivity.
    + split; [split; [right; lia | reflexivity]|]. discriminate.
  - split; [split; [left; lia | reflexivity]|]. discriminate.
Qed.

Lemma mir_pack_swizzle_loop_step (n : nat) (c mask : Z) (swizzle : list Z)
  (upper : bool) (packed : Z) :
  mir_pack_swizzle_loop (S n) c mask swizzle upper packed
  = if lane_ok mask swizzle upper c
    then mir_pack_swizzle_loop n (c + 1) mask swizzle upper
           (Z.lor packed (Z.shiftl (Z.land (swz swizzle c) 3) (2 * (c mod 4))))
    else None.
Proof.
  cbn [mir_pack_swizzle_loop]. unfold lane_ok.
  destruct (bit_set mask c); cbn [negb orb bind]; [|reflexivity].
  destruct (Bool.eqb (swz swizzle c >? 3) upper); cbn [assert bind andb];
    [|reflexivity].
  destruct (swz swizzle c <=? 7); reflexivity.
Qed.

Lemma pack_four_slots (a0 a1 a2 a3 : Z) :
  0 <= a0 < 4 -> 0 <= a1 < 4 -> 0 <= a2 < 4 -> 0 <= a3 < 4 ->
  let p := Z.lor (Z.lor (Z.lor (Z.lor 0 (Z.shiftl a0 0)) (Z.shiftl a1 2))
                        (Z.shiftl a2 4)) (Z.shiftl a3 6) in
  0 <= p < 256
  /\ swizzle_slot p 0 = a0 /\ swizzle_slot p 1 = a1
  /\ swizzle_slot p 2 = a2 /\ swizzle_slot p 3 = a3.
Proof.
  intros H0 H1 H2 H3.
  assert (forall a, 0 <= a < 4 -> a = 0 \/ a = 1 \/ a = 2 \/ a = 3) as Hc
      by (intros; lia).
  destruct (Hc a0 H0) as [-> | [-> | [-> | ->]]];
    destruct (Hc a1 H1) as [-> | [-> | [-> | ->]]];
    destruct (Hc a2 H2) as [-> | [-> | [-> | ->]]];
    destruct (Hc a3 H3) as [-> | [-> | [-> | ->]]];
    cbv; repeat split; congruence.
Qed.

Lemma land_3_range (x : Z) : 0 <= Z.land x 3 < 4.
Proof. exact (ufield_range 2 x ltac:(lia)). Qed.

Lemma mir_pack_swizzle_loop_four (b mask : Z) (swizzle : list Z)
  (upper : bool) (packed : Z) :
  b = 0 \/ b = 4 ->
  mir_pack_swizzle_loop 4 b mask swizzle upper 0 = Some packed ->
  (forall k, 0 <= k < 4 -> lane_ok mask swizzle upper (b + k) = true)
  /\ 0 <= packed < 256
  /\ (forall k, 0 <= k < 4 ->
        swizzle_slot packed k = Z.land (swz swizzle (b + k)) 3).
Proof.
  intros Hb H.
  rewrite !mir_pack_swizzle_loop_step in H.
  destruct (lane_ok mask swizzle upper b) eqn:L0; [|discriminate].
  destruct (lane_ok mask swizzle upper (b + 1)) eqn:L1; [|discriminate].
  destruct (lane_ok mask swizzle upper (b + 1 + 1)) eqn:L2; [|discriminate].
  destruct (lane_ok mask swizzle upper (b + 1 + 1 + 1)) eqn:L3;
    [|discriminate].
  cbn [mir_pack_swizzle_loop] in H. injection H as <-.
  assert (b mod 4 = 0 /\ (b + 1) mod 4 = 1 /\ (b + 1 + 1) mod 4 = 2
          /\ (b + 1 + 1 + 1) mod 4 = 3) as (M0 & M1 & M2 & M3)
      by (destruct Hb as [-> | ->]; repeat split; reflexivity).
  rewrite M0, M1, M2, M3.
  change (2 * 0) with 0. change (2 * 1) with 2. change (2 * 2) with 4.
  change (2 * 3) with 6.
  destruct (pack_four_slots _ _ _ _ (land_3_range (swz swizzle b))
              (land_3_range (swz swizzle (b + 1)))
              (land_3_range (swz swizzle (b + 1 + 1)))
              (land_3_range (swz swizzle (b + 1 + 1 + 1))))
    as (Hr & S0 & S1 & S2 & S3).
  assert (forall k, 0 <= k < 4 -> k = 0 \/ k = 1 \/ k = 2 \/ k = 3) as Hk
      by (intros; lia).
  split; [|split; [exact Hr|]].
  - intros k Hr'. destruct (Hk k Hr') as [-> | [-> | [-> | ->]]].
    + now rewrite Z.add_0_r.
    + assumption.
    + now replace (b + 2) with (b + 1 + 1) by lia.
    + now replace (b + 3) with (b + 1 + 1 + 1) by lia.
  - intros k Hr'. destruct (Hk k Hr') as [-> | [-> | [-> | ->]]].
    + now rewrite Z.add_0_r.
    + assumption.
    + now replace (b + 2) with (b + 1 + 1) by lia.
    + now replace (b + 3) with (b + 1 + 1 + 1) by lia.
Qed.

(** Below 64-bit mode, a packing that returns went through the loop. *)
Lemma mir_pack_swizzle_sub64 (mask : Z) (swizzle : list Z) (T : Z)
  (reg_mode : midgard_reg_mode) (op_channeled rep_low rep_high : bool)
  (packed : Z) (rl rh : bool) :
  reg_mode <> midgard_reg_mode_64 ->
  mir_pack_swizzle mask swizzle T reg_mode op_channeled rep_low rep_high
  = Some (packed, rl, rh) ->
  let sz := nir_alu_type_get_type_size T in
  let upper := swz swizzle (swizzle_first mask) >? 3 in
  mir_pack_swizzle_loop 4 (swizzle_base mask op_channeled) mask swizzle
    upper 0 = Some packed
  /\ (upper = true -> mask <> 0 -> sz <= 16)
  /\ ((reg_mode = midgard_reg_mode_16 /\ sz = 16
       /\ rl = negb upper /\ rh = upper)
      \/ (reg_mode = midgard_reg_mode_16 /\ sz = 8
          /\ rl = upper /\ rh = upper)
      \/ (reg_mode = midgard_reg_mode_32 /\ rl = upper /\ rh = rep_high)).
Proof.
  intros Hmode H sz upper. unfold mir_pack_swizzle in H.
  assert (reg_mode_eqb reg_mode midgard_reg_mode_64 = false) as E64
      by (destruct reg_mode; try reflexivity; congruence).
  rewrite E64 in H. fold (swizzle_first mask) in H. fold sz upper in H.
  assert ((if negb op_channeled && (swizzle_first mask >=? 4) then 4 else 0)
          = swizzle_base mask op_channeled) as Eb by reflexivity.
  rewrite Eb in H.
  destruct (upper && negb (mask =? 0)) eqn:Eu.
  - destruct (Z.leb_spec sz 16) as [Hle|Hgt]; cbn [assert bind] in H;
      [|discriminate].
    destruct (mir_pack_swizzle_loop 4 _ mask swizzle upper 0) as [p|];
      [|discriminate].
    cbn [bind] in H. split; [|split; [intros; assumption|]].
    + destruct reg_mode; cbn in H; try discriminate;
        destruct (sz =? 16); try destruct (sz =? 8); try discriminate;
        now inversion H.
    + destruct reg_mode; cbn in H; try discriminate; try congruence.
      * destruct (Z.eqb_spec sz 16); [left; inversion H; auto|].
        destruct (Z.eqb_spec sz 8); [|discriminate].
        right; left; inversion H; auto.
      * right; right; inversion H; auto.
  - cbn [bind] in H.
    destruct (mir_pack_swizzle_loop 4 _ mask swizzle upper 0) as [p|];
      [|discriminate].
    cbn [bind] in H. split; [|split].
    + destruct reg_mode; cbn in H; try discriminate;
        destruct (sz =? 16); try destruct (sz =? 8); try discriminate;
        now inversion H.
    + intros Hu Hm. rewrite Hu in Eu. apply Z.eqb_neq in Hm.
      rewrite Hm in Eu. discriminate.
    + destruct reg_mode; cbn in H; try discriminate; try congruence.
      * destruct (Z.eqb_spec sz 16); [left; inversion H; auto|].
        destruct (Z.eqb_spec sz 8); [|discriminate].
        right; left; inversion H; auto.
      * right; right; inversion H; auto.
Qed.

Lemma swizzle_base_cases (mask : Z) (op_channeled : bool) :
  swizzle_base mask op_channeled = 0 \/ swizzle_base mask op_channeled = 4.
Proof.
  unfold swizzle_base.
  destruct (negb op_channeled && (swizzle_first mask >=? 4)); auto.
Qed.

(** X8.  Below 64-bit mode, the packed swizzle is a byte whose slot k, of
    two bits, is the low two bits of the component of lane base + k, base
    being 4 when the operation is not channeled and the first active lane
    is 4 or more, and 0 otherwise: this for every lane of the four, active
    or not. *)
Theorem mir_pack_swizzle_slots (mask : Z) (swizzle : list Z) (T : Z)
  (reg_mode : midgard_reg_mode) (op_channeled rep_low rep_high : bool)
  (packed : Z) (rl rh : bool) :
  reg_mode <> midgard_reg_mode_64 ->
  mir_pack_swizzle mask swizzle T reg_mode op_channeled rep_low rep_high
  = Some (packed, rl, rh) ->
  0 <= packed < 256
  /\ forall k, 0 <= k < 4 ->
       swizzle_slot packed k
       = Z.land (swz swizzle (swizzle_base mask op_channeled + k)) 3.
Proof.
  intros Hmode H.
  destruct (mir_pack_swizzle_sub64 _ _ _ _ _ _ _ _ _ _ Hmode H)
    as (Hloop & _ & _).
  destruct (mir_pack_swizzle_loop_four _ _ _ _ _
              (swizzle_base_cases mask op_channeled) Hloop)
    as (_ & Hr & Hs).
  split; assumption.
Qed.

(** X9.  Below 64-bit mode, a packing that returns has found every active
    lane of the four it scans with a component of 7 at most, in the same
    half (above 3 or not) as the component of the first active lane of the
    mask; and with a non-empty mask that half is the upper one only for
    types of 16 bits or less.  So a swizzle mixing halves over the active
    lanes scanned, or reaching past component 7, or reading the upper half
    of a 32-bit type, fails. *)
Theorem mir_pack_swizzle_lanes (mask : Z) (swizzle : list Z) (T : Z)
  (reg_mode : midgard_reg_mode) (op_channeled rep_low rep_high : bool)
  (packed : Z) (rl rh : bool) :
  reg_mode <> midgard_reg_mode_64 ->
  mir_pack_swizzle mask swizzle T reg_mode op_channeled rep_low rep_high
  = Some (packed, rl, rh) ->
  let upper := swz swizzle (swizzle_first mask) >? 3 in
  (forall k, 0 <= k < 4 ->
     let c := swizzle_base mask op_channeled + k in
     Z.testbit mask c = true ->
     swz swizzle c <= 7 /\ (swz swizzle c >? 3) = upper)
  /\ (mask <> 0 -> upper = true -> nir_alu_type_get_type_size T <= 16).
Proof.
  intros Hmode H upper.
  destruct (mir_pack_swizzle_sub64 _ _ _ _ _ _ _ _ _ _ Hmode H)
    as (Hloop & Hup & _).
  destruct (mir_pack_swizzle_loop_four _ _ _ _ _
              (swizzle_base_cases mask op_channeled) Hloop)
    as (Hok & _ & _).
  split; [|intros Hm Hu; now apply Hup].
  intros k Hk c Hbit. specialize (Hok k Hk). fold c in Hok.
  unfold lane_ok in Hok.
  assert (0 <= c).
  { subst c. destruct (swizzle_base_cases mask op_channeled) as [-> | ->]; lia. }
  rewrite bit_set_testbit, Hbit in Hok by assumption. cbn in Hok.
  apply andb_prop in Hok. destruct Hok as [Hh H7].
  apply Bool.eqb_prop in Hh. apply Z.leb_le in H7. split; assumption.
Qed.

(** X10.  mir_pack_swizzle supports three pairings of register mode and
    type size below 64-bit mode, with these flags: 16-bit mode over 16-bit
    elements, where rep_low and rep_high are opposite; 16-bit mode over
    8-bit elements, where they are equal; 32-bit mode, where rep_high is
    left as it was.  In 64-bit mode the type has 32 or 64 bits.  Nothing
    packs in 8-bit mode. *)
Theorem mir_pack_swizzle_modes (mask : Z) (swizzle : list Z) (T : Z)
  (reg_mode : midgard_reg_mode) (op_channeled rep_low rep_high : bool)
  (packed : Z) (rl rh : bool) :
  mir_pack_swizzle mask swizzle T reg_mode op_channeled rep_low rep_high
  = Some (packed, rl, rh) ->
  let sz := nir_alu_type_get_type_size T in
  (reg_mode = midgard_reg_mode_64 /\ (sz = 32 \/ sz = 64) /\ rh = rep_high)
  \/ (reg_mode = midgard_reg_mode_16 /\ sz = 16 /\ rl = negb rh)
  \/ (reg_mode = midgard_reg_mode_16 /\ sz = 8 /\ rl = rh)
  \/ (reg_mode = midgard_reg_mode_32 /\ rh = rep_high).
Proof.
  intros H sz.
  destruct (reg_mode_code reg_mode =? 3) eqn:E64.
  - left. assert (reg_mode = midgard_reg_mode_64) as ->
        by (destruct reg_mode; try discriminate; reflexivity).
    unfold mir_pack_swizzle in H.
    cbn [reg_mode_eqb reg_mode_code Z.eqb Pos.eqb] in H. fold sz in H.
    destruct (Z.eqb_spec sz 64) as [Y64|N64]; destruct (Z.eqb_spec sz 32)
      as [Y32|N32]; cbn [orb assert bind] in H; try discriminate;
      (destruct (mir_pack_swizzle_64 swizzle _); [|discriminate]);
      cbn [bind] in H.
    + lia.
    + split; [reflexivity|]. split; [auto|].
      destruct (sz <? 32); [discriminate|]. now inversion H.
    + split; [reflexivity|]. split; [auto|].
      destruct (any_set mask 1).
      * destruct (any_set mask 2); [destruct (Bool.eqb _ _);
                                    [|discriminate]|]; now inversion H.
      * now inversion H.
  - right.
    assert (reg_mode <> midgard_reg_mode_64) as Hmode
        by (intros ->; discriminate).
    destruct (mir_pack_swizzle_sub64 _ _ _ _ _ _ _ _ _ _ Hmode H)
      as (_ & _ & [(-> & Hs & -> & ->) | [(-> & Hs & -> & ->) | (-> & _ & ->)]]).
    + left. auto.
    + right. left. auto.
    + right. right. auto.
Qed.

(** ** Load/store masks and inverted sources, continued *)

(** X11.  mir_pack_ldst_mask returns exactly for 64-bit and 32-bit
    destinations and for 16-bit destinations whose mask has its four bit
    pairs duplicated; any other size fails the assertion.  When it returns,
    the mask it stores is below 16 and nothing else of the instruction has
    changed. *)
Theorem mir_pack_ldst_mask_returns (ins : midgard_instruction) :
  let sz := nir_alu_type_get_type_size (ins_dest_type ins) in
  (mir_pack_ldst_mask ins <> None <->
   sz = 64 \/ sz = 32
   \/ (sz = 16
       /\ forall i, 0 <= i < 4 ->
            Z.testbit (ins_mask ins) (2 * i)
            = Z.testbit (ins_mask ins) (2 * i + 1)))
  /\ (forall ins', mir_pack_ldst_mask ins = Some ins' ->
        0 <= ins_load_store_mask ins' < 16
        /\ ins' = set_load_store_mask ins (ins_load_store_mask ins')).
Proof.
  intros sz. split.
  - unfold mir_pack_ldst_mask. fold sz.
    destruct (Z.eqb_spec sz 64) as [E64|N64]; cbn [bind].
    { split; [auto | discriminate]. }
    destruct (Z.eqb_spec sz 16) as [E16|N16].
    + rewrite mir_pack_ldst_mask_loop_eq.
      set (m := ins_mask ins).
      destruct (Bool.eqb (Z.testbit m 0) (Z.testbit m 1)) eqn:P0;
        [destruct (Bool.eqb (Z.testbit m 2) (Z.testbit m 3)) eqn:P1;
         [destruct (Bool.eqb (Z.testbit m 4) (Z.testbit m 5)) eqn:P2;
          [destruct (Bool.eqb (Z.testbit m 6) (Z.testbit m 7)) eqn:P3|]|]|];
        cbn [andb bind].
      * split; [|discriminate]. intros _. right. right.
        split; [assumption|]. intros i Hi.
        apply Bool.eqb_prop in P0, P1, P2, P3.
        assert (i = 0 \/ i = 1 \/ i = 2 \/ i = 3) as [-> | [-> | [-> | ->]]]
            by lia; assumption.
      * split; [congruence|]. intros [? | [? | [_ Hd]]]; try lia.
        specialize (Hd 3 ltac:(lia)). apply Bool.eqb_false_iff in P3.
        contradiction.
      * split; [congruence|]. intros [? | [? | [_ Hd]]]; try lia.
        specialize (Hd 2 ltac:(lia)). apply Bool.eqb_false_iff in P2.
        contradiction.
      * split; [congruence|]. intros [? | [? | [_ Hd]]]; try lia.
        specialize (Hd 1 ltac:(lia)). apply Bool.eqb_false_iff in P1.
        contradiction.
      * split; [congruence|]. intros [? | [? | [_ Hd]]]; try lia.
        specialize (Hd 0 ltac:(lia)). apply Bool.eqb_false_iff in P0.
        contradiction.
    + destruct (Z.eqb_spec sz 32) as [E32|N32]; cbn [assert bind].
      * split; [auto | discriminate].
      * split; [congruence|]. intros [? | [? | [? _]]]; lia.
  - intros ins' H. unfold mir_pack_ldst_mask in H.
    destruct (if sz =? 64 then _ else _) as [p|]; [|discriminate].
    cbn [bind] in H. injection H as <-. cbn [ins_load_store_mask].
    split; [|reflexivity].
    apply (ufield_range LDST_MASK_BITS). discriminate.
Qed.

Lemma set_op_same (ins : midgard_instruction) : set_op ins (ins_op ins) = ins.
Proof. destruct ins. reflexivity. Qed.

(** X12.  mir_lower_inverts changes the opcode only: the invert flags stay
    set on the instruction.  When none of the five opcodes it produces is
    one of the three it rewrites, lowering a second time changes nothing. *)
Theorem mir_lower_inverts_frame (ins : midgard_instruction) :
  mir_lower_inverts ins = set_op ins (ins_op (mir_lower_inverts ins))
  /\ ins_src_invert (mir_lower_inverts ins) = ins_src_invert ins
  /\ ((forall o, In o [midgard_alu_op_inor; midgard_alu_op_iandnot;
                      midgard_alu_op_inand; midgard_alu_op_iornot;
                      midgard_alu_op_inxor] ->
                 o <> midgard_alu_op_iand /\ o <> midgard_alu_op_ior
                 /\ o <> midgard_alu_op_ixor) ->
      mir_lower_inverts (mir_lower_inverts ins) = mir_lower_inverts ins).
Proof.
  assert (mir_lower_inverts ins = set_op ins (ins_op (mir_lower_inverts ins)))
    as Hframe.
  { unfold mir_lower_inverts.
    destruct (ins_op ins =? midgard_alu_op_iand);
      [|destruct (ins_op ins =? midgard_alu_op_ior);
        [|destruct (ins_op ins =? midgard_alu_op_ixor)]];
      destruct (flag_at (ins_src_invert ins) 0),
        (flag_at (ins_src_invert ins) 1);
      cbn [andb xorb]; first [reflexivity | symmetry; apply set_op_same]. }
  assert (ins_op (mir_lower_inverts ins) = ins_op ins
          \/ In (ins_op (mir_lower_inverts ins))
               [midgard_alu_op_inor; midgard_alu_op_iandnot;
                midgard_alu_op_inand; midgard_alu_op_iornot;
                midgard_alu_op_inxor]) as Hcases.
  { unfold mir_lower_inverts.
    destruct (ins_op ins =? midgard_alu_op_iand);
      [|destruct (ins_op ins =? midgard_alu_op_ior);
        [|destruct (ins_op ins =? midgard_alu_op_ixor)]];
      destruct (flag_at (ins_src_invert ins) 0),
        (flag_at (ins_src_invert ins) 1);
      cbn [andb xorb set_op ins_op In]; tauto. }
  split; [exact Hframe|]. split; [now rewrite Hframe|].
  intros Hnot. destruct Hcases as [Hsame|Hin].
  - rewrite Hsame, set_op_same in Hframe. now rewrite !Hframe.
  - destruct (Hnot _ Hin) as (Ha & Ho & Hx).
    rewrite Hframe at 1. unfold mir_lower_inverts at 1.
    cbn [set_op ins_op]. apply Z.eqb_neq in Ha, Ho, Hx.
    rewrite Ha, Ho, Hx. symmetry. exact Hframe.
Qed.

(** ** Branches, continued *)

Lemma sfield_range (w v : Z) :
  0 < w -> - 2 ^ (w - 1) <= sfield w v < 2 ^ (w - 1).
Proof.
  intros Hw. unfold sfield.
  assert (2 ^ w = 2 * 2 ^ (w - 1)) as Hp.
  { replace w with (Z.succ (w - 1)) at 1 by lia. apply Z.pow_succ_r. lia. }
  assert (0 < 2 ^ (w - 1)) by (apply Z.pow_pos_nonneg; lia).
  pose proof (Z.mod_pos_bound (v + 2 ^ (w - 1)) (2 ^ w) ltac:(lia)). lia.
Qed.

Lemma sfield_congruent (w v : Z) :
  0 < w -> exists k, sfield w v = v + k * 2 ^ w.
Proof.
  intros Hw. unfold sfield.
  assert (0 < 2 ^ w) by (apply Z.pow_pos_nonneg; lia).
  exists (- ((v + 2 ^ (w - 1)) / 2 ^ w)).
  pose proof (Z.div_mod (v + 2 ^ (w - 1)) (2 ^ w) ltac:(lia)). lia.
Qed.

Lemma sfield_exact_iff (w v : Z) :
  0 < w -> sfield w v = v <-> - 2 ^ (w - 1) <= v < 2 ^ (w - 1).
Proof.
  intros Hw. split.
  - intros <-. now apply sfield_range.
  - now apply sfield_small.
Qed.

(** X13.  A normal branch to the block that follows has offset 0 and reads
    no block; a normal branch to the start of its own block has for offset
    minus the length of that block.  (The name of the block and the one
    after it are non-negative ints.) *)
Theorem branch_offset_next_and_self (ctx : compiler_context)
  (ins : midgard_instruction) (block : midgard_block) :
  normal_branch ins ->
  0 <= name block < 2 ^ 31 - 1 ->
  (target_block (ins_branch ins) = name block + 1 ->
   branch_quadword_offset ctx ins block = Some 0)
  /\ (forall blk,
        target_block (ins_branch ins) = name block ->
        mir_get_block ctx (name block) = Some blk ->
        0 <= quadword_count blk <= 2 ^ 31 ->
        branch_quadword_offset ctx ins block = Some (- quadword_count blk)).
Proof.
  intros Hn Hname. split.
  - intros Ht.
    rewrite (branch_quadword_offset_forward ctx ins block Hn);
      [| rewrite Ht; lia | rewrite Ht; lia].
    rewrite Ht.
    replace (name block + 1 - (name block + 1)) with 0 by lia. reflexivity.
  - intros blk Ht Hget Hq.
    rewrite (branch_quadword_offset_backwards ctx ins block Hn);
      [| rewrite Ht; lia | lia].
    rewrite Ht.
    replace (name block - name block + 1) with 1 by lia.
    change (Z.to_nat 1) with 1%nat. cbn [jump_backwards].
    rewrite Hget. cbn [bind]. f_equal. apply sfield_small; [lia|].
    change (2 ^ (32 - 1)) with (2 ^ 31). lia.
Qed.

Lemma jump_forward_missing (ctx : compiler_context) (n : nat) (idx acc i : Z) :
  idx <= i < idx + Z.of_nat n ->
  mir_get_block ctx i = None ->
  jump_forward ctx n idx acc = None.
Proof.
  revert idx acc. induction n as [|n IH]; intros idx acc Hi Hnone; [lia|].
  cbn [jump_forward].
  destruct (mir_get_block ctx idx) as [blk|] eqn:Eb; [|reflexivity].
  cbn [bind]. apply IH; [|assumption].
  destruct (Z.eq_dec i idx) as [->|]; [congruence | lia].
Qed.

Lemma jump_backwards_missing (ctx : compiler_context) (n : nat)
  (idx acc i : Z) :
  idx - Z.of_nat n < i <= idx ->
  mir_get_block ctx i = None ->
  jump_backwards ctx n idx acc = None.
Proof.
  revert idx acc. induction n as [|n IH]; intros idx acc Hi Hnone; [lia|].
  cbn [jump_backwards].
  destruct (mir_get_block ctx idx) as [blk|] eqn:Eb; [|reflexivity].
  cbn [bind]. apply IH; [|assumption].
  destruct (Z.eq_dec i idx) as [->|]; [congruence | lia].
Qed.

(** X14.  A normal branch is not emitted when a block it jumps over is
    missing: a block strictly between the current block and the target for
    a jump forward, a block from the target, which is not negative, to the
    current block, both included, for a jump backwards.  A negative target
    is no jump backwards: compared as an unsigned it is above every block,
    no block is read and the offset is 0. *)
Theorem emit_branch_missing_block (ins : midgard_instruction)
  (ctx : compiler_context) (block : midgard_block) (bundle : midgard_bundle)
  (i : Z) :
  normal_branch ins ->
  0 <= name block < 2 ^ 31 - 1 ->
  - 2 ^ 31 <= target_block (ins_branch ins) < 2 ^ 31 ->
  (mir_get_block ctx i = None ->
   name block < i < target_block (ins_branch ins)
   \/ (0 <= target_block (ins_branch ins)
       /\ target_block (ins_branch ins) <= i <= name block) ->
   branch_quadword_offset ctx ins block = None
   /\ emit_branch ins ctx block bundle = None)
  /\ (target_block (ins_branch ins) < 0 ->
      branch_quadword_offset ctx ins block = Some 0).
Proof.
  intros Hn Hname Ht. split.
  - intros Hnone Hi.
    assert (branch_quadword_offset ctx ins block = None) as Hoff.
    { destruct Hi as [Hi|Hi].
      - rewrite (branch_quadword_offset_forward ctx ins block Hn) by lia.
        apply (jump_forward_missing ctx _ _ _ i); [lia | assumption].
      - rewrite (branch_quadword_offset_backwards ctx ins block Hn) by lia.
        apply (jump_backwards_missing ctx _ _ _ i); [lia | assumption]. }
    split; [exact Hoff|]. unfold emit_branch. rewrite Hoff. reflexivity.
  - intros Hneg. apply branch_quadword_offset_negative; [assumption | lia | lia].
Qed.

(** X15.  A discard and a wait on the tile buffer are always emitted, with
    no block read: a discard with offset 2 and destination tag 0, a wait
    with offset -1 and the tag of its own bundle; in compact form both use
    the conditional layout, also when the branch is unconditional. *)
Theorem emit_branch_special (ins : midgard_instruction)
  (ctx : compiler_context) (block : midgard_block) (bundle : midgard_bundle) :
  let is_discard := target_type (ins_branch ins) = TARGET_DISCARD in
  let is_wait := target_type (ins_branch ins) = TARGET_TILEBUF_WAIT in
  is_discard \/ is_wait ->
  let off := if target_type (ins_branch ins) =? TARGET_DISCARD
             then 2 else -1 in
  let dtag := if target_type (ins_branch ins) =? TARGET_DISCARD
              then 0 else ufield BRANCH_TAG_BITS (tag bundle) in
  let op := if target_type (ins_branch ins) =? TARGET_DISCARD
            then midgard_jmp_writeout_op_discard
            else midgard_jmp_writeout_op_tilebuffer_pending in
  branch_quadword_offset ctx ins block = Some off
  /\ exists w,
       emit_branch ins ctx block bundle = Some w
       /\ match w with
          | BranchCond b =>
              ins_unit ins = ALU_ENAB_BR_COMPACT
              /\ bc_offset b = off /\ bc_dest_tag b = dtag
              /\ bc_op b = ufield BRANCH_OP_BITS op
          | BranchExtended b =>
              ins_unit ins <> ALU_ENAB_BR_COMPACT
              /\ be_offset b = off /\ be_dest_tag b = dtag
              /\ be_op b = ufield BRANCH_OP_BITS op
          | BranchUncond _ => False
          end.
Proof.
  intros is_discard is_wait Hsp off dtag op.
  assert (branch_quadword_offset ctx ins block = Some off) as Hoff.
  { unfold branch_quadword_offset. subst off.
    destruct (Z.eqb_spec (target_type (ins_branch ins)) TARGET_DISCARD)
      as [Ed|Nd]; [reflexivity|].
    destruct Hsp as [Hd|Hw]; [contradiction|].
    apply Z.eqb_eq in Hw. rewrite Hw. reflexivity. }
  split; [exact Hoff|].
  unfold emit_branch. rewrite Hoff. cbn [bind].
  assert (((target_type (ins_branch ins) =? TARGET_DISCARD)
           || (target_type (ins_branch ins) =? TARGET_TILEBUF_WAIT)) = true)
    as Hspecial.
  { destruct Hsp as [Hd|Hw]; [apply Z.eqb_eq in Hd; now rewrite Hd|].
    apply Z.eqb_eq in Hw. rewrite Hw. apply orb_true_r. }
  rewrite Hspecial, orb_true_r.
  destruct (Z.eqb_spec (ins_unit ins) ALU_ENAB_BR_COMPACT) as [Ec|Nc].
  - eexists. split; [reflexivity|]. cbn [bc_offset bc_dest_tag bc_op].
    subst off dtag op.
    destruct (target_type (ins_branch ins) =? TARGET_DISCARD) eqn:Ed.
    + repeat split; auto.
    + apply orb_prop in Hspecial. destruct Hspecial as [|Hw]; [discriminate|].
      rewrite Hw. repeat split; auto.
  - eexists. split; [reflexivity|]. unfold midgard_create_branch_extended.
    cbn [be_offset be_dest_tag be_op]. subst off dtag op.
    destruct (target_type (ins_branch ins) =? TARGET_DISCARD) eqn:Ed.
    + repeat split; auto.
    + apply orb_prop in Hspecial. destruct Hspecial as [|Hw]; [discriminate|].
      rewrite Hw. repeat split; auto.
Qed.

(** X16.  A compact unconditional branch to a block is checked: it is
    emitted, in the unconditional layout with its marker bit, exactly when
    the offset fits the 7 signed bits of the field; out of that range the
    emitter fails rather than truncate.  With the writeout flag set (and a
    writeout opcode that is not the unconditional one) it fails as well. *)
Theorem emit_branch_compact_uncond (ins : midgard_instruction)
  (ctx : compiler_context) (block : midgard_block) (bundle : midgard_bundle) :
  ins_unit ins = ALU_ENAB_BR_COMPACT ->
  conditional (ins_branch ins) = false ->
  normal_branch ins ->
  (ins_writeout ins = true ->
   midgard_jmp_writeout_op_writeout <> midgard_jmp_writeout_op_branch_uncond ->
   emit_branch ins ctx block bundle = None)
  /\ (ins_writeout ins = false ->
      forall off,
        branch_quadword_offset ctx ins block = Some off ->
        (-64 <= off < 64 ->
         emit_branch ins ctx block bundle
         = Some (BranchUncond
                   {| bu_op := ufield BRANCH_OP_BITS
                                 midgard_jmp_writeout_op_branch_uncond;
                      bu_dest_tag :=
                        ufield BRANCH_TAG_BITS
                          (midgard_get_first_tag_from_block ctx
                             (target_block (ins_branch ins)));
                      bu_offset := off;
                      bu_unknown := 1 |}))
        /\ (~ -64 <= off < 64 -> emit_branch ins ctx block bundle = None)).
Proof.
  intros Hc Hcond [Nd Nt]. apply Z.eqb_neq in Nd, Nt. apply Z.eqb_eq in Hc.
  unfold emit_branch. rewrite Hc, Hcond, Nd, Nt. cbn [negb andb orb].
  split.
  - intros Hw Hne. rewrite Hw. apply Z.eqb_neq in Hne. rewrite Hne.
    destruct (branch_quadword_offset ctx ins block); reflexivity.
  - intros Hw off Hoff. rewrite Hw, Hoff, Z.eqb_refl. cbn [assert bind bu_offset].
    pose proof (sfield_exact_iff BRANCH_COMPACT_OFFSET_BITS off ltac:(reflexivity))
      as Hex.
    change (2 ^ (BRANCH_COMPACT_OFFSET_BITS - 1)) with 64 in Hex.
    split.
    + intros Hr. apply Hex in Hr. rewrite Hr, Z.eqb_refl. reflexivity.
    + intros Hr.
      destruct (Z.eqb_spec (sfield BRANCH_COMPACT_OFFSET_BITS off) off)
        as [Heq|Hne]; [|reflexivity].
      apply Hex in Heq. contradiction.
Qed.

(** X17.  The other two layouts store the offset unchecked.  A compact
    conditional branch keeps it modulo 2^7 and an extended branch modulo
    2^23, as signed values: the offset itself when it fits, and a wrapped
    one, with no failure, when it does not. *)
Theorem emit_branch_offset_wraps (ins : midgard_instruction)
  (ctx : compiler_context) (block : midgard_block) (bundle : midgard_bundle)
  (off : Z) :
  branch_quadword_offset ctx ins block = Some off ->
  (ins_unit ins = ALU_ENAB_BR_COMPACT ->
   conditional (ins_branch ins) = true ->
   exists b,
     emit_branch ins ctx block bundle = Some (BranchCond b)
     /\ -64 <= bc_offset b < 64
     /\ (exists k, bc_offset b = off + k * 128)
     /\ (-64 <= off < 64 -> bc_offset b = off))
  /\ (ins_unit ins <> ALU_ENAB_BR_COMPACT ->
      exists b,
        emit_branch ins ctx block bundle = Some (BranchExtended b)
        /\ - 2 ^ 22 <= be_offset b < 2 ^ 22
        /\ (exists k, be_offset b = off + k * 2 ^ 23)
        /\ (- 2 ^ 22 <= off < 2 ^ 22 -> be_offset b = off)).
Proof.
  intros Hoff. unfold emit_branch. rewrite Hoff. cbn [bind]. split.
  - intros Hc Hcond. apply Z.eqb_eq in Hc. rewrite Hc, Hcond. cbn [orb].
    eexists. split; [reflexivity|]. cbn [bc_offset].
    split; [exact (sfield_range BRANCH_COMPACT_OFFSET_BITS off eq_refl)|].
    split; [exact (sfield_congruent BRANCH_COMPACT_OFFSET_BITS off eq_refl)|].
    intros Hr. apply sfield_small; [reflexivity | exact Hr].
  - intros Hc. apply Z.eqb_neq in Hc. rewrite Hc.
    eexists. split; [reflexivity|]. unfold midgard_create_branch_extended.
    cbn [be_offset].
    split; [exact (sfield_range BRANCH_EXTENDED_OFFSET_BITS off eq_refl)|].
    split; [exact (sfield_congruent BRANCH_EXTENDED_OFFSET_BITS off eq_refl)|].
    intros Hr. apply sfield_small; [reflexivity | exact Hr].
Qed.

(** X18.  The layout of an emitted branch follows the unit and the flags:
    the extended layout off the compact unit, and there never with the
    unconditional opcode (an unconditional far jump is a conditional one
    whose condition is "always"); on the compact unit the unconditional
    layout for an unconditional branch to a block, and the conditional
    layout for a conditional or special one. *)
Theorem emit_branch_layout (ins : midgard_instruction)
  (ctx : compiler_context) (block : midgard_block) (bundle : midgard_bundle)
  (w : branch_word) :
  emit_branch ins ctx block bundle = Some w ->
  let special :=
    (target_type (ins_branch ins) =? TARGET_DISCARD)
    || (target_type (ins_branch ins) =? TARGET_TILEBUF_WAIT) in
  match w with
  | BranchExtended b =>
      ins_unit ins <> ALU_ENAB_BR_COMPACT
      /\ be_op b
         = ufield BRANCH_OP_BITS
             (if target_type (ins_branch ins) =? TARGET_DISCARD
              then midgard_jmp_writeout_op_discard
              else if target_type (ins_branch ins) =? TARGET_TILEBUF_WAIT
              then midgard_jmp_writeout_op_tilebuffer_pending
              else if ins_writeout ins
              then midgard_jmp_writeout_op_writeout
              else midgard_jmp_writeout_op_branch_cond)
  | BranchUncond b =>
      ins_unit ins = ALU_ENAB_BR_COMPACT
      /\ conditional (ins_branch ins) = false /\ special = false
      /\ bu_unknown b = 1
      /\ bu_op b = ufield BRANCH_OP_BITS midgard_jmp_writeout_op_branch_uncond
  | BranchCond b =>
      ins_unit ins = ALU_ENAB_BR_COMPACT
      /\ (conditional (ins_branch ins) = true \/ special = true)
  end.
Proof.
  intros H special. unfold emit_branch in H.
  destruct (branch_quadword_offset ctx ins block) as [off|]; [|discriminate].
  cbn [bind] in H. fold special in H.
  destruct (Z.eqb_spec (ins_unit ins) ALU_ENAB_BR_COMPACT) as [Ec|Nc].
  - destruct (conditional (ins_branch ins)) eqn:Econd; cbn [orb] in H.
    + injection H as <-. auto.
    + destruct special eqn:Esp.
      * injection H as <-. auto.
      * cbn [negb andb] in H.
        destruct (Z.eqb_spec
                    (if target_type (ins_branch ins) =? TARGET_DISCARD
                     then midgard_jmp_writeout_op_discard
                     else if target_type (ins_branch ins)
                             =? TARGET_TILEBUF_WAIT
                     then midgard_jmp_writeout_op_tilebuffer_pending
                     else if ins_writeout ins
                     then midgard_jmp_writeout_op_writeout
                     else midgard_jmp_writeout_op_branch_uncond)
                    midgard_jmp_writeout_op_branch_uncond) as [Eop|Nop];
          cbn [assert bind] in H; [|discriminate].
        destruct (assert _) in H; [|discriminate]. cbn [bind] in H.
        injection H as <-. cbn [bu_unknown bu_op]. rewrite Eop. auto.
  - injection H as <-. unfold midgard_create_branch_extended. cbn [be_op].
    split; [assumption|]. cbn [andb]. reflexivity.
Qed.

(** ** Load/store and texture swizzles *)

Lemma pack_vec4_loop_four (row : list Z) (p0 : Z) :
  pack_vec4_loop 4 0 row p0
  = if (swz row 0 <=? 3) && (swz row 1 <=? 3) && (swz row 2 <=? 3)
       && (swz row 3 <=? 3)
    then Some (Z.lor (Z.lor (Z.lor (Z.lor p0 (Z.shiftl (swz row 0) 0))
                                   (Z.shiftl (swz row 1) 2))
                            (Z.shiftl (swz row 2) 4))
                     (Z.shiftl (swz row 3) 6))
    else None.
Proof.
  cbn -[swz Z.lor Z.shiftl Z.leb Z.mul Z.add].
  change (0 + 1) with 1. change (1 + 1) with 2. change (2 + 1) with 3.
  change (2 * 0) with 0. change (2 * 1) with 2. change (2 * 2) with 4.
  change (2 * 3) with 6.
  destruct (swz row 0 <=? 3), (swz row 1 <=? 3), (swz row 2 <=? 3),
    (swz row 3 <=? 3); reflexivity.
Qed.

Lemma pack_vec4_loop_none (row : list Z) (p0 : Z) :
  pack_vec4_loop 4 0 row p0 = None <-> exists c, 0 <= c < 4 /\ 3 < swz row c.
Proof.
  rewrite pack_vec4_loop_four.
  destruct (Z.leb_spec (swz row 0) 3) as [H0|H0];
    [destruct (Z.leb_spec (swz row 1) 3) as [H1|H1];
     [destruct (Z.leb_spec (swz row 2) 3) as [H2|H2];
      [destruct (Z.leb_spec (swz row 3) 3) as [H3|H3]|]|]|];
    cbn [andb].
  - split; [discriminate|]. intros (c & Hc & Hgt).
    assert (c = 0 \/ c = 1 \/ c = 2 \/ c = 3) as [-> | [-> | [-> | ->]]]
        by lia; lia.
  - split; [|reflexivity]. intros _. exists 3. lia.
  - split; [|reflexivity]. intros _. exists 2. lia.
  - split; [|reflexivity]. intros _. exists 1. lia.
  - split; [|reflexivity]. intros _. exists 0. lia.
Qed.

Lemma pack_vec4_loop_slots (row : list Z) (p : Z) :
  (forall c, 0 <= c < 4 -> 0 <= swz row c) ->
  pack_vec4_loop 4 0 row 0 = Some p ->
  0 <= p < 256 /\ forall c, 0 <= c < 4 -> swizzle_slot p c = swz row c.
Proof.
  intros Hpos H. rewrite pack_vec4_loop_four in H.
  destruct (Z.leb_spec (swz row 0) 3) as [H0|H0]; [|discriminate].
  destruct (Z.leb_spec (swz row 1) 3) as [H1|H1]; [|discriminate].
  destruct (Z.leb_spec (swz row 2) 3) as [H2|H2]; [|discriminate].
  destruct (Z.leb_spec (swz row 3) 3) as [H3|H3]; [|discriminate].
  cbn [andb] in H. injection H as <-.
  pose proof (Hpos 0 ltac:(lia)). pose proof (Hpos 1 ltac:(lia)).
  pose proof (Hpos 2 ltac:(lia)). pose proof (Hpos 3 ltac:(lia)).
  destruct (pack_four_slots (swz row 0) (swz row 1) (swz row 2) (swz row 3))
    as (Hr & S0 & S1 & S2 & S3); try lia.
  split; [exact Hr|]. intros c Hc.
  assert (c = 0 \/ c = 1 \/ c = 2 \/ c = 3) as [-> | [-> | [-> | ->]]] by lia;
    assumption.
Qed.

Lemma ufield_lor_absorb (w f p : Z) :
  0 <= w -> ufield w (Z.lor (ufield w (Z.lor f p)) p) = ufield w (Z.lor f p).
Proof.
  intros Hw. unfold ufield. apply Z.bits_inj'. intros n Hn.
  rewrite !Z.land_spec, !Z.lor_spec, !Z.land_spec, !Z.lor_spec.
  destruct (Z.testbit f n), (Z.testbit p n), (Z.testbit (Z.ones w) n);
    reflexivity.
Qed.

(** X19.  mir_pack_swizzle_ldst fails exactly when one of the first four
    components of the first source is above 3.  When it returns, only the
    swizzle field has changed, it is a byte, and packing again returns the
    same word (the components are or-ed into the field); from an empty
    field, slot c of the byte is component c. *)
Theorem mir_pack_swizzle_ldst_pack (ins : midgard_instruction)
  (w : midgard_load_store_word) :
  let row := swizzle_row ins 0 in
  (mir_pack_swizzle_ldst ins w = None <->
   exists c, 0 <= c < 4 /\ 3 < swz row c)
  /\ (forall w', mir_pack_swizzle_ldst ins w = Some w' ->
        ls_varying_parameters w' = ls_varying_parameters w
        /\ ls_address w' = ls_address w
        /\ 0 <= ls_swizzle w' < 256
        /\ mir_pack_swizzle_ldst ins w' = Some w'
        /\ (ls_swizzle w = 0 ->
            (forall c, 0 <= c < 4 -> 0 <= swz row c) ->
            forall c, 0 <= c < 4 -> swizzle_slot (ls_swizzle w') c = swz row c)).
Proof.
  intros row. unfold mir_pack_swizzle_ldst. fold row. split.
  - rewrite <- (pack_vec4_loop_none row (ls_swizzle w)).
    destruct (pack_vec4_loop 4 0 row (ls_swizzle w)); cbn [bind];
      split; congruence.
  - intros w' H.
    destruct (pack_vec4_loop 4 0 row (ls_swizzle w)) as [p|] eqn:Ep;
      [|discriminate].
    cbn [bind] in H. injection H as <-.
    cbn [ls_swizzle ls_varying_parameters ls_address].
    split; [reflexivity|]. split; [reflexivity|].
    split; [apply (ufield_range 8); discriminate|]. split.
    + rewrite pack_vec4_loop_four in Ep |- *.
      destruct ((swz row 0 <=? 3) && (swz row 1 <=? 3) && (swz row 2 <=? 3)
                && (swz row 3 <=? 3)); [|discriminate].
      injection Ep as <-. cbn [bind]. f_equal. f_equal.
      rewrite <- !Z.lor_assoc. apply ufield_lor_absorb. discriminate.
    + intros Hz Hpos c Hc. rewrite Hz in Ep.
      destruct (pack_vec4_loop_slots row p Hpos Ep) as [Hr Hs].
      rewrite ufield_small by (try discriminate; exact Hr). now apply Hs.
Qed.

(** X20.  mir_pack_swizzle_tex fails exactly when one of the first four
    components of the first or of the second source is above 3; the two
    bytes it returns have component c of their source in slot c. *)
Theorem mir_pack_swizzle_tex_pack (ins : midgard_instruction) :
  let row_0 := swizzle_row ins 0 in
  let row_1 := swizzle_row ins 1 in
  (mir_pack_swizzle_tex ins = None <->
   exists c, 0 <= c < 4 /\ (3 < swz row_0 c \/ 3 < swz row_1 c))
  /\ (forall swizzle in_reg_swizzle,
        mir_pack_swizzle_tex ins = Some (swizzle, in_reg_swizzle) ->
        (forall c, 0 <= c < 4 -> 0 <= swz row_0 c /\ 0 <= swz row_1 c) ->
        0 <= swizzle < 256 /\ 0 <= in_reg_swizzle < 256
        /\ forall c, 0 <= c < 4 ->
             swizzle_slot swizzle c = swz row_0 c
             /\ swizzle_slot in_reg_swizzle c = swz row_1 c).
Proof.
  intros row_0 row_1. unfold mir_pack_swizzle_tex. fold row_0 row_1. split.
  - destruct (pack_vec4_loop 4 0 row_0 0) as [p0|] eqn:E0; cbn [bind].
    + destruct (pack_vec4_loop 4 0 row_1 0) as [p1|] eqn:E1; cbn [bind].
      * split; [discriminate|]. intros (c & Hc & [H|H]).
        -- assert (pack_vec4_loop 4 0 row_0 0 = None) as Hn
               by (apply pack_vec4_loop_none; eauto).
           congruence.
        -- assert (pack_vec4_loop 4 0 row_1 0 = None) as Hn
               by (apply pack_vec4_loop_none; eauto).
           congruence.
      * split; [|reflexivity]. intros _.
        apply pack_vec4_loop_none in E1. destruct E1 as (c & Hc & H). eauto.
    + split; [|reflexivity]. intros _.
      apply pack_vec4_loop_none in E0. destruct E0 as (c & Hc & H). eauto.
  - intros s1 s2 H Hpos.
    destruct (pack_vec4_loop 4 0 row_0 0) as [p0|] eqn:E0; [|discriminate].
    destruct (pack_vec4_loop 4 0 row_1 0) as [p1|] eqn:E1; [|discriminate].
    cbn [bind] in H. injection H as <- <-.
    destruct (pack_vec4_loop_slots row_0 p0 (fun c Hc => proj1 (Hpos c Hc)) E0)
      as [Hr0 Hs0].
    destruct (pack_vec4_loop_slots row_1 p1 (fun c Hc => proj2 (Hpos c Hc)) E1)
      as [Hr1 Hs1].
    rewrite !ufield_small by (try discriminate; assumption).
    split; [exact Hr0|]. split; [exact Hr1|]. intros c Hc. split; auto.
Qed.

(** ** The constant offset of a load or store *)

(** X21.  The constant offset of a load/store is split without loss: from
    empty fields, varying_parameters takes the low 10 - shift bits of the
    offset above `shift` clear bits, the address field the bits above, and
    for an offset below 2^(19 - shift) the offset is the two put together
    again.  The swizzle is left alone and a zero offset changes nothing. *)
Theorem ldst_apply_offset_split (ins : midgard_instruction) (offset : Z)
  (w : midgard_load_store_word) :
  0 <= offset ->
  let shift := mir_ldst_imm_shift (ins_op ins) in
  let w' := ldst_apply_offset ins offset w in
  ls_swizzle w' = ls_swizzle w
  /\ (offset = 0 -> w' = w)
  /\ (ls_varying_parameters w = 0 -> ls_address w = 0 ->
      ls_varying_parameters w' = (offset mod 2 ^ (10 - shift)) * 2 ^ shift
      /\ 0 <= ls_varying_parameters w' < 2 ^ 10
      /\ (offset < 2 ^ (19 - shift) ->
          ls_address w' = offset / 2 ^ (10 - shift)
          /\ offset = Z.shiftr (ls_varying_parameters w') shift
                      + ls_address w' * 2 ^ (10 - shift))).
Proof.
  intros Hoff shift w'. subst w'. unfold ldst_apply_offset. fold shift.
  destruct (Z.eqb_spec offset 0) as [E0|N0]; cbn [negb].
  - split; [reflexivity|]. split; [reflexivity|]. intros Hvp Had.
    assert (0 < 2 ^ (10 - shift)) as Hpos.
    { unfold shift, mir_ldst_imm_shift.
      destruct (OP_IS_UBO_READ (ins_op ins)); reflexivity. }
    rewrite Hvp, Had, E0, Z.mod_0_l, Z.div_0_l, Z.shiftr_0_l by lia.
    split; [lia|]. split; [lia|]. intros _. split; lia.
  - cbn [ls_swizzle ls_varying_parameters ls_address].
    split; [reflexivity|]. split; [contradiction|]. intros Hvp Had.
    rewrite Hvp, Had. rewrite !Z.lor_0_l.
    assert (shift = 1 \/ shift = 3) as Hs.
    { unfold shift, mir_ldst_imm_shift.
      destruct (OP_IS_UBO_READ (ins_op ins)); auto. }
    assert (Z.shiftl 1 (10 - shift) - 1 = Z.ones (10 - shift)) as ->
        by (destruct Hs as [-> | ->]; reflexivity).
    rewrite Z.land_ones, Z.shiftl_mul_pow2, Z.shiftr_div_pow2 by lia.
    assert (0 < 2 ^ (10 - shift)) by (apply Z.pow_pos_nonneg; lia).
    assert (0 < 2 ^ shift) by (apply Z.pow_pos_nonneg; lia).
    pose proof (Z.mod_pos_bound offset (2 ^ (10 - shift)) ltac:(lia)) as Hm.
    assert (2 ^ (10 - shift) * 2 ^ shift = 2 ^ 10) as Hp.
    { rewrite <- Z.pow_add_r by lia. f_equal. lia. }
    assert (0 <= offset mod 2 ^ (10 - shift) * 2 ^ shift < 2 ^ 10) as Hr by nia.
    rewrite (ufield_small 10) by (try discriminate; exact Hr).
    split; [reflexivity|]. split; [exact Hr|]. intros Hlt.
    assert (2 ^ (19 - shift) = 2 ^ 9 * 2 ^ (10 - shift)) as Hq.
    { rewrite <- Z.pow_add_r by lia. f_equal. lia. }
    assert (0 <= offset / 2 ^ (10 - shift) < 2 ^ 9) as Hd.
    { split; [apply Z.div_pos; lia|].
      apply Z.div_lt_upper_bound; lia. }
    rewrite (ufield_small 9) by (try discriminate; exact Hd).
    split; [reflexivity|].
    rewrite Z.shiftr_div_pow2, Z.div_mul by lia.
    pose proof (Z.div_mod offset (2 ^ (10 - shift)) ltac:(lia)). lia.
Qed.

(** ** ALU bundles *)

Lemma join_sixteen (c : Z) :
  0 <= c < 2 ^ 16 ->
  Z.lor (Z.shiftl (ufield REG_BITS (Z.shiftr c 11)) 11) (Z.land c 2047) = c.
Proof.
  intros Hc.
  assert (ufield REG_BITS (Z.shiftr c 11) = Z.shiftr c 11) as ->.
  { apply ufield_small; [discriminate|].
    rewrite Z.shiftr_div_pow2 by lia. split; [apply Z.div_pos; lia|].
    apply Z.div_lt_upper_bound; [lia|]. change (2 ^ REG_BITS) with 32.
    change (2 ^ 11) with 2048. change (2 ^ 16) with 65536 in Hc. lia. }
  apply Z.bits_inj'. intros n Hn. rewrite Z.lor_spec, Z.land_spec.
  change 2047 with (Z.ones 11).
  destruct (Z.ltb_spec n 11) as [Hlt|Hge].
  - rewrite Z.shiftl_spec_low, Z.ones_spec_low by lia.
    now rewrite andb_true_r.
  - rewrite Z.shiftl_spec_high, Z.shiftr_spec, Z.ones_spec_high by lia.
    rewrite andb_false_r, orb_false_r. f_equal. lia.
Qed.

(** X22.  A 16-bit inline constant goes out whole, in two places: the
    register word has the immediate flag set and bits 11 to 15 of the
    constant as src2_reg, and the instruction word has bits 0 to 10, in the
    scalar form as in the vector form.  The constant is the two read back
    and put together. *)
Theorem alu_inline_constant_whole (ins : midgard_instruction) :
  ins_has_inline_constant ins = true ->
  0 <= ins_inline_constant ins < 2 ^ 16 ->
  let r := alu_reg_info ins in
  src2_imm r = true
  /\ src2_reg r = Z.shiftr (ins_inline_constant ins) 11
  /\ (forall v s,
        vector_to_scalar_alu v ins = Some s ->
        Z.lor (Z.shiftl (src2_reg r) 11) (scalar_imm_low11 (s_src2 s))
        = ins_inline_constant ins)
  /\ Z.lor (Z.shiftl (src2_reg r) 11)
           (vector_imm_low11 (v_src2 (vector_alu_from_instr ins)))
     = ins_inline_constant ins.
Proof.
  intros Hic Hc r. subst r. unfold alu_reg_info. rewrite Hic.
  cbn [src2_imm src2_reg].
  split; [reflexivity|]. split.
  - apply ufield_small; [discriminate|].
    rewrite Z.shiftr_div_pow2 by lia. split; [apply Z.div_pos; lia|].
    apply Z.div_lt_upper_bound; [lia|]. change (2 ^ REG_BITS) with 32.
    change (2 ^ 11) with 2048. change (2 ^ 16) with 65536 in Hc. lia.
  - split.
    + intros v s Hs.
      destruct (vector_to_scalar_alu_fields v ins s Hs)
        as (comp & m0 & m1 & _ & _ & _ & _ & _ & _ & _ & _ & H2 & _).
      rewrite Hic in H2. rewrite H2, scalar_imm_low11_inverse.
      now apply join_sixteen.
    + unfold vector_alu_from_instr. rewrite Hic. cbn [set_v_src2 v_src2].
      rewrite (proj1 (vector_imm_low11_inverse (ins_inline_constant ins))).
      now apply join_sixteen.
Qed.

Lemma emit_vector_alu_fields (ins : midgard_instruction)
  (w : midgard_vector_alu) :
  emit_vector_alu ins = Some w ->
  v_op w = ufield ALU_OP_BITS (ins_op ins)
  /\ v_outmod w = ufield OUTMOD_BITS (ins_outmod ins)
  /\ v_reg_mode w = reg_mode_for_bitsize (max_bitsize_for_alu ins)
  /\ v_mask w = v_mask (mir_pack_mask_alu ins (vector_alu_from_instr ins))
  /\ v_dest_override w
     = v_dest_override (mir_pack_mask_alu ins (vector_alu_from_instr ins))
  /\ (src_at ins 0 = NO_REG -> v_src1 w = 0)
  /\ (ins_has_inline_constant ins = false -> src_at ins 1 = NO_REG ->
      v_src2 w = 0)
  /\ 0 <= v_src1 w < 2 ^ 13 /\ 0 <= v_src2 w < 2 ^ 13.
Proof.
  unfold emit_vector_alu, mir_pack_vector_srcs. intros H.
  set (a := mir_pack_mask_alu ins (vector_alu_from_instr ins)) in *.
  assert (v_op a = ufield ALU_OP_BITS (ins_op ins)
          /\ v_outmod a = ufield OUTMOD_BITS (ins_outmod ins)
          /\ v_reg_mode a = reg_mode_for_bitsize (max_bitsize_for_alu ins)
          /\ v_src1 a = 0
          /\ (ins_has_inline_constant ins = false -> v_src2 a = 0)
          /\ 0 <= v_src2 a < 2 ^ 13) as (Aop & Aom & Arm & A1 & A2 & A2r).
  { subst a. unfold mir_pack_mask_alu, vector_alu_from_instr.
    destruct (ins_has_inline_constant ins); cbn; repeat split;
      try discriminate; try reflexivity;
      apply (ufield_range VECTOR_SRC_BITS); discriminate. }
  assert (forall i x y,
             mir_pack_vector_srcs_step ins i x = Some y ->
             v_op y = v_op x /\ v_outmod y = v_outmod x
             /\ v_reg_mode y = v_reg_mode x /\ v_mask y = v_mask x
             /\ v_dest_override y = v_dest_override x
             /\ (y = x
                 \/ (i = O /\ src_at ins 0 <> NO_REG /\ v_src2 y = v_src2 x
                     /\ 0 <= v_src1 y < 2 ^ 13)
                 \/ (i <> O /\ ins_has_inline_constant ins && Nat.eqb i 1
                               = false
                     /\ src_at ins i <> NO_REG /\ v_src1 y = v_src1 x
                     /\ 0 <= v_src2 y < 2 ^ 13))) as Hstep.
  { intros i x y Hs. unfold mir_pack_vector_srcs_step in Hs.
    destruct (ins_has_inline_constant ins && Nat.eqb i 1) eqn:Eskip.
    { injection Hs as <-. repeat split; auto. }
    destruct (Z.eqb_spec (src_at ins i) NO_REG) as [En|Nn].
    { injection Hs as <-. repeat split; auto. }
    destruct (assert _); [|discriminate]. cbn [bind] in Hs.
    destruct (mir_pack_swizzle _ _ _ _ _ _ _) as [[[sw rl] rh]|];
      [|discriminate].
    cbn [bind] in Hs.
    destruct (mir_pack_mod ins i false); [|discriminate]. cbn [bind] in Hs.
    destruct (Nat.eqb_spec i 0) as [-> | Ni]; injection Hs as <-;
      cbn; repeat split; auto.
    - right. left. repeat split; auto;
        apply (ufield_range VECTOR_SRC_BITS); discriminate.
    - right. right. repeat split; auto;
        apply (ufield_range VECTOR_SRC_BITS); discriminate. }
  destruct (mir_pack_vector_srcs_step ins 0 a) as [a0|] eqn:E0;
    [|discriminate].
  cbn [bind] in H.
  destruct (Hstep _ _ _ E0) as (Bop & Bom & Brm & Bm & Bd & B0).
  destruct (Hstep _ _ _ H) as (Cop & Com & Crm & Cm & Cd & C1).
  assert (v_src1 w = v_src1 a0) as W1.
  { destruct C1 as [-> | [(Hi & _) | (_ & _ & _ & Hs & _)]];
      [reflexivity | discriminate | exact Hs]. }
  assert (v_src2 a0 = v_src2 a) as W2.
  { destruct B0 as [-> | [(_ & _ & Hs & _) | (Hi & _)]];
      [reflexivity | exact Hs | congruence]. }
  repeat split; try congruence.
  - intros Hn. rewrite W1.
    destruct B0 as [-> | [(_ & Hne & _) | (Hi & _)]];
      [exact A1 | contradiction | congruence].
  - intros Hic Hn.
    destruct C1 as [-> | [(Hi & _) | (_ & _ & Hne & _)]];
      [rewrite W2; now apply A2 | discriminate | contradiction].
  - rewrite W1. destruct B0 as [-> | [(_ & _ & _ & Hr) | (Hi & _)]];
      [rewrite A1; lia | lia | congruence].
  - rewrite W1. destruct B0 as [-> | [(_ & _ & _ & Hr) | (Hi & _)]];
      [rewrite A1; reflexivity | lia | congruence].
  - destruct C1 as [-> | [(Hi & _) | (_ & _ & _ & _ & Hr)]];
      [rewrite W2; lia | discriminate | lia].
  - destruct C1 as [-> | [(Hi & _) | (_ & _ & _ & _ & Hr)]];
      [rewrite W2; lia | discriminate | lia].
Qed.

(** X23.  In the vector word emitted, packing the mask and packing the
    sources do not disturb what vector_alu_from_instr set: the opcode and
    the output modifier are those of the instruction, cut to their fields,
    and the register mode is the one of its size; a source that is unused
    leaves its field 0 (when it is not the place of an inline constant),
    and both source fields are within 13 bits. *)
Theorem emit_vector_alu_frame (ins : midgard_instruction)
  (w : midgard_vector_alu) :
  emit_vector_alu ins = Some w ->
  v_op w = Z.land (ins_op ins) 255
  /\ v_outmod w = Z.land (ins_outmod ins) 3
  /\ v_reg_mode w = reg_mode_for_bitsize (max_bitsize_for_alu ins)
  /\ (src_at ins 0 = NO_REG -> v_src1 w = 0)
  /\ (ins_has_inline_constant ins = false -> src_at ins 1 = NO_REG ->
      v_src2 w = 0)
  /\ 0 <= v_src1 w < 2 ^ 13 /\ 0 <= v_src2 w < 2 ^ 13.
Proof.
  intros H.
  destruct (emit_vector_alu_fields ins w H)
    as (Hop & Hom & Hrm & _ & _ & H1 & H2 & R1 & R2).
  repeat split; try assumption; tauto.
Qed.




Lemma emit_alu_bodies_none (ctx : compiler_context) (block : midgard_block)
  (bundle : midgard_bundle) (l : list alu_instruction)
  (emission : list emitted) :
  emit_alu_bodies ctx block bundle l emission = None <->
  exists i, In i l /\ emit_alu_body ctx block bundle i = None.
Proof.
  revert emission. induction l as [|i l IH]; intros emission.
  - cbn. split; [discriminate | intros (i & [] & _)].
  - cbn [emit_alu_bodies].
    destruct (emit_alu_body ctx block bundle i) as [[j e]|] eqn:Eb;
      cbn [bind fst snd].
    + destruct (emit_alu_bodies ctx block bundle l (emission ++ [e]))
        as [[l1 em1]|] eqn:Er; cbn [bind].
      * split; [discriminate|]. intros (k & [<- | Hin] & Hk); [congruence|].
        assert (emit_alu_bodies ctx block bundle l (emission ++ [e]) = None)
          as Hn by (apply IH; eauto).
        congruence.
      * split; [|reflexivity]. intros _. apply IH in Er.
        destruct Er as (k & Hin & Hk). exists k. split; [now right | exact Hk].
    + split; [|reflexivity]. intros _. exists i. split; [now left | exact Eb].
Qed.


(** X25.  emit_alu_bundle fails exactly when the body of one of its
    instructions fails: the control word, the register words, the padding
    and the constants never do. *)
Theorem emit_alu_bundle_failure (ctx : compiler_context)
  (block : midgard_block) (bundle : alu_bundle) (emission : list emitted)
  (lookahead : Z) :
  emit_alu_bundle ctx block bundle emission lookahead = None <->
  exists i, In i (ab_instructions bundle)
            /\ emit_alu_body ctx block (bundle_of bundle) i = None.
Proof.
  unfold emit_alu_bundle.
  rewrite <- (emit_alu_bodies_none ctx block (bundle_of bundle)
                (ab_instructions bundle)
                (emit_alu_registers (ab_instructions bundle)
                   (emission
                    ++ [EControl (ufield 32 (Z.lor (ab_control bundle)
                                                   lookahead))]))).
  destruct (emit_alu_bodies _ _ _ _ _) as [[l' em]|]; cbn [bind];
    split; congruence.
Qed.

(** X26.  The body of an instruction is chosen by its unit and carries the
    lowered opcode.  A compact branch is left as it is.  Any other
    instruction has its opcode lowered first, by mir_lower_inverts and then
    by the rounding mode when its opcode (after the first lowering) has
    rounding variants; it goes out as a branch on a branch unit, and
    otherwise as a vector word on a vector unit and as a scalar word on the
    others, with the low 8 bits of the lowered opcode as the opcode of the
    word. *)
Theorem emit_alu_body_dispatch (ctx : compiler_context)
  (block : midgard_block) (bundle : midgard_bundle) (i i' : alu_instruction)
  (e : emitted) :
  emit_alu_body ctx block bundle i = Some (i', e) ->
  let lowered := mir_lower_inverts (alu_ins i) in
  (ins_compact_branch (alu_ins i) = true -> i' = i)
  /\ (ins_compact_branch (alu_ins i) = false ->
      alu_ins i'
      = set_op lowered
          (ins_op lowered
           + (if alu_op_rounds (ins_op lowered) then alu_roundmode i else 0))
      /\ (alu_op_rounds (ins_op lowered) = true -> alu_roundmode i <= 3))
  /\ ins_unit (alu_ins i') = ins_unit (alu_ins i)
  /\ match e with
     | EBranch w =>
         midgard_is_branch_unit (ins_unit (alu_ins i)) = true
         /\ emit_branch (alu_ins i') ctx block bundle = Some w
     | EVector v =>
         midgard_is_branch_unit (ins_unit (alu_ins i)) = false
         /\ any_set (ins_unit (alu_ins i)) UNITS_ANY_VECTOR = true
         /\ v_op v = Z.land (ins_op (alu_ins i')) 255
     | EScalar s =>
         midgard_is_branch_unit (ins_unit (alu_ins i)) = false
         /\ any_set (ins_unit (alu_ins i)) UNITS_ANY_VECTOR = false
         /\ s_op s = Z.land (ins_op (alu_ins i')) 255
     | _ => False
     end.
Proof.
  intros H lowered. unfold emit_alu_body in H.
  assert (forall x, ins_unit (mir_lower_inverts x) = ins_unit x) as Hunit.
  { intros x. unfold mir_lower_inverts.
    destruct (ins_op x =? midgard_alu_op_iand);
      [|destruct (ins_op x =? midgard_alu_op_ior);
        [|destruct (ins_op x =? midgard_alu_op_ixor)]];
      destruct (flag_at (ins_src_invert x) 0),
        (flag_at (ins_src_invert x) 1); reflexivity. }
  assert (exists j,
             (if negb (ins_compact_branch (alu_ins i))
              then mir_lower_roundmode
                     {| alu_ins := mir_lower_inverts (alu_ins i);
                        alu_roundmode := alu_roundmode i |}
              else Some i) = Some j
             /\ (ins_compact_branch (alu_ins i) = true -> j = i)
             /\ (ins_compact_branch (alu_ins i) = false ->
                 alu_ins j
                 = set_op lowered
                     (ins_op lowered
                      + (if alu_op_rounds (ins_op lowered)
                         then alu_roundmode i else 0))
                 /\ (alu_op_rounds (ins_op lowered) = true ->
                     alu_roundmode i <= 3))
             /\ ins_unit (alu_ins j) = ins_unit (alu_ins i))
    as (j & Hj & Hc & Hl & Hu).
  { destruct (ins_compact_branch (alu_ins i)); cbn [negb] in *.
    - exists i. repeat split; auto; discriminate.
    - unfold mir_lower_roundmode in *. cbn [alu_ins alu_roundmode] in *.
      fold lowered in H |- *.
      destruct (alu_op_rounds (ins_op lowered)).
      + destruct (Z.leb_spec (alu_roundmode i) 3); cbn [assert bind] in *;
          [|discriminate].
        eexists. split; [reflexivity|]. cbn [alu_ins].
        repeat split; auto; try discriminate. subst lowered. apply Hunit.
      + eexists. split; [reflexivity|]. cbn [alu_ins].
        repeat split; auto; try discriminate.
        * rewrite Z.add_0_r. symmetry. apply set_op_same.
        * subst lowered. apply Hunit. }
  rewrite Hj in H. cbn [bind] in H. rewrite Hu in H.
  destruct (midgard_is_branch_unit (ins_unit (alu_ins i))) eqn:Ebr.
  - destruct (emit_branch _ _ _ _) as [w|] eqn:Ew; [|discriminate].
    cbn [bind] in H. injection H as <- <-.
    split; [exact Hc|]. split; [exact Hl|]. split; [exact Hu|]. auto.
  - destruct (any_set (ins_unit (alu_ins i)) UNITS_ANY_VECTOR) eqn:Ev.
    + destruct (emit_vector_alu _) as [v|] eqn:Evec; [|discriminate].
      cbn [bind] in H. injection H as <- <-.
      split; [exact Hc|]. split; [exact Hl|]. split; [exact Hu|].
      split; [reflexivity|]. split; [reflexivity|].
      apply (emit_vector_alu_fields _ _ Evec).
    + destruct (vector_to_scalar_alu _ _) as [s|] eqn:Es; [|discriminate].
      cbn [bind] in H. injection H as <- <-.
      split; [exact Hc|]. split; [exact Hl|]. split; [exact Hu|].
      split; [reflexivity|]. split; [reflexivity|].
      destruct (vector_to_scalar_alu_fields _ _ _ Es)
        as (c & m0 & m1 & _ & _ & _ & Hop & _).
      rewrite Hop. unfold vector_alu_from_instr.
      destruct (ins_has_inline_constant (alu_ins j)); reflexivity.
Qed.

End MoreFacts.


(** * The emitter on examples *)

(** C6 fails as stated: for a scalar word, a full-width integer operand
    with no shift gets the code 0, not the plain code; and a shift
    requested on a full-width operand fails the assertion. *)
Lemma int_mod_counterexample :
  @midgard_is_integer_op mesa_externals (ins_op sample_iand) = true
  /\ flag_at (ins_src_shift sample_iand) 0 = false
  /\ (@nir_alu_type_get_type_size mesa_externals (src_type_at sample_iand 0)
      =? Z.shiftr (@max_bitsize_for_alu mesa_externals sample_iand) 1) = false
  /\ @mir_pack_mod mesa_externals sample_iand 0 true = Some 0
  /\ @mir_pack_mod mesa_externals sample_iand 0 true
     <> Some (int_mod_as_specified false false false)
  /\ @mir_get_imod mesa_externals true nir_type_uint32 false false
     <> Some (int_mod_as_specified true false false).
Proof.
  repeat split; try reflexivity; vm_compute; discriminate.
Qed.

Lemma mir_pack_mod_integer_witness :
  @midgard_is_integer_op mesa_externals (ins_op sample_iand) = true
  /\ @mir_pack_mod mesa_externals sample_iand 0 true = Some 0.
Proof.
  split; [reflexivity|].
  exact (proj1 (proj2 (proj2
           (@mir_pack_mod_integer mesa_externals sample_iand 0%nat true
              eq_refl)))
           eq_refl eq_refl).
Defined.

(** C1 fails as stated: for the constant 0x0FFF the specified value is
    0xFFF, and the src2 field holds 0x7FF. *)
Lemma scalar_inline_constant_counterexample :
  let ins := with_inline_constant sample_iand 4095 in
  let v := @vector_alu_from_instr mesa_externals ins in
  exists s,
    @vector_to_scalar_alu mesa_externals v ins = Some s
    /\ s_src2 s = 2047
    /\ scalar_imm_as_specified (Z.land (ins_inline_constant ins) 4095) = 4095
    /\ s_src2 s
       <> scalar_imm_as_specified (Z.land (ins_inline_constant ins) 4095).
Proof.
  eexists. split; [vm_compute; reflexivity|].
  repeat split; try reflexivity. vm_compute. discriminate.
Qed.

Lemma vector_to_scalar_alu_inline_constant_witness :
  let ins := with_inline_constant sample_iand 4095 in
  let v := @vector_alu_from_instr mesa_externals ins in
  exists s,
    @vector_to_scalar_alu mesa_externals v ins = Some s /\ s_src2 s = 2047.
Proof.
  intros ins v.
  exists {| s_op := 112; s_src1 := 4; s_src2 := 2047; s_unknown := 0;
            s_outmod := 0; s_output_full := true; s_output_component := 0 |}.
  split; [reflexivity|].
  exact (proj2 (proj2
           (@vector_to_scalar_alu_inline_constant mesa_externals v ins _
              eq_refl eq_refl)) eq_refl).
Defined.

(** C7 fails as stated: on a full-width source whose swizzle selects
    component 5 for the written lane, the component shifted left by 1 is
    10, and the component field of the packed source holds 2. *)
Lemma scalar_source_component_counterexample :
  let ins := with_swizzle sample_iand
               [[5; 1; 2; 3]; [0; 1; 2; 3]; [0; 1; 2; 3]; [0; 1; 2; 3]] in
  let v := @vector_alu_from_instr mesa_externals ins in
  ins_mask ins = 2 ^ 0
  /\ @nir_alu_type_get_type_size mesa_externals (src_type_at ins 0) = 32
  /\ swz (swizzle_row ins 0) 0 = 5
  /\ exists s,
       @vector_to_scalar_alu mesa_externals v ins = Some s
       /\ scalar_src_component (s_src1 s) = 2
       /\ Z.shiftl (swz (swizzle_row ins 0) 0) 1 = 10
       /\ scalar_src_component (s_src1 s)
          <> Z.shiftl (swz (swizzle_row ins 0) 0) 1.
Proof.
  intros ins v. split; [reflexivity|]. split; [reflexivity|].
  split; [reflexivity|].
  eexists. split; [vm_compute; reflexivity|].
  split; [reflexivity|]. split; [reflexivity|]. vm_compute. discriminate.
Qed.

Lemma vector_to_scalar_alu_single_lane_witness :
  let ins := with_mask_types sample_iand 2 nir_type_uint32 in
  exists s,
    @vector_to_scalar_alu mesa_externals
      (@vector_alu_from_instr mesa_externals ins) ins = Some s
    /\ s_output_component s = 2
    /\ scalar_src_component (s_src1 s) = 2
    /\ scalar_src_component (s_src2 s) = 2
    /\ s_op s = 112.
Proof.
  intros ins.
  destruct (@vector_to_scalar_alu_single_lane mesa_externals
              (@vector_alu_from_instr mesa_externals ins) ins 1 0 0)
    as (s & Hs & Hc & _ & Hop & _ & _ & _ & Hc1 & Hsrc2).
  - lia.
  - reflexivity.
  - intros _. lia.
  - reflexivity.
  - reflexivity.
  - destruct (Hsrc2 eq_refl) as (_ & _ & Hc2).
    exists s.
    split; [exact Hs|]. split; [exact Hc|].
    split; [apply (proj2 (Hc1 ltac:(discriminate))); reflexivity|].
    split; [apply (proj2 (Hc2 ltac:(discriminate))); reflexivity|].
    exact Hop.
Defined.

Lemma mir_lower_inverts_op_witness :
  ins_op (@mir_lower_inverts mesa_externals
            (with_inverts sample_iand 112 false true)) = 116
  /\ ins_op (@mir_lower_inverts mesa_externals
               (with_inverts sample_iand 112 true true)) = 115.
Proof.
  pose proof (@mir_lower_inverts_op mesa_externals
                (with_inverts sample_iand 112 false true)
                ltac:(discriminate) ltac:(discriminate) ltac:(discriminate))
    as (_ & H1 & _).
  pose proof (@mir_lower_inverts_op mesa_externals
                (with_inverts sample_iand 112 true true)
                ltac:(discriminate) ltac:(discriminate) ltac:(discriminate))
    as (H2 & _).
  split.
  - exact (H1 eq_refl eq_refl eq_refl).
  - exact (H2 eq_refl eq_refl eq_refl).
Defined.

Lemma mir_pack_tex_ooo_depth_witness :
  ins_texture_out_of_order
    (@mir_pack_tex_ooo mesa_externals sample_block_0 0 sample_tex) = 1
  /\ ins_texture_out_of_order
       (@mir_pack_tex_ooo mesa_externals sample_block_0 1 sample_tex) = 0.
Proof.
  split.
  - exact (proj1 (proj2 (@mir_pack_tex_ooo_depth mesa_externals
                           sample_block_0 0%nat sample_tex))).
  - refine (proj1 (proj2 (proj2 (@mir_pack_tex_ooo_depth mesa_externals
                                   sample_block_0 1%nat sample_tex)))
              _ eq_refl _).
    right. exists sample_reader, 2. repeat split.
    + left. reflexivity.
    + left. reflexivity.
Defined.

(** C5 fails as stated for 32-bit elements: the mask 0b11111, with a lane
    above lane 3, is not stored unchanged; the mask field holds 0b1111. *)
Lemma mir_pack_ldst_mask_counterexample :
  let ins := with_mask_types sample_iand 31 nir_type_uint32 in
  @nir_alu_type_get_type_size mesa_externals (ins_dest_type ins) = 32
  /\ ins_mask ins = 31
  /\ (exists ins',
        @mir_pack_ldst_mask mesa_externals ins = Some ins'
        /\ ins_load_store_mask ins' = 15
        /\ ins_load_store_mask ins' <> ins_mask ins)
  /\ @mir_pack_ldst_mask mesa_externals ins
     <> Some (set_load_store_mask ins (ins_mask ins)).
Proof.
  intros ins. split; [reflexivity|]. split; [reflexivity|]. split.
  - eexists. split; [vm_compute; reflexivity|].
    split; [reflexivity | vm_compute; discriminate].
  - vm_compute. discriminate.
Qed.

Lemma mir_pack_ldst_mask_cases_witness :
  let ins := with_mask_types sample_iand 3 nir_type_uint16 in
  @mir_pack_ldst_mask mesa_externals ins = Some (set_load_store_mask ins 1)
  /\ @mir_pack_ldst_mask mesa_externals
       (with_mask_types sample_iand 5 nir_type_uint32)
     = Some (set_load_store_mask
               (with_mask_types sample_iand 5 nir_type_uint32) 5)
  /\ @mir_pack_ldst_mask mesa_externals
       (with_mask_types sample_iand 31 nir_type_uint32)
     = Some (set_load_store_mask
               (with_mask_types sample_iand 31 nir_type_uint32) 15).
Proof.
  intros ins. split; [|split].
  - exact (proj1 (proj2 (proj2 (@mir_pack_ldst_mask_cases mesa_externals ins)))
             eq_refl eq_refl).
  - exact (proj1 (proj1 (proj2 (proj2 (proj2
              (@mir_pack_ldst_mask_cases mesa_externals
                 (with_mask_types sample_iand 5 nir_type_uint32)))))
              eq_refl)).
  - exact (proj1 (proj1 (proj2 (proj2 (proj2
              (@mir_pack_ldst_mask_cases mesa_externals
                 (with_mask_types sample_iand 31 nir_type_uint32)))))
              eq_refl)).
Defined.

Lemma mir_pack_swizzle_64_halves_witness :
  @mir_pack_swizzle mesa_externals 3 [0; 2] nir_type_uint32
    midgard_reg_mode_64 false false false = None
  /\ exists packed,
       @mir_pack_swizzle mesa_externals 3 [2; 3] nir_type_uint32
         midgard_reg_mode_64 false false false = Some (packed, true, false).
Proof.
  split.
  - refine (proj1 (@mir_pack_swizzle_64_halves mesa_externals 3 [0; 2]
                     nir_type_uint32 false false false
                     eq_refl eq_refl eq_refl) _).
    discriminate.
  - destruct (proj1 (proj2 (@mir_pack_swizzle_64_halves mesa_externals 3
                              [2; 3] nir_type_uint32 false false false
                              eq_refl eq_refl eq_refl))
                eq_refl ltac:(vm_compute; discriminate)
                ltac:(vm_compute; discriminate))
      as (packed & _ & H).
    exists packed. exact H.
Defined.

Lemma emit_branch_extended_cond_witness :
  let ins := with_branch sample_iand sample_branch_unit (goto true false 2) in
  exists b,
    @emit_branch mesa_externals ins sample_ctx sample_block_0
      {| tag := 8; instructions := [ins] |} = Some (BranchExtended b)
    /\ cond_slot (be_cond b) 5 = midgard_condition_true.
Proof.
  intros ins. eexists. split; [vm_compute; reflexivity|].
  refine (proj1 (proj2 (@emit_branch_extended_cond mesa_externals ins
                          sample_ctx sample_block_0
                          {| tag := 8; instructions := [ins] |} _ eq_refl))
            5 _).
  lia.
Defined.

(** C2 fails as stated: over blocks of 1, 2 and 3 quadwords, the branch
    from the first to the third has offset 2 and the branch back has offset
    -6. *)
Lemma branch_offset_counterexample :
  let ins_ab := with_branch sample_iand sample_branch_unit
                  (goto false false 2) in
  let ins_ba := with_branch sample_iand sample_branch_unit
                  (goto false false 0) in
  Forall (fun b => 0 < quadword_count b) (blocks sample_ctx)
  /\ @normal_branch mesa_externals ins_ab
  /\ @normal_branch mesa_externals ins_ba
  /\ @branch_quadword_offset mesa_externals sample_ctx ins_ab sample_block_0
     = Some 2
  /\ @branch_quadword_offset mesa_externals sample_ctx ins_ba sample_block_2
     = Some (-6)
  /\ 2 <> - (-6).
Proof.
  cbv zeta. split; [repeat constructor|].
  split; [split; discriminate|]. split; [split; discriminate|].
  split; [reflexivity|]. split; [reflexivity|]. discriminate.
Qed.

Lemma branch_offset_forward_backward_witness :
  let ins_ab := with_branch sample_iand sample_branch_unit
                  (goto false false 2) in
  let ins_ba := with_branch sample_iand sample_branch_unit
                  (goto false false 0) in
  exists fwd bwd,
    @branch_quadword_offset mesa_externals sample_ctx ins_ab sample_block_0
    = Some fwd
    /\ @branch_quadword_offset mesa_externals sample_ctx ins_ba sample_block_2
       = Some bwd
    /\ fwd = - bwd - 1 - 3.
Proof.
  intros ins_ab ins_ba.
  destruct (@branch_offset_forward_backward mesa_externals sample_ctx
              ins_ab ins_ba sample_block_0 sample_block_2 sample_blk)
    as (fwd & bwd & Hf & Hb & _ & _ & Heq).
  - vm_compute. discriminate.
  - reflexivity.
  - reflexivity.
  - split; discriminate.
  - split; discriminate.
  - reflexivity.
  - reflexivity.
  - intros i Hi. change (0 <= i <= 2) in Hi.
    assert (i = 0 \/ i = 1 \/ i = 2) as [-> | [-> | ->]] by lia; reflexivity.
  - intros i Hi. change (0 <= i <= 2) in Hi.
    assert (i = 0 \/ i = 1 \/ i = 2) as [-> | [-> | ->]] by lia;
      vm_compute; discriminate.
  - reflexivity.
  - exists fwd, bwd. repeat split; assumption.
Defined.

Lemma emit_vector_alu_inline_constant_witness :
  let ins := with_inline_constant sample_iand 4095 in
  exists w,
    @emit_vector_alu mesa_externals ins = Some w /\ v_src2 w = 8188.
Proof.
  intros ins. eexists. split; [vm_compute; reflexivity|].
  exact (proj1 (proj2 (proj2 (proj2
           (@emit_vector_alu_inline_constant mesa_externals ins eq_refl))))
           _ eq_refl).
Defined.

(** ** Examples of the further properties *)

Lemma component_from_mask_lowest_witness :
  component_from_mask 12 = Some 2 /\ component_from_mask 256 = None.
Proof.
  split.
  - apply (proj1 (component_from_mask_lowest 12) 2).
    split; [lia|]. split; [reflexivity|]. intros j Hj.
    assert (j = 0 \/ j = 1) as [-> | ->] by lia; reflexivity.
  - apply (proj2 (component_from_mask_lowest 256)). intros j Hj.
    assert (j = 0 \/ j = 1 \/ j = 2 \/ j = 3 \/ j = 4 \/ j = 5 \/ j = 6
            \/ j = 7) as H by lia.
    repeat (destruct H as [-> | H]; [reflexivity|]). subst j. reflexivity.
Defined.

Lemma mir_pack_scalar_source_fields_witness :
  scalar_src_component (mir_pack_scalar_source 2 true 3) = 6
  /\ Z.land (mir_pack_scalar_source 2 true 3) 3 = 2.
Proof.
  split.
  - exact (proj2 (proj2 (proj2 (mir_pack_scalar_source_fields 2 true 3)))).
  - exact (proj1 (proj2 (mir_pack_scalar_source_fields 2 true 3))).
Defined.

Lemma mir_pack_mod_two_bits_witness :
  @mir_pack_mod mesa_externals (with_inverts sample_iand 16 false false)
    0 false = Some 0
  /\ 0 <= 2 < 4.
Proof.
  split.
  - exact (proj1 (@mir_pack_mod_two_bits mesa_externals
                    (with_inverts sample_iand 16 false false) 0%nat false)
             eq_refl).
  - exact (proj2 (@mir_pack_mod_two_bits mesa_externals sample_iand 0%nat
                    false) 2 eq_refl).
Defined.

Lemma vector_to_scalar_alu_failure_witness :
  let ins := with_mask_types sample_iand 0 nir_type_uint32 in
  @vector_to_scalar_alu mesa_externals
    (@vector_alu_from_instr mesa_externals ins) ins = None.
Proof.
  intros ins.
  apply (proj1 (@vector_to_scalar_alu_failure mesa_externals
                  (@vector_alu_from_instr mesa_externals ins) ins)).
  left. reflexivity.
Defined.

Lemma vector_to_scalar_alu_inline_low11_witness :
  let ins := sample_scalar_imm in
  exists s,
    @vector_to_scalar_alu mesa_externals
      (@vector_alu_from_instr mesa_externals ins) ins = Some s
    /\ s_src2 s = 885 /\ scalar_imm_low11 (s_src2 s) = 973.
Proof.
  intros ins. eexists. split; [vm_compute; reflexivity|].
  split; [reflexivity|].
  exact (proj1 (@vector_to_scalar_alu_inline_low11 mesa_externals
                  (@vector_alu_from_instr mesa_externals ins) ins _
                  eq_refl eq_refl)).
Defined.

Lemma vector_alu_from_instr_inline_low11_witness :
  vector_imm_low11
    (v_src2 (@vector_alu_from_instr mesa_externals sample_scalar_imm)) = 973.
Proof.
  exact (proj1 (@vector_alu_from_instr_inline_low11 mesa_externals
                  sample_scalar_imm eq_refl)).
Defined.

Lemma mir_pack_swizzle_64_value_witness :
  mir_pack_swizzle_64 [0; 5] 4 = None
  /\ mir_pack_swizzle_64 [1; 4] 4 = Some 78.
Proof.
  split.
  - apply (proj1 (mir_pack_swizzle_64_value [0; 5] 4)). right.
    vm_compute. reflexivity.
  - rewrite (proj2 (mir_pack_swizzle_64_value [1; 4] 4) 78 eq_refl).
    reflexivity.
Defined.

Lemma mir_pack_swizzle_slots_witness :
  @mir_pack_swizzle mesa_externals 15 [3; 2; 1; 0] nir_type_uint32
    midgard_reg_mode_32 false false false = Some (27, false, false)
  /\ swizzle_slot 27 0 = 3 /\ swizzle_slot 27 3 = 0.
Proof.
  split; [reflexivity|].
  pose proof (@mir_pack_swizzle_slots mesa_externals 15 [3; 2; 1; 0]
                nir_type_uint32 midgard_reg_mode_32 false false false
                27 false false ltac:(discriminate) eq_refl) as [_ H].
  split; [exact (H 0 ltac:(lia)) | exact (H 3 ltac:(lia))].
Defined.

Lemma mir_pack_swizzle_lanes_witness :
  @mir_pack_swizzle mesa_externals 3 [4; 5; 6; 7; 0; 0; 0; 0] nir_type_uint16
    midgard_reg_mode_16 false false false = Some (228, false, true)
  /\ swz [4; 5; 6; 7; 0; 0; 0; 0] 1 <= 7
  /\ (swz [4; 5; 6; 7; 0; 0; 0; 0] 1 >? 3) = true.
Proof.
  split; [reflexivity|].
  exact (proj1 (@mir_pack_swizzle_lanes mesa_externals 3
                  [4; 5; 6; 7; 0; 0; 0; 0] nir_type_uint16
                  midgard_reg_mode_16 false false false
                  228 false true ltac:(discriminate) eq_refl)
           1 ltac:(lia) eq_refl).
Defined.

Lemma mir_pack_swizzle_modes_witness :
  @mir_pack_swizzle mesa_externals 3 [4; 5; 6; 7; 0; 0; 0; 0] nir_type_uint16
    midgard_reg_mode_16 false false false = Some (228, false, true)
  /\ @nir_alu_type_get_type_size mesa_externals nir_type_uint16 = 16.
Proof.
  split; [reflexivity|].
  destruct (@mir_pack_swizzle_modes mesa_externals 3
              [4; 5; 6; 7; 0; 0; 0; 0] nir_type_uint16
              midgard_reg_mode_16 false false false 228 false true eq_refl)
    as [(H & _) | [(_ & H & _) | [(_ & H & _) | (H & _)]]];
    try discriminate. exact H.
Defined.

Lemma mir_pack_ldst_mask_returns_witness :
  @mir_pack_ldst_mask mesa_externals
    (with_mask_types sample_iand 3 nir_type_uint16) <> None.
Proof.
  apply (proj1 (@mir_pack_ldst_mask_returns mesa_externals
                  (with_mask_types sample_iand 3 nir_type_uint16))).
  right. right. split; [reflexivity|]. intros i Hi.
  assert (i = 0 \/ i = 1 \/ i = 2 \/ i = 3) as [-> | [-> | [-> | ->]]]
      by lia; reflexivity.
Defined.

Lemma mir_lower_inverts_frame_witness :
  let ins := with_inverts sample_iand 112 true true in
  @mir_lower_inverts mesa_externals (@mir_lower_inverts mesa_externals ins)
  = @mir_lower_inverts mesa_externals ins
  /\ ins_src_invert (@mir_lower_inverts mesa_externals ins)
     = [true; true; false; false].
Proof.
  intros ins.
  destruct (@mir_lower_inverts_frame mesa_externals ins) as (_ & Hinv & Hid).
  split; [|exact Hinv].
  apply Hid. intros o Ho. cbn in Ho.
  repeat (destruct Ho as [<- | Ho]; [repeat split; discriminate|]).
  contradiction.
Defined.

Lemma branch_offset_next_and_self_witness :
  @branch_quadword_offset mesa_externals sample_ctx
    (with_branch sample_iand sample_branch_unit (goto false false 2))
    sample_block_1 = Some 0
  /\ @branch_quadword_offset mesa_externals sample_ctx
       (with_branch sample_iand sample_branch_unit (goto false false 1))
       sample_block_1 = Some (-2).
Proof.
  split.
  - refine (proj1 (@branch_offset_next_and_self mesa_externals sample_ctx
                     (with_branch sample_iand sample_branch_unit
                        (goto false false 2)) sample_block_1 _ _) eq_refl).
    + split; discriminate.
    + vm_compute. split; [discriminate | reflexivity].
  - refine (proj2 (@branch_offset_next_and_self mesa_externals sample_ctx
                     (with_branch sample_iand sample_branch_unit
                        (goto false false 1)) sample_block_1 _ _)
              sample_block_1 eq_refl eq_refl _).
    + split; discriminate.
    + vm_compute. split; [discriminate | reflexivity].
    + vm_compute. split; discriminate.
Defined.

Lemma emit_branch_missing_block_witness :
  @emit_branch mesa_externals
    (with_branch sample_iand sample_branch_unit (goto false false 2))
    empty_ctx sample_block_0 {| tag := 8; instructions := [] |} = None
  /\ @branch_quadword_offset mesa_externals empty_ctx
       (with_branch sample_iand sample_branch_unit (goto false false (-1)))
       sample_block_0 = Some 0.
Proof.
  split.
  - refine (proj2 (proj1 (@emit_branch_missing_block mesa_externals
                            (with_branch sample_iand sample_branch_unit
                               (goto false false 2))
                            empty_ctx sample_block_0
                            {| tag := 8; instructions := [] |} 1 _ _ _)
                     eq_refl _)).
    + split; discriminate.
    + vm_compute. split; [discriminate | reflexivity].
    + vm_compute. split; [discriminate | reflexivity].
    + left. vm_compute. split; reflexivity.
  - refine (proj2 (@emit_branch_missing_block mesa_externals
                     (with_branch sample_iand sample_branch_unit
                        (goto false false (-1)))
                     empty_ctx sample_block_0
                     {| tag := 8; instructions := [] |} 0 _ _ _) _).
    + split; discriminate.
    + vm_compute. split; [discriminate | reflexivity].
    + vm_compute. split; [discriminate | reflexivity].
    + reflexivity.
Defined.

Lemma emit_branch_special_witness :
  @emit_branch mesa_externals
    (with_branch sample_iand sample_compact_unit discard_branch)
    empty_ctx sample_block_0 {| tag := 8; instructions := [] |}
  = Some (BranchCond {| bc_op := 4; bc_dest_tag := 0; bc_offset := 2;
                        bc_cond := 3 |})
  /\ @branch_quadword_offset mesa_externals empty_ctx
       (with_branch sample_iand sample_compact_unit discard_branch)
       sample_block_0 = Some 2.
Proof.
  split; [reflexivity|].
  exact (proj1 (@emit_branch_special mesa_externals
                  (with_branch sample_iand sample_compact_unit discard_branch)
                  empty_ctx sample_block_0
                  {| tag := 8; instructions := [] |} (or_introl eq_refl))).
Defined.

Lemma emit_branch_compact_uncond_witness :
  @emit_branch mesa_externals
    (with_branch sample_iand sample_compact_unit (goto false false 1))
    sample_ctx sample_block_0 {| tag := 8; instructions := [] |}
  = Some (BranchUncond {| bu_op := 1; bu_dest_tag := 8; bu_offset := 0;
                          bu_unknown := 1 |}).
Proof.
  refine (proj1 (proj2 (@emit_branch_compact_uncond mesa_externals
                          (with_branch sample_iand sample_compact_unit
                             (goto false false 1))
                          sample_ctx sample_block_0
                          {| tag := 8; instructions := [] |}
                          eq_refl eq_refl _) eq_refl 0 eq_refl) _).
  - split; discriminate.
  - lia.
Defined.

Lemma emit_branch_offset_wraps_witness :
  exists b,
    @emit_branch mesa_externals
      (with_branch sample_iand sample_compact_unit (goto true true 2))
      sample_ctx sample_block_0 {| tag := 8; instructions := [] |}
    = Some (BranchCond b)
    /\ bc_offset b = 2.
Proof.
  destruct (proj1 (@emit_branch_offset_wraps mesa_externals
                     (with_branch sample_iand sample_compact_unit
                        (goto true true 2))
                     sample_ctx sample_block_0
                     {| tag := 8; instructions := [] |} 2 eq_refl)
              eq_refl eq_refl) as (b & Hb & _ & _ & Hex).
  exists b. split; [exact Hb|]. apply Hex. lia.
Defined.

Lemma emit_branch_layout_witness :
  let ins := with_branch sample_iand sample_compact_unit
               (goto false false 1) in
  let w := BranchUncond {| bu_op := 1; bu_dest_tag := 8; bu_offset := 0;
                           bu_unknown := 1 |} in
  @emit_branch mesa_externals ins sample_ctx sample_block_0
    {| tag := 8; instructions := [] |} = Some w
  /\ ins_unit ins = @ALU_ENAB_BR_COMPACT mesa_externals
  /\ conditional (ins_branch ins) = false.
Proof.
  intros ins w. split; [reflexivity|].
  destruct (@emit_branch_layout mesa_externals ins sample_ctx sample_block_0
              {| tag := 8; instructions := [] |} w eq_refl)
    as (Hu & Hc & _).
  split; [exact Hu | exact Hc].
Defined.

Lemma mir_pack_swizzle_ldst_pack_witness :
  exists w,
    mir_pack_swizzle_ldst sample_iand empty_ldst = Some w
    /\ swizzle_slot (ls_swizzle w) 2 = 2.
Proof.
  eexists. split; [reflexivity|].
  refine (proj2 (proj2 (proj2 (proj2
            (proj2 (mir_pack_swizzle_ldst_pack sample_iand empty_ldst)
               _ eq_refl)))) eq_refl _ 2 _).
  - intros c Hc.
    assert (c = 0 \/ c = 1 \/ c = 2 \/ c = 3) as [-> | [-> | [-> | ->]]]
        by lia; vm_compute; discriminate.
  - lia.
Defined.

Lemma mir_pack_swizzle_tex_pack_witness :
  mir_pack_swizzle_tex sample_iand = Some (228, 228)
  /\ swizzle_slot 228 1 = 1 /\ swizzle_slot 228 3 = 3.
Proof.
  split; [reflexivity|].
  destruct (proj2 (mir_pack_swizzle_tex_pack sample_iand) 228 228 eq_refl)
    as (_ & _ & H).
  - intros c Hc.
    assert (c = 0 \/ c = 1 \/ c = 2 \/ c = 3) as [-> | [-> | [-> | ->]]]
        by lia; vm_compute; split; discriminate.
  - split; [exact (proj1 (H 1 ltac:(lia))) | exact (proj2 (H 3 ltac:(lia)))].
Defined.

Lemma ldst_apply_offset_split_witness :
  let w := @ldst_apply_offset mesa_bundle_externals sample_iand 1000
             empty_ldst in
  ls_varying_parameters w = 976 /\ ls_address w = 1.
Proof.
  intros w.
  destruct (proj2 (proj2 (@ldst_apply_offset_split mesa_bundle_externals
                            sample_iand 1000 empty_ldst ltac:(lia)))
              eq_refl eq_refl) as (Hvp & _ & Hrest).
  split; [exact Hvp|]. apply Hrest. vm_compute. reflexivity.
Defined.

Lemma alu_inline_constant_whole_witness :
  src2_reg (@alu_reg_info mesa_bundle_externals sample_scalar_imm) = 21
  /\ Z.lor (Z.shiftl 21 11) 973 = 43981.
Proof.
  destruct (@alu_inline_constant_whole mesa_externals mesa_bundle_externals
              sample_scalar_imm eq_refl
              ltac:(vm_compute; split; [discriminate | reflexivity]))
    as (_ & Hreg & _ & Hv).
  split; [exact Hreg | exact Hv].
Defined.

Lemma emit_vector_alu_frame_witness :
  exists w,
    @emit_vector_alu mesa_externals sample_iand = Some w /\ v_op w = 112.
Proof.
  eexists. split; [vm_compute; reflexivity|].
  exact (proj1 (@emit_vector_alu_frame mesa_externals sample_iand _ eq_refl)).
Defined.


Lemma emit_alu_bundle_failure_witness :
  @emit_alu_bundle mesa_externals mesa_bundle_externals sample_ctx
    sample_block_0 sample_bad_bundle [] 128 = None.
Proof.
  apply (proj2 (@emit_alu_bundle_failure mesa_externals mesa_bundle_externals
                  sample_ctx sample_block_0 sample_bad_bundle [] 128)).
  eexists. split; [left; reflexivity|]. reflexivity.
Defined.

Lemma emit_alu_body_dispatch_witness :
  exists i' s,
    @emit_alu_body mesa_externals mesa_bundle_externals sample_ctx
      sample_block_0 (bundle_of sample_alu_bundle)
      {| alu_ins := sample_scalar_imm; alu_roundmode := 0 |}
    = Some (i', EScalar s)
    /\ s_op s = 112.
Proof.
  eexists. eexists. split; [vm_compute; reflexivity|].
  exact (proj2 (proj2 (proj2 (proj2 (proj2
           (@emit_alu_body_dispatch mesa_externals mesa_bundle_externals
              sample_ctx sample_block_0 (bundle_of sample_alu_bundle)
              {| alu_ins := sample_scalar_imm; alu_roundmode := 0 |}
              _ _ eq_refl)))))).
Defined.
